(** * Warehouse plan replay: the state-transition engine of
      [visualize_warehouse.py] and its two parsers.

    Part I is the model.

    - [Dict]: Python dictionaries whose iteration order the program
      observes, as insertion-ordered association lists.
    - The value-level model of [parse_init], [parse_plan], [update_state]
      and of the main loop, on immutable records.
    - [Heap]: the same [update_state] on a store of mutable objects, with
      [copy.deepcopy] allocating fresh objects.
    - The vocabulary of the properties.
    - [Re]: the regular expressions of the two parsers, matched by
      backtracking as [re.match] does, with [str.strip] and [int];
      [parse_action_string], the [occurs] pattern and the eight patterns
      of the init file on text.
    - The grid of [calculate_max_width_for_state] and [visualize_step],
      and the pre-simulation pass of the main block.

    Part II is the properties: the policies of [update_state], what the
    parsers accept and what they make of it, that text written in the
    format of the two files is read back, the layers and the alignment
    of the grid, and that the [update_state] of [Heap] refines the
    value-level one and leaves every object of its argument untouched. *)

From stdpp Require Import gmap strings list fin_maps.
From Stdlib Require Import ZArith Lia Ascii DecimalString DecimalZ DecimalPos.

Local Open Scope Z_scope.

(** * Part I: the model *)

(** ** Insertion-ordered dictionaries *)

Module Dict.
Section dict.
Context {V : Type}.

(** [d.get(k)] *)
Fixpoint get (k : string) (d : list (string * V)) : option V :=
  match d with
  | [] => None
  | (k', v) :: d' => if decide (k = k') then Some v else get k d'
  end.

(** [d[k] = f(d[k])] for a key that is present; the entry keeps its place
    in the iteration order.  Nothing happens for an absent key. *)
Fixpoint alter (f : V → V) (k : string) (d : list (string * V)) : list (string * V) :=
  match d with
  | [] => []
  | (k', v) :: d' =>
      if decide (k = k') then (k', f v) :: d' else (k', v) :: alter f k d'
  end.

(** [d[k] = v]: overwrite in place, or append a new entry. *)
Fixpoint set (k : string) (v : V) (d : list (string * V)) : list (string * V) :=
  match d with
  | [] => [(k, v)]
  | (k', v') :: d' =>
      if decide (k = k') then (k', v) :: d' else (k', v') :: set k v d'
  end.

(** [d.keys()], in iteration order. *)
Definition keys (d : list (string * V)) : list string := d.*1.

End dict.
End Dict.

(** ** Data model (the [state] dictionary of [parse_init]) *)

(** The three dictionaries indexed by an identity ([robots], [shelves],
    [orders]) hold mutable records and are kept in insertion order, which
    the scans of [update_state] over the shelves observe; the innermost
    dictionaries and the sets are finite maps and sets. *)

Definition coord : Type := Z * Z.

(** [{'pos': (x, y), 'carries': None | shelf_id}] *)
Record robot := Robot { r_pos : coord; r_carries : option string }.

(** [{'pos': (x, y), 'quantities': {product_id: qty}}]; the ['pos'] key is
    popped while the shelf is carried. *)
Record shelf := Shelf { s_pos : option coord; s_quantities : gmap string Z }.

(** [{'station_id': sid, 'requirements': {product_id: qty}}] *)
Record order := Order { o_station_id : string; o_requirements : gmap string Z }.

Record State := MkState {
  nodes : gset coord;
  highways : gset coord;
  picking_stations : gmap string coord;
  robots : list (string * robot);
  shelves : list (string * shelf);
  products : gset string;
  orders : list (string * order);
}.

(** The dictionaries returned by [parse_action_string]. *)
Inductive action :=
| Move (dx dy : Z)
| Pickup
| Putdown
| Deliver (order_id product_id : string) (units : Z)
| Unknown (raw : string).

(** [{'robot': robot_id, 'action': action_details}] *)
Definition action_info : Type := string * action.

(** One constructor per [print(f"Warning: ...")] of [update_state]. *)
Inductive warning :=
| WUnknownRobot (robot_id : string)
| WPickupCarrying (robot_id : string)
| WPickupNoShelf (robot_id : string)
| WPutdownNothing (robot_id : string)
| WPutdownHighway (robot_id : string)
| WPutdownOccupied (robot_id other_shelf : string)
| WDeliverNothing (robot_id : string)
| WDeliverUnknownShelf (robot_id : string)
| WDeliverUnknownOrder (order_id : string)
| WDeliverUnknownProduct (product_id : string)
| WDeliverWrongStation (robot_id : string)
| WDeliverShort (robot_id : string)
| WRequirementMissing (product_id order_id : string).

(** Python truth value of [None | str]: [None] and the empty string are
    false. *)
Definition truthy (o : option string) : bool :=
  match o with
  | Some s => negb (bool_decide (s = EmptyString))
  | None => false
  end.

(** ** State update logic *)

Definition with_robots (f : list (string * robot) → list (string * robot)) (st : State) : State :=
  MkState (nodes st) (highways st) (picking_stations st) (f (robots st))
          (shelves st) (products st) (orders st).

Definition with_shelves (f : list (string * shelf) → list (string * shelf)) (st : State) : State :=
  MkState (nodes st) (highways st) (picking_stations st) (robots st)
          (f (shelves st)) (products st) (orders st).

Definition with_orders (f : list (string * order) → list (string * order)) (st : State) : State :=
  MkState (nodes st) (highways st) (picking_stations st) (robots st)
          (shelves st) (products st) (f (orders st)).

(** [robot_next_state['pos'] = p] *)
Definition set_pos (p : coord) (r : robot) : robot := Robot p (r_carries r).
(** [robot_next_state['carries'] = c] *)
Definition set_carries (c : option string) (r : robot) : robot := Robot (r_pos r) c.
(** [shelf.pop('pos', None)] *)
Definition pop_pos (s : shelf) : shelf := Shelf None (s_quantities s).
(** [shelf['pos'] = p] *)
Definition put_pos (p : coord) (s : shelf) : shelf := Shelf (Some p) (s_quantities s).
(** [shelf['quantities'][product_id] -= units] *)
Definition take_units (product_id : string) (units : Z) (s : shelf) : shelf :=
  Shelf (s_pos s) (alter (λ q, q - units) product_id (s_quantities s)).
(** [requirements[product_id] -= units], then reset to zero when negative *)
Definition lower_requirement (product_id : string) (units : Z) (o : order) : order :=
  Order (o_station_id o)
        (alter (λ q, if decide (q - units < 0) then 0 else q - units)
               product_id (o_requirements o)).

(** The scan of lines 227-230: the first shelf, in iteration order, whose
    ['pos'] equals [p]. *)
Definition shelf_at (p : coord) (shs : list (string * shelf)) : option string :=
  fst <$> List.find (λ e, bool_decide (s_pos e.2 = Some p)) shs.

(** The scan of lines 249-253: the first shelf other than [carried] whose
    ['pos'] equals [p]. *)
Definition other_shelf_at (p : coord) (carried : string) (shs : list (string * shelf)) : option string :=
  fst <$> List.find (λ e, bool_decide (s_pos e.2 = Some p) && negb (bool_decide (e.1 = carried))) shs.

(** The body of the [for action_info in actions_at_this_step] loop:
    [cur] is [current_state], [next] the [next_state] built so far.  The
    result is the new [next_state] and the warnings printed. *)
Definition apply_action (cur next : State) (ai : action_info) : State * list warning :=
  let '(robot_id, act) := ai in
  match Dict.get robot_id (robots cur) with
  | None => (next, [WUnknownRobot robot_id])
  | Some robot_curr_state =>
    let current_pos := r_pos robot_curr_state in
    let current_carrying := r_carries robot_curr_state in
    match act with
    | Move dx dy =>
        (with_robots (Dict.alter (set_pos (current_pos.1 + dx, current_pos.2 + dy)) robot_id) next, [])
    | Pickup =>
        if truthy current_carrying then (next, [WPickupCarrying robot_id])
        else
          let shelf_to_pickup := shelf_at current_pos (shelves cur) in
          match shelf_to_pickup with
          | Some sid =>
              if truthy shelf_to_pickup then
                (with_shelves (Dict.alter pop_pos sid)
                   (with_robots (Dict.alter (set_carries (Some sid)) robot_id) next), [])
              else (next, [WPickupNoShelf robot_id])
          | None => (next, [WPickupNoShelf robot_id])
          end
    | Putdown =>
        match current_carrying with
        | Some carried =>
            if negb (truthy current_carrying) then (next, [WPutdownNothing robot_id])
            else if bool_decide (current_pos ∈ highways next) then (next, [WPutdownHighway robot_id])
            else
              match other_shelf_at current_pos carried (shelves next) with
              | Some other => (next, [WPutdownOccupied robot_id other])
              | None =>
                  (with_shelves (Dict.alter (put_pos current_pos) carried)
                     (with_robots (Dict.alter (set_carries None) robot_id) next), [])
              end
        | None => (next, [WPutdownNothing robot_id])
        end
    | Deliver order_id product_id units =>
        match current_carrying with
        | Some shelf_id_carried =>
            if negb (truthy current_carrying) then (next, [WDeliverNothing robot_id])
            else
              match Dict.get shelf_id_carried (shelves next) with
              | None => (next, [WDeliverUnknownShelf robot_id])
              | Some sh =>
                match Dict.get order_id (orders next) with
                | None => (next, [WDeliverUnknownOrder order_id])
                | Some od =>
                  match s_quantities sh !! product_id with
                  | None => (next, [WDeliverUnknownProduct product_id])
                  | Some current_shelf_qty =>
                    let required_station_id := o_station_id od in
                    let required_station_pos :=
                      if truthy (Some required_station_id)
                      then picking_stations next !! required_station_id
                      else None in
                    if negb (bool_decide (Some current_pos = required_station_pos))
                    then (next, [WDeliverWrongStation robot_id])
                    else if decide (current_shelf_qty < units)
                    then (next, [WDeliverShort robot_id])
                    else
                      let next1 := with_shelves (Dict.alter (take_units product_id units) shelf_id_carried) next in
                      match o_requirements od !! product_id with
                      | Some _ =>
                          (with_orders (Dict.alter (lower_requirement product_id units) order_id) next1, [])
                      | None => (next1, [WRequirementMissing product_id order_id])
                      end
                  end
                end
              end
        | None => (next, [WDeliverNothing robot_id])
        end
    | Unknown _ => (next, [])
    end
  end.

(** The loop, started from [next_state = copy.deepcopy(current_state)]. *)
Fixpoint run_actions (cur : State) (acts : list action_info) (next : State) (log : list warning)
  : State * list warning :=
  match acts with
  | [] => (next, log)
  | ai :: acts' =>
      let '(next', ws) := apply_action cur next ai in
      run_actions cur acts' next' (log ++ ws)
  end.

(** [update_state]: the state returned and the warnings printed. *)
Definition update_state_log (current_state : State) (actions_at_this_step : list action_info)
  : State * list warning :=
  run_actions current_state actions_at_this_step current_state [].

Definition update_state (current_state : State) (actions_at_this_step : list action_info) : State :=
  (update_state_log current_state actions_at_this_step).1.

(** One iteration of the loop, as a function of [next_state]. *)
Definition step (cur next : State) (ai : action_info) : State := (apply_action cur next ai).1.

(** ** The main loop *)

(** [plan]: timestep -> actions, a [defaultdict(list)] read with
    [plan.get(t, [])]. *)
Definition actions_at (plan : gmap Z (list action_info)) (t : Z) : list action_info :=
  default [] (plan !! t).

(** [for t in range(t, t + n): current_state = update_state(current_state, plan.get(t, []))] *)
Fixpoint run_from (plan : gmap Z (list action_info)) (t : Z) (n : nat) (current_state : State) : State :=
  match n with
  | O => current_state
  | S n' => run_from plan (t + 1) n' (update_state current_state (actions_at plan t))
  end.

(** The state after the last timestep, [range(1, max_time + 1)]. *)
Definition simulate (plan : gmap Z (list action_info)) (max_time : Z) (initial_state : State) : State :=
  run_from plan 1 (Z.to_nat max_time) initial_state.

(** ** The initial-state parser *)

(** A line of the init file after the cascade of [re.match] tests of
    [parse_init]: which pattern matched, with the captured groups ([int]
    already applied to the digit groups).  Blank lines and comment lines
    are dropped before the tests. *)
Inductive fact :=
| FNode (node_id : string) (x y : Z)
| FHighway (highway_id : string) (x y : Z)
| FStation (station_id : string) (x y : Z)
| FRobot (robot_id : string) (x y : Z)
| FShelf (shelf_id : string) (x y : Z)
| FProduct (product_id shelf_id : string) (qty : Z)
| FOrderStation (order_id station_id : string)
| FOrderLine (order_id product_id : string) (qty : Z)
| FUnmatched (line : string).

Inductive parse_warning :=
| PUnmatchedLine (line : string)
| POrphanQuantity (shelf_id : string)
| POrphanOrderLine (order_id : string).

(** The local variables of [parse_init]. *)
Record parse_env := ParseEnv {
  pe_state : State;
  pe_max_x : Z;
  pe_max_y : Z;
  shelf_quantities_temp : list (string * gmap string Z);
  order_reqs_temp : list (string * gmap string Z);
  order_station_temp : gmap string string;
  pe_warnings : list parse_warning;
}.

Definition empty_state : State := MkState ∅ ∅ ∅ [] [] ∅ [].

Definition parse_start : parse_env := ParseEnv empty_state 0 0 [] [] ∅ [].

(** [temp[key][product_id] = qty] on a [defaultdict] of [defaultdict(int)]. *)
Fixpoint record_count (key product_id : string) (qty : Z) (temp : list (string * gmap string Z))
  : list (string * gmap string Z) :=
  match temp with
  | [] => [(key, {[ product_id := qty ]})]
  | (k, m) :: temp' =>
      if decide (key = k) then (k, <[ product_id := qty ]> m) :: temp'
      else (k, m) :: record_count key product_id qty temp'
  end.

Definition with_state (f : State → State) (e : parse_env) : parse_env :=
  ParseEnv (f (pe_state e)) (pe_max_x e) (pe_max_y e) (shelf_quantities_temp e)
           (order_reqs_temp e) (order_station_temp e) (pe_warnings e).

Definition add_product (product_id : string) (st : State) : State :=
  MkState (nodes st) (highways st) (picking_stations st) (robots st) (shelves st)
          ({[ product_id ]} ∪ products st) (orders st).

(** The body of [for line in f]. *)
Definition read_fact (e : parse_env) (f : fact) : parse_env :=
  match f with
  | FNode _ x y =>
      ParseEnv (let st := pe_state e in
                MkState ({[ (x, y) ]} ∪ nodes st) (highways st) (picking_stations st)
                        (robots st) (shelves st) (products st) (orders st))
               (Z.max (pe_max_x e) x) (Z.max (pe_max_y e) y)
               (shelf_quantities_temp e) (order_reqs_temp e) (order_station_temp e) (pe_warnings e)
  | FHighway _ x y =>
      with_state (λ st, MkState (nodes st) ({[ (x, y) ]} ∪ highways st) (picking_stations st)
                                (robots st) (shelves st) (products st) (orders st)) e
  | FStation station_id x y =>
      with_state (λ st, MkState (nodes st) (highways st) (<[ station_id := (x, y) ]> (picking_stations st))
                                (robots st) (shelves st) (products st) (orders st)) e
  | FRobot robot_id x y =>
      with_state (with_robots (Dict.set robot_id (Robot (x, y) None))) e
  | FShelf shelf_id x y =>
      with_state (with_shelves (λ shs,
        match Dict.get shelf_id shs with
        | None => Dict.set shelf_id (Shelf (Some (x, y)) ∅) shs
        | Some _ => Dict.alter (put_pos (x, y)) shelf_id shs
        end)) e
  | FProduct product_id shelf_id qty =>
      ParseEnv (add_product product_id (pe_state e)) (pe_max_x e) (pe_max_y e)
               (record_count shelf_id product_id qty (shelf_quantities_temp e))
               (order_reqs_temp e) (order_station_temp e) (pe_warnings e)
  | FOrderStation order_id station_id =>
      ParseEnv (pe_state e) (pe_max_x e) (pe_max_y e) (shelf_quantities_temp e)
               (order_reqs_temp e) (<[ order_id := station_id ]> (order_station_temp e)) (pe_warnings e)
  | FOrderLine order_id product_id qty =>
      ParseEnv (add_product product_id (pe_state e)) (pe_max_x e) (pe_max_y e)
               (shelf_quantities_temp e)
               (record_count order_id product_id qty (order_reqs_temp e))
               (order_station_temp e) (pe_warnings e)
  | FUnmatched line =>
      ParseEnv (pe_state e) (pe_max_x e) (pe_max_y e) (shelf_quantities_temp e)
               (order_reqs_temp e) (order_station_temp e) (pe_warnings e ++ [PUnmatchedLine line])
  end.

(** [for shelf_id, quantities in shelf_quantities_temp.items()] *)
Definition link_shelf (acc : list (string * shelf) * list parse_warning) (item : string * gmap string Z)
  : list (string * shelf) * list parse_warning :=
  let '(shelf_id, quantities) := item in
  match Dict.get shelf_id acc.1 with
  | Some _ => (Dict.alter (λ sh, Shelf (s_pos sh) quantities) shelf_id acc.1, acc.2)
  | None => (acc.1, acc.2 ++ [POrphanQuantity shelf_id])
  end.

(** [for order_id, reqs in order_reqs_temp.items()] *)
Definition link_order (stations : gmap string string)
    (acc : list (string * order) * list parse_warning) (item : string * gmap string Z)
  : list (string * order) * list parse_warning :=
  let '(order_id, reqs) := item in
  match stations !! order_id with
  | Some station_id => (Dict.set order_id (Order station_id reqs) acc.1, acc.2)
  | None => (acc.1, acc.2 ++ [POrphanOrderLine order_id])
  end.

(** [for product_id in state['products']: counts.setdefault(product_id, 0)] *)
Definition setdefault_zero (product_id : string) (counts : gmap string Z) : gmap string Z :=
  match counts !! product_id with
  | Some _ => counts
  | None => <[ product_id := 0 ]> counts
  end.

Definition fill_counts (prods : gset string) (counts : gmap string Z) : gmap string Z :=
  set_fold setdefault_zero counts prods.

(** The statements after the reading loop. *)
Definition finish_parse (e : parse_env) : State * (Z * Z) * list parse_warning :=
  let st := pe_state e in
  let '(shs, w1) := fold_left link_shelf (shelf_quantities_temp e) (shelves st, pe_warnings e) in
  let '(ods, w2) := fold_left (link_order (order_station_temp e)) (order_reqs_temp e) (orders st, w1) in
  let shs' := (λ kv : string * shelf, (kv.1, Shelf (s_pos kv.2) (fill_counts (products st) (s_quantities kv.2)))) <$> shs in
  let ods' := (λ kv : string * order, (kv.1, Order (o_station_id kv.2) (fill_counts (products st) (o_requirements kv.2)))) <$> ods in
  (MkState (nodes st) (highways st) (picking_stations st) (robots st) shs' (products st) ods',
   (pe_max_x e, pe_max_y e), w2).

(** [parse_init]: [None] for the input stands for a file that cannot be
    opened, [None] for the result for [return None, None]. *)
Definition parse_init_log (file : option (list fact)) : option (State * (Z * Z) * list parse_warning) :=
  match file with
  | None => None
  | Some facts => Some (finish_parse (fold_left read_fact facts parse_start))
  end.

Definition parse_init (file : option (list fact)) : option (State * (Z * Z)) :=
  fst <$> parse_init_log file.

(** ** The plan parser *)

#[local] Unset Elimination Schemes.
(** What [json.loads] returns.  Of a number [parse_plan] only ever takes
    the truth value, so a float is kept as whether it is nonzero. *)
Inductive json :=
| JNull
| JBool (b : bool)
| JInt (n : Z)
| JFloat (nonzero : bool)
| JStr (s : string)
| JArr (items : list json)
| JObj (fields : list (string * json)).
#[local] Set Elimination Schemes.

(** The plan file: absent ([FileNotFoundError]), not decodable
    ([json.JSONDecodeError]), or decoded. *)
Inductive plan_file :=
| NoPlanFile
| NotJson
| PlanJson (data : json).

(** Python truth value. *)
Definition json_truthy (j : json) : bool :=
  match j with
  | JNull => false
  | JBool b => b
  | JInt n => negb (bool_decide (n = 0))
  | JFloat nonzero => nonzero
  | JStr s => negb (bool_decide (s = EmptyString))
  | JArr items => negb (bool_decide (items = []))
  | JObj fields => negb (bool_decide (fields.*1 = []))
  end.

(** [x.get(key)]: an [AttributeError] ([None] here) unless [x] is a
    dictionary; a missing key gives Python's [None]. *)
Definition json_get (key : string) (x : json) : option json :=
  match x with
  | JObj fields => Some (default JNull (Dict.get key fields))
  | _ => None
  end.

(** [x[0]] for a true [x]: the first item of a list, the first character
    of a string; a [KeyError] or [TypeError] ([None] here) otherwise. *)
Definition json_first (x : json) : option json :=
  match x with
  | JArr (item :: _) => Some item
  | JStr (String c _) => Some (JStr (String c EmptyString))
  | _ => None
  end.

(** [for atom_str in x]: the items of a list, the characters of a string,
    the keys of a dictionary; a [TypeError] otherwise. *)
Fixpoint chars (s : string) : list json :=
  match s with
  | EmptyString => []
  | String c s' => JStr (String c EmptyString) :: chars s'
  end.

Definition json_iter (x : json) : option (list json) :=
  match x with
  | JArr items => Some items
  | JStr s => Some (chars s)
  | JObj fields => Some (JStr <$> fields.*1)
  | _ => None
  end.

Inductive plan_warning :=
| PNoPlanFound.

(** The result of a run: [exit(1)], or the states shown. *)
Inductive run_result :=
| Exit1
| Completed (frames : list State).

Section plan.
(** The two regular-expression matchers are left open: [match_occurs]
    is [re.match] with the [occurs(object(robot, R), A, T)] pattern,
    giving the groups (with [int] applied to the time), and
    [parse_action_string] is the function of that name. *)
Variable match_occurs : string → option (string * string * Z).
Variable parse_action_string : string → action.

Definition is_unknown (a : action) : bool :=
  match a with Unknown _ => true | _ => false end.

(** The body of [for atom_str in plan_atoms]; [re.match] raises a
    [TypeError] on anything that is not a string. *)
Fixpoint read_atoms (plan_atoms : list json) (plan : gmap Z (list action_info)) (max_time : Z)
  : option (gmap Z (list action_info) * Z) :=
  match plan_atoms with
  | [] => Some (plan, max_time)
  | JStr atom_str :: rest =>
      match match_occurs atom_str with
      | Some (robot_id, action_part, time) =>
          let action_details := parse_action_string action_part in
          read_atoms rest
            (if is_unknown action_details then plan
             else <[ time := actions_at plan time ++ [(robot_id, action_details)] ]> plan)
            (Z.max max_time time)
      | None => read_atoms rest plan max_time
      end
  | _ :: _ => None
  end.

(** [parse_plan] on decoded data.  [None] stands for the generic
    [except Exception] handler, [return None, 0]. *)
Definition parse_plan_data (data : json) : option (gmap Z (list action_info) * Z * list plan_warning) :=
  call ← json_get "Call" data;
  if negb (json_truthy call) then Some (∅, 0, [PNoPlanFound])
  else
    first_call ← json_first call;
    witnesses ← json_get "Witnesses" first_call;
    if negb (json_truthy witnesses) then Some (∅, 0, [PNoPlanFound])
    else
      witness ← json_first witnesses;
      plan_atoms ← match witness with
                   | JObj fields => Some (default (JArr []) (Dict.get "Value" fields))
                   | _ => None
                   end;
      atoms ← json_iter plan_atoms;
      res ← read_atoms atoms ∅ 0;
      Some (res, []).

Definition parse_plan_log (file : plan_file) : option (gmap Z (list action_info) * Z * list plan_warning) :=
  match file with
  | NoPlanFile => None
  | NotJson => None
  | PlanJson data => parse_plan_data data
  end.

(** [parse_plan]: [None] is [return None, 0]. *)
Definition parse_plan (file : plan_file) : option (gmap Z (list action_info) * Z) :=
  fst <$> parse_plan_log file.

(** ** The program *)

(** The states shown by the visualization loop from timestep [t] on. *)
Fixpoint frames_from (plan : gmap Z (list action_info)) (t : Z) (n : nat) (current_state : State)
  : list State :=
  match n with
  | O => []
  | S n' =>
      let next := update_state current_state (actions_at plan t) in
      next :: frames_from plan (t + 1) n' next
  end.

(** The [__main__] block, without the rendering. *)
Definition main (init_file : option (list fact)) (plan_path : plan_file) : run_result :=
  match parse_init init_file with
  | None => Exit1
  | Some (initial_state, grid_dims) =>
      match parse_plan plan_path with
      | None => Exit1
      | Some (plan, max_time) =>
          Completed (initial_state :: frames_from plan 1 (Z.to_nat max_time) initial_state)
      end
  end.

End plan.

(** ** [update_state] on a store of mutable objects *)

Module Heap.

Definition loc : Type := positive.

(** The mutable objects of a state: every dictionary and every set is an
    object of its own, reached through references.  Tuples, strings,
    integers and [None] are immutable and stored in place. *)
Inductive obj :=
| OState (nodes highways picking_stations robots shelves products orders : loc)
| OCoords (cells : gset coord)
| ONames (names : gset string)
| OStations (stations : gmap string coord)
| OIndex (entries : list (string * loc))
| ORobot (pos : coord) (carries : option string)
| OShelf (pos : option coord) (quantities : loc)
| OCounts (counts : gmap string Z)
| OOrder (station_id : string) (requirements : loc).

Abbreviation heap := (gmap loc obj).

(** A new object, at a location not in use. *)
Definition alloc (o : obj) (h : heap) : loc * heap :=
  let l := fresh (dom h) in (l, <[ l := o ]> h).

(** *** [copy.deepcopy] *)

(** The memo dictionary of [copy.deepcopy]: the objects already copied,
    each with its copy. *)
Abbreviation memo := (gmap loc loc).

Fixpoint copy_entries (copy : loc → memo → heap → option (loc * memo * heap))
    (entries : list (string * loc)) (m : memo) (h : heap)
  : option (list (string * loc) * memo * heap) :=
  match entries with
  | [] => Some ([], m, h)
  | (k, l) :: rest =>
      '(l', m1, h1) ← copy l m h;
      '(rest', m2, h2) ← copy_entries copy rest m1 h1;
      Some ((k, l') :: rest', m2, h2)
  end.

(** [memo[id(x)] = y] for a new object [y]. *)
Definition remember (l : loc) (m : memo) (new : loc * heap) : loc * memo * heap :=
  (new.1, <[ l := new.1 ]> m, new.2).

(** [copy.deepcopy(x, memo)]: an object met before is answered from the
    memo; otherwise every object reachable from [l] is copied into a new
    object, children first.  ([copy.deepcopy] records a new dictionary in
    the memo before it fills it, which matters only for an object that
    reaches itself; here the types rule that out, so a cycle runs out of
    [depth], as it would run into the interpreter's recursion limit
    without the memo.) *)
Fixpoint deepcopy (depth : nat) (l : loc) (m : memo) (h : heap) : option (loc * memo * heap) :=
  match depth with
  | O => None
  | S depth' =>
      match m !! l with
      | Some l' => Some (l', m, h)
      | None =>
          o ← h !! l;
          match o with
          | OState a b c d e f g =>
              '(a', m1, h1) ← deepcopy depth' a m h;
              '(b', m2, h2) ← deepcopy depth' b m1 h1;
              '(c', m3, h3) ← deepcopy depth' c m2 h2;
              '(d', m4, h4) ← deepcopy depth' d m3 h3;
              '(e', m5, h5) ← deepcopy depth' e m4 h4;
              '(f', m6, h6) ← deepcopy depth' f m5 h5;
              '(g', m7, h7) ← deepcopy depth' g m6 h6;
              Some (remember l m7 (alloc (OState a' b' c' d' e' f' g') h7))
          | OIndex entries =>
              '(entries', m1, h1) ← copy_entries (deepcopy depth') entries m h;
              Some (remember l m1 (alloc (OIndex entries') h1))
          | OShelf pos q =>
              '(q', m1, h1) ← deepcopy depth' q m h;
              Some (remember l m1 (alloc (OShelf pos q') h1))
          | OOrder sid q =>
              '(q', m1, h1) ← deepcopy depth' q m h;
              Some (remember l m1 (alloc (OOrder sid q') h1))
          | OCoords _ | ONames _ | OStations _ | ORobot _ _ | OCounts _ =>
              Some (remember l m (alloc o h))
          end
      end
  end.

Definition recursion_limit : nat := 1000.

(** *** Typed reads: a [KeyError] or [TypeError] is [None] *)

Definition the_state (h : heap) (l : loc) : option (loc * loc * loc * loc * loc * loc * loc) :=
  match h !! l with
  | Some (OState a b c d e f g) => Some (a, b, c, d, e, f, g)
  | _ => None
  end.
Definition the_coords (h : heap) (l : loc) : option (gset coord) :=
  match h !! l with Some (OCoords s) => Some s | _ => None end.
Definition the_stations (h : heap) (l : loc) : option (gmap string coord) :=
  match h !! l with Some (OStations m) => Some m | _ => None end.
Definition the_index (h : heap) (l : loc) : option (list (string * loc)) :=
  match h !! l with Some (OIndex d) => Some d | _ => None end.
Definition the_robot (h : heap) (l : loc) : option (coord * option string) :=
  match h !! l with Some (ORobot p c) => Some (p, c) | _ => None end.
Definition the_shelf (h : heap) (l : loc) : option (option coord * loc) :=
  match h !! l with Some (OShelf p q) => Some (p, q) | _ => None end.
Definition the_counts (h : heap) (l : loc) : option (gmap string Z) :=
  match h !! l with Some (OCounts m) => Some m | _ => None end.
Definition the_order (h : heap) (l : loc) : option (string * loc) :=
  match h !! l with Some (OOrder s q) => Some (s, q) | _ => None end.

(** *** Writes through a reference *)

(** [robot['pos'] = p] *)
Definition write_pos (l : loc) (p : coord) (h : heap) : option heap :=
  '(_, c) ← the_robot h l; Some (<[ l := ORobot p c ]> h).
(** [robot['carries'] = c] *)
Definition write_carries (l : loc) (c : option string) (h : heap) : option heap :=
  '(p, _) ← the_robot h l; Some (<[ l := ORobot p c ]> h).
(** [shelf.pop('pos', None)] and [shelf['pos'] = p] *)
Definition write_shelf_pos (l : loc) (p : option coord) (h : heap) : option heap :=
  '(_, q) ← the_shelf h l; Some (<[ l := OShelf p q ]> h).
(** [counts[key] = f(counts[key])] *)
Definition write_count (l : loc) (key : string) (f : Z → Z) (h : heap) : option heap :=
  m ← the_counts h l; Some (<[ l := OCounts (alter f key m) ]> h).

(** The scan of lines 227-230 over [current_state['shelves'].items()]. *)
Fixpoint find_shelf (h : heap) (items : list (string * loc)) (p : coord) : option (option string) :=
  match items with
  | [] => Some None
  | (sid, l) :: rest =>
      '(pos, _) ← the_shelf h l;
      if bool_decide (pos = Some p) then Some (Some sid) else find_shelf h rest p
  end.

(** The scan of lines 249-253 over [next_state['shelves'].items()]. *)
Fixpoint find_other_shelf (h : heap) (items : list (string * loc)) (p : coord) (carried : string)
  : option (option string) :=
  match items with
  | [] => Some None
  | (sid, l) :: rest =>
      '(pos, _) ← the_shelf h l;
      if bool_decide (pos = Some p) && negb (bool_decide (sid = carried))
      then Some (Some sid) else find_other_shelf h rest p carried
  end.

(** *** The loop body, on references [cur] and [next] *)

Definition apply_action_ref (cur next : loc) (ai : action_info) (h : heap) : option heap :=
  let '(robot_id, act) := ai in
  '(_, _, _, c_robots, c_shelves, _, _) ← the_state h cur;
  c_index ← the_index h c_robots;
  match Dict.get robot_id c_index with
  | None => Some h
  | Some robot_curr_state =>
    '(current_pos, current_carrying) ← the_robot h robot_curr_state;
    '(_, n_highways, n_stations, n_robots, n_shelves, _, n_orders) ← the_state h next;
    n_index ← the_index h n_robots;
    robot_next_state ← Dict.get robot_id n_index;
    match act with
    | Move dx dy =>
        write_pos robot_next_state (current_pos.1 + dx, current_pos.2 + dy) h
    | Pickup =>
        if truthy current_carrying then Some h
        else
          items ← the_index h c_shelves;
          shelf_to_pickup ← find_shelf h items current_pos;
          match shelf_to_pickup with
          | Some sid =>
              if truthy shelf_to_pickup then
                h1 ← write_carries robot_next_state (Some sid) h;
                s_index ← the_index h1 n_shelves;
                match Dict.get sid s_index with
                | Some sl => write_shelf_pos sl None h1
                | None => Some h1
                end
              else Some h
          | None => Some h
          end
    | Putdown =>
        match current_carrying with
        | Some carried =>
            if negb (truthy current_carrying) then Some h
            else
              hw ← the_coords h n_highways;
              if bool_decide (current_pos ∈ hw) then Some h
              else
                items ← the_index h n_shelves;
                occupied ← find_other_shelf h items current_pos carried;
                match occupied with
                | Some _ => Some h
                | None =>
                    h1 ← write_carries robot_next_state None h;
                    s_index ← the_index h1 n_shelves;
                    match Dict.get carried s_index with
                    | Some sl => write_shelf_pos sl (Some current_pos) h1
                    | None => Some h1
                    end
                end
        | None => Some h
        end
    | Deliver order_id product_id units =>
        match current_carrying with
        | Some shelf_id_carried =>
            if negb (truthy current_carrying) then Some h
            else
              s_index ← the_index h n_shelves;
              match Dict.get shelf_id_carried s_index with
              | None => Some h
              | Some sl =>
                o_index ← the_index h n_orders;
                match Dict.get order_id o_index with
                | None => Some h
                | Some ol =>
                  '(_, ql) ← the_shelf h sl;
                  quantities ← the_counts h ql;
                  match quantities !! product_id with
                  | None => Some h
                  | Some current_shelf_qty =>
                    '(required_station_id, rl) ← the_order h ol;
                    stations ← the_stations h n_stations;
                    let required_station_pos :=
                      if truthy (Some required_station_id)
                      then stations !! required_station_id else None in
                    if negb (bool_decide (Some current_pos = required_station_pos)) then Some h
                    else if decide (current_shelf_qty < units) then Some h
                    else
                      h1 ← write_count ql product_id (λ q, q - units) h;
                      requirements ← the_counts h1 rl;
                      match requirements !! product_id with
                      | Some _ =>
                          write_count rl product_id
                            (λ q, if decide (q - units < 0) then 0 else q - units) h1
                      | None => Some h1
                      end
                  end
                end
              end
        | None => Some h
        end
    | Unknown _ => Some h
    end
  end.

Fixpoint run_actions_ref (cur next : loc) (acts : list action_info) (h : heap) : option heap :=
  match acts with
  | [] => Some h
  | ai :: acts' => h1 ← apply_action_ref cur next ai h; run_actions_ref cur next acts' h1
  end.

(** [update_state]: the reference returned and the store afterwards. *)
Definition update_state_ref (current_state : loc) (actions_at_this_step : list action_info) (h : heap)
  : option (loc * heap) :=
  '(next_state, _, h1) ← deepcopy recursion_limit current_state ∅ h;
  h2 ← run_actions_ref current_state next_state actions_at_this_step h1;
  Some (next_state, h2).

(** *** States held in the store *)

(** Where the objects of one state live: the seven fields, then for each
    robot its dictionary, for each shelf its dictionary and that of its
    quantities, for each order its dictionary and that of its
    requirements. *)
Record skeleton := Skeleton {
  k_nodes : loc;
  k_highways : loc;
  k_stations : loc;
  k_robots : loc;
  k_shelves : loc;
  k_products : loc;
  k_orders : loc;
  k_robot : list (string * loc);
  k_shelf : list (string * (loc * loc));
  k_order : list (string * (loc * loc));
}.

(** The entries of an index whose values have a dictionary of counts. *)
Definition entries_of (kk : list (string * (loc * loc))) : list (string * loc) :=
  (λ e, (e.1, e.2.1)) <$> kk.

(** The locations of a value with a dictionary of counts, inner one first. *)
Definition pair_locs (lq : loc * loc) : list loc := [lq.2; lq.1].

(** All the objects of a state, children before parents. *)
Definition skeleton_locs (root : loc) (k : skeleton) : list loc :=
  [k_nodes k] ++ [k_highways k] ++ [k_stations k]
  ++ ((k_robot k).*2 ++ [k_robots k])
  ++ (concat (pair_locs <$> (k_shelf k).*2) ++ [k_shelves k])
  ++ [k_products k]
  ++ (concat (pair_locs <$> (k_order k).*2) ++ [k_orders k])
  ++ [root].

(** No object is reached along two paths. *)
Definition separated (root : loc) (k : skeleton) : Prop := NoDup (skeleton_locs root k).

Definition robot_cell (h : heap) (l : loc) (r : robot) : Prop :=
  h !! l = Some (ORobot (r_pos r) (r_carries r)).

Definition shelf_cell (h : heap) (lq : loc * loc) (s : shelf) : Prop :=
  h !! lq.1 = Some (OShelf (s_pos s) lq.2) ∧ h !! lq.2 = Some (OCounts (s_quantities s)).

Definition order_cell (h : heap) (lq : loc * loc) (o : order) : Prop :=
  h !! lq.1 = Some (OOrder (o_station_id o) lq.2) ∧ h !! lq.2 = Some (OCounts (o_requirements o)).

(** An index and the dictionary it stands for: same keys in the same
    order, each reference leading to the value. *)
Definition indexed {L V : Type} (cell : L → V → Prop)
    (idx : list (string * L)) (d : list (string * V)) : Prop :=
  Forall2 (λ e v, e.1 = v.1 ∧ cell e.2 v.2) idx d.

(** The store [h] holds the state [st] at [root], laid out as [k]. *)
Definition repr (h : heap) (root : loc) (k : skeleton) (st : State) : Prop :=
  h !! root = Some (OState (k_nodes k) (k_highways k) (k_stations k) (k_robots k)
                           (k_shelves k) (k_products k) (k_orders k)) ∧
  h !! k_nodes k = Some (OCoords (nodes st)) ∧
  h !! k_highways k = Some (OCoords (highways st)) ∧
  h !! k_stations k = Some (OStations (picking_stations st)) ∧
  h !! k_products k = Some (ONames (products st)) ∧
  h !! k_robots k = Some (OIndex (k_robot k)) ∧
  h !! k_shelves k = Some (OIndex (entries_of (k_shelf k))) ∧
  h !! k_orders k = Some (OIndex (entries_of (k_order k))) ∧
  indexed (robot_cell h) (k_robot k) (robots st) ∧
  indexed (shelf_cell h) (k_shelf k) (shelves st) ∧
  indexed (order_cell h) (k_order k) (orders st).

(** The memo [m'] is [m] but for the objects [src]. *)
Definition untouched (m m' : memo) (src : list loc) : Prop :=
  ∀ x, x ∉ src → m' !! x = m !! x.

(** [h'] is [h] with the new objects [fp]. *)
Definition extends (h h' : heap) (fp : list loc) : Prop :=
  h ⊆ h' ∧ NoDup fp ∧ Forall (λ l, h !! l = None ∧ is_Some (h' !! l)) fp.

(** The state of the scenario below, laid out in a store. *)
Definition scenario_heap : heap :=
  list_to_map
    [ (1%positive, OCoords ∅); (2%positive, OCoords ∅);
      (3%positive, OStations {[ "st1" := (2, 2) ]});
      (4%positive, ORobot (1, 1) None);
      (5%positive, OIndex [("r1", 4%positive)]);
      (6%positive, OCounts {[ "p1" := 5 ]});
      (7%positive, OShelf (Some (1, 1)) 6%positive);
      (8%positive, OIndex [("s1", 7%positive)]);
      (9%positive, ONames {[ "p1" ]});
      (10%positive, OCounts {[ "p1" := 3 ]});
      (11%positive, OOrder "st1" 10%positive);
      (12%positive, OIndex [("o1", 11%positive)]);
      (13%positive, OState 1%positive 2%positive 3%positive 5%positive
                           8%positive 9%positive 12%positive) ].

Definition scenario_skeleton : skeleton :=
  Skeleton 1%positive 2%positive 3%positive 5%positive 8%positive 9%positive 12%positive
           [("r1", 4%positive)]
           [("s1", (7%positive, 6%positive))]
           [("o1", (11%positive, 10%positive))].

(** The objects that [copy.deepcopy] copies without descending. *)
Definition leaf (o : obj) : Prop :=
  match o with
  | OCoords _ | ONames _ | OStations _ | ORobot _ _ | OCounts _ => True
  | _ => False
  end.

End Heap.

(** ** Vocabulary of the properties *)

(** Keys of a Python dictionary are unique. *)
Definition keys_unique (st : State) : Prop :=
  NoDup (Dict.keys (robots st)) ∧ NoDup (Dict.keys (shelves st)) ∧ NoDup (Dict.keys (orders st)).

(** Identifiers are tokens matched by [\w+], hence never the empty string
    (the one string that Python takes for false). *)
Definition ids_nonempty (st : State) : Prop :=
  (∀ r rb, Dict.get r (robots st) = Some rb → r_carries rb ≠ Some EmptyString) ∧
  (∀ s sh, (s, sh) ∈ shelves st → s ≠ EmptyString) ∧
  (∀ o od, Dict.get o (orders st) = Some od → o_station_id od ≠ EmptyString).

Definition is_move_of (r : string) (ai : action_info) : Prop :=
  ai.1 = r ∧ ∃ dx dy, ai.2 = Move dx dy.

(** The warnings that go with a [continue] in the deliver branch. *)
Definition is_deliver_rejection (w : warning) : bool :=
  match w with
  | WDeliverNothing _ | WDeliverUnknownShelf _ | WDeliverUnknownOrder _
  | WDeliverUnknownProduct _ | WDeliverWrongStation _ | WDeliverShort _ => true
  | _ => false
  end.

Definition deliver_rejected (ws : list warning) : Prop :=
  ∃ w, w ∈ ws ∧ is_deliver_rejection w = true.

(** The six grounds for rejection as the specification lists them, for a
    robot [rb] of state [st]. *)
Definition deliver_blocked (st : State) (rb : robot) (order_id product_id : string) (units : Z) : Prop :=
  r_carries rb = None
  ∨ (∃ sid, r_carries rb = Some sid ∧ Dict.get sid (shelves st) = None)
  ∨ Dict.get order_id (orders st) = None
  ∨ (∃ sid sh, r_carries rb = Some sid ∧ Dict.get sid (shelves st) = Some sh ∧
               s_quantities sh !! product_id = None)
  ∨ (∃ od, Dict.get order_id (orders st) = Some od ∧
           picking_stations st !! o_station_id od ≠ Some (r_pos rb))
  ∨ (∃ sid sh q, r_carries rb = Some sid ∧ Dict.get sid (shelves st) = Some sh ∧
                 s_quantities sh !! product_id = Some q ∧ q < units).

(** What a successful delivery leaves behind, as the specification
    describes it: [units] fewer on the carried shelf, the requirement
    lowered by [units] but not below zero (an order that does not list the
    product keeps its requirements as they are), everything else as
    before. *)
Definition delivered (st st' : State) (rb : robot) (order_id product_id : string) (units : Z) : Prop :=
  ∃ sid sh od q,
    r_carries rb = Some sid ∧ Dict.get sid (shelves st) = Some sh ∧
    Dict.get order_id (orders st) = Some od ∧ s_quantities sh !! product_id = Some q ∧
    Dict.get sid (shelves st') = Some (Shelf (s_pos sh) (<[product_id := q - units]> (s_quantities sh))) ∧
    Dict.get order_id (orders st') =
      Some (Order (o_station_id od)
              (match o_requirements od !! product_id with
               | Some n => <[product_id := Z.max 0 (n - units)]> (o_requirements od)
               | None => o_requirements od
               end)) ∧
    (∀ s', s' ≠ sid → Dict.get s' (shelves st') = Dict.get s' (shelves st)) ∧
    (∀ o', o' ≠ order_id → Dict.get o' (orders st') = Dict.get o' (orders st)) ∧
    Dict.keys (shelves st') = Dict.keys (shelves st) ∧
    Dict.keys (orders st') = Dict.keys (orders st) ∧
    robots st' = robots st ∧ nodes st' = nodes st ∧ highways st' = highways st ∧
    picking_stations st' = picking_stations st ∧ products st' = products st.

(** [requirements.get(product_id, 0)] *)
Definition req_count (od : order) (product_id : string) : Z :=
  default 0 (o_requirements od !! product_id).

(** Units are written [\d+] in a plan: never negative. *)
Definition units_nonneg (ai : action_info) : Prop :=
  match ai.2 with
  | Deliver _ _ units => 0 ≤ units
  | _ => True
  end.

(** No two distinct robots carry the same shelf. *)
Definition carried_once (st : State) : Prop :=
  ∀ r1 r2 rb1 rb2 s,
    Dict.get r1 (robots st) = Some rb1 → Dict.get r2 (robots st) = Some rb2 →
    r_carries rb1 = Some s → r_carries rb2 = Some s → r1 = r2.

(** A shelf that some robot carries has no position of its own. *)
Definition carried_off_grid (st : State) : Prop :=
  ∀ r rb s sh,
    Dict.get r (robots st) = Some rb → r_carries rb = Some s →
    Dict.get s (shelves st) = Some sh → s_pos sh = None.

(** Robots that pick up in the same timestep stand on different cells. *)
Definition pickups_apart (st : State) (acts : list action_info) : Prop :=
  ∀ r1 r2 rb1 rb2,
    (r1, Pickup) ∈ acts → (r2, Pickup) ∈ acts → r1 ≠ r2 →
    Dict.get r1 (robots st) = Some rb1 → Dict.get r2 (robots st) = Some rb2 →
    r_pos rb1 ≠ r_pos rb2.

(** States reached by any sequence of [update_state] calls. *)
Inductive reachable (init : State) : State → Prop :=
| reach_init : reachable init init
| reach_step st acts : reachable init st → reachable init (update_state st acts).

(** States reached through timesteps whose pickups are apart. *)
Inductive reachable_apart (init : State) : State → Prop :=
| reach_apart_init : reachable_apart init init
| reach_apart_step st acts :
    reachable_apart init st → pickups_apart st acts →
    reachable_apart init (update_state st acts).

(** Where a robot's load in [next_state] comes from: it is the load at the
    start of the timestep, or the robot picked the shelf up from its own
    cell during this timestep. *)
Definition load_origin (cur next : State) (acts : list action_info) : Prop :=
  ∀ r rb s,
    Dict.get r (robots next) = Some rb → r_carries rb = Some s →
    (∃ rbc, Dict.get r (robots cur) = Some rbc ∧ r_carries rbc = Some s)
    ∨ ((r, Pickup) ∈ acts ∧
       ∃ rbc sh, Dict.get r (robots cur) = Some rbc ∧
                 Dict.get s (shelves cur) = Some sh ∧ s_pos sh = Some (r_pos rbc)).

(** Two robots on the cell of one shelf, nobody carrying anything. *)
Definition twin_state : State :=
  MkState {[ (1, 1) ]} ∅ ∅
          [("r1", Robot (1, 1) None); ("r2", Robot (1, 1) None)]
          [("s1", Shelf (Some (1, 1)) ∅)]
          ∅ [].

(** The global product universe: the products named by a
    product-quantity fact or by an order-line fact. *)
Definition fact_products (f : fact) : gset string :=
  match f with
  | FProduct product_id _ _ => {[ product_id ]}
  | FOrderLine _ product_id _ => {[ product_id ]}
  | _ => ∅
  end.

Definition mentioned_products (facts : list fact) : gset string :=
  ⋃ (fact_products <$> facts).

(** A decoded document without the expected top-level fields: no
    ["Call"] entry, or a first call without a ["Witnesses"] entry. *)
Definition missing_fields (data : json) : Prop :=
  ∃ fields, data = JObj fields ∧
    (Dict.get "Call" fields = None
     ∨ ∃ call rest, Dict.get "Call" fields = Some (JArr (JObj call :: rest)) ∧
                    Dict.get "Witnesses" call = None).

(** [not x.get(key)] for a dictionary [x]: the key is absent, or its value
    is false ([None], an empty list, string or dictionary, zero). *)
Definition lacks (key : string) (fields : list (string * json)) : Prop :=
  json_truthy (default JNull (Dict.get key fields)) = false.

(** The decoded documents on which [parse_plan] takes its warning branch
    (lines 165-167): a dictionary that lacks ["Call"], or whose ["Call"]
    is a list that starts with a dictionary that lacks ["Witnesses"]. *)
Definition no_plan_found (data : json) : Prop :=
  ∃ fields, data = JObj fields ∧
    (lacks "Call" fields
     ∨ ∃ call rest, Dict.get "Call" fields = Some (JArr (JObj call :: rest)) ∧
                    lacks "Witnesses" call).

(** The decoded documents on which the lookups of line 165 raise: anything
    but a dictionary ([.get] is an [AttributeError]), and a dictionary
    whose ["Call"] is true without being a list that starts with a
    dictionary. *)
Definition not_a_plan_document (data : json) : Prop :=
  match data with
  | JObj fields =>
      ¬ lacks "Call" fields ∧
      match Dict.get "Call" fields with
      | Some (JArr (JObj _ :: _)) => False
      | _ => True
      end
  | _ => True
  end.

(** The decoded documents with the expected fields: the first call is a
    dictionary with a true ["Witnesses"] entry. *)
Definition has_witnesses (data : json) : Prop :=
  ∃ fields call rest, data = JObj fields ∧
    Dict.get "Call" fields = Some (JArr (JObj call :: rest)) ∧ ¬ lacks "Witnesses" call.

(** The identifiers that end up as shelf keys and as station bindings are
    tokens matched by [\w+]. *)
Definition fact_ids_nonempty (f : fact) : Prop :=
  match f with
  | FShelf shelf_id _ _ => shelf_id ≠ EmptyString
  | FOrderStation _ station_id => station_id ≠ EmptyString
  | _ => True
  end.

(** What holds of the local variables of [parse_init] while it reads. *)
Definition reading (e : parse_env) : Prop :=
  NoDup (Dict.keys (robots (pe_state e))) ∧
  NoDup (Dict.keys (shelves (pe_state e))) ∧
  orders (pe_state e) = [] ∧
  (∀ r rb, (r, rb) ∈ robots (pe_state e) → r_carries rb = None).

Definition reading_ids (e : parse_env) : Prop :=
  (∀ s sh, (s, sh) ∈ shelves (pe_state e) → s ≠ EmptyString) ∧
  (∀ o sid, order_station_temp e !! o = Some sid → sid ≠ EmptyString).

(** ** Example states *)

Definition scenario_state (nd hw : gset coord) : State :=
  MkState nd hw {[ "st1" := (2, 2) ]}
          [("r1", Robot (1, 1) None)]
          [("s1", Shelf (Some (1, 1)) {[ "p1" := 5 ]})]
          {[ "p1" ]}
          [("o1", Order "st1" {[ "p1" := 3 ]})].

Definition scenario_plan : gmap Z (list action_info) :=
  <[ 1 := [("r1", Pickup)] ]> (<[ 2 := [("r1", Move 1 1)] ]> (<[ 3 := [("r1", Deliver "o1" "p1" 3)] ]> ∅)).

(** The end state the scenario is expected to reach. *)
Definition scenario_expected (st : State) : Prop :=
  Dict.get "r1" (robots st) = Some (Robot (2, 2) None) ∧
  (∃ sh, Dict.get "s1" (shelves st) = Some sh ∧ s_pos sh = Some (2, 2) ∧
         s_quantities sh !! "p1" = Some 2) ∧
  (∃ od, Dict.get "o1" (orders st) = Some od ∧ o_requirements od !! "p1" = Some 0).

(** A state in which a shelf stands on a highway cell under a robot. *)
Definition highway_state : State :=
  MkState {[ (1, 1) ]} {[ (1, 1) ]} ∅
          [("r1", Robot (1, 1) None)]
          [("s1", Shelf (Some (1, 1)) ∅)]
          ∅ [].

(** The init file of the scenario, line by line. *)
Definition scenario_facts : list fact :=
  [ FRobot "r1" 1 1;
    FShelf "s1" 1 1;
    FProduct "p1" "s1" 5;
    FStation "st1" 2 2;
    FOrderStation "o1" "st1";
    FOrderLine "o1" "p1" 3 ].

(** The scenario after its Pickup and its Move. *)
Definition loaded_state : State :=
  MkState ∅ ∅ {[ "st1" := (2, 2) ]}
          [("r1", Robot (2, 2) (Some "s1"))]
          [("s1", Shelf None {[ "p1" := 5 ]})]
          {[ "p1" ]}
          [("o1", Order "st1" {[ "p1" := 3 ]})].

(** The init file of [twin_state]. *)
Definition twin_facts : list fact :=
  [ FNode "n1" 1 1;
    FRobot "r1" 1 1;
    FRobot "r2" 1 1;
    FShelf "s1" 1 1 ].

(** A state in which a carried shelf still has a position, with a second
    robot on that cell. *)
Definition shared_state : State :=
  MkState {[ (1, 1) ]} ∅ ∅
          [("r1", Robot (1, 1) (Some "s1")); ("r2", Robot (1, 1) None)]
          [("s1", Shelf (Some (1, 1)) ∅)]
          ∅ [].

(** A matcher that matches no atom: enough for a document without atoms. *)
Definition no_occurs : string → option (string * string * Z) := λ _, None.

(** ** Vocabulary of the policies of [update_state] *)

(** [quantities.get(product_id, 0)] *)
Definition stock_count (sh : shelf) (product_id : string) : Z :=
  default 0 (s_quantities sh !! product_id).

(** The warnings that go with a [continue] in the putdown branch. *)
Definition is_putdown_rejection (w : warning) : bool :=
  match w with
  | WPutdownNothing _ | WPutdownHighway _ | WPutdownOccupied _ _ => true
  | _ => false
  end.

(** The three grounds on which a Putdown is refused, for a robot [rb] of
    state [st]: nothing carried, a highway cell, a cell that holds another
    shelf. *)
Definition putdown_blocked (st : State) (rb : robot) : Prop :=
  r_carries rb = None
  ∨ r_pos rb ∈ highways st
  ∨ ∃ carried other sh, r_carries rb = Some carried ∧ (other, sh) ∈ shelves st ∧
                        s_pos sh = Some (r_pos rb) ∧ other ≠ carried.

(** The robot of an action is a key of [current_state['robots']]. *)
Definition robot_known (st : State) (ai : action_info) : Prop :=
  is_Some (Dict.get ai.1 (robots st)).

(** ** Vocabulary of the plan parser *)

Section plan_vocabulary.
Variable match_occurs : string → option (string * string * Z).
Variable parse_action_string : string → action.

(** What an atom of the document contributes to timestep [t]: the action
    of an [occurs] atom for that time, unless the action is unknown. *)
Definition atom_action (t : Z) (atom : json) : option action_info :=
  match atom with
  | JStr atom_str =>
      match match_occurs atom_str with
      | Some (robot_id, action_part, time) =>
          if decide (time = t) then
            let action_details := parse_action_string action_part in
            if is_unknown action_details then None else Some (robot_id, action_details)
          else None
      | None => None
      end
  | _ => None
  end.

(** The time of an [occurs] atom, whatever its action. *)
Definition atom_time (atom : json) : option Z :=
  match atom with
  | JStr atom_str => (λ m : string * string * Z, m.2) <$> match_occurs atom_str
  | _ => None
  end.

End plan_vocabulary.

(** What holds of [plan] and [max_time] while [parse_plan] reads. *)
Definition plan_ok (plan : gmap Z (list action_info)) (max_time : Z) : Prop :=
  0 ≤ max_time ∧
  ∀ t acts, plan !! t = Some acts →
    t ≤ max_time ∧ acts ≠ [] ∧ Forall (λ ai : action_info, is_unknown ai.2 = false) acts.

Definition is_string (j : json) : Prop :=
  match j with JStr _ => True | _ => False end.

(** A decoded document of the expected shape: the first witness of the
    first call has the list [atoms] as its ["Value"]. *)
Definition document_atoms (data : json) (atoms : list json) : Prop :=
  ∃ fields call calls witness witnesses,
    data = JObj fields ∧
    Dict.get "Call" fields = Some (JArr (JObj call :: calls)) ∧
    Dict.get "Witnesses" call = Some (JArr (JObj witness :: witnesses)) ∧
    Dict.get "Value" witness = Some (JArr atoms).

(** The document of the scenario, with a second witness and a second call
    that are not read. *)
Definition scenario_document (atoms : list json) : json :=
  JObj [("Solver", JStr "clingo");
        ("Call", JArr [JObj [("Witnesses", JArr [JObj [("Value", JArr atoms)]; JObj [("Value", JArr [])]])];
                       JObj []])].

(** ** Text: [str.strip], [int], and the regular expressions of the parsers *)

(** Text is ASCII: a character is classified by its code, as [re] and
    [str] classify the characters below 128.  Text with other characters
    is outside the model: among them Python has further word characters,
    digits and spaces. *)
Definition chars_of (s : string) : list ascii := String.list_ascii_of_string s.
Definition text_of (s : list ascii) : string := String.string_of_list_ascii s.

Module Re.

(** [c.isspace()], which is also [\s]: tab to carriage return, the four
    separators 28 to 31, and the space. *)
Definition is_space (c : ascii) : bool :=
  let n := N_of_ascii c in
  ((9 <=? n) && (n <=? 13) || (28 <=? n) && (n <=? 32))%N.

(** [\d] *)
Definition is_digit (c : ascii) : bool :=
  let n := N_of_ascii c in ((48 <=? n) && (n <=? 57))%N.

(** [\w]: letters, digits and the underscore. *)
Definition is_word (c : ascii) : bool :=
  let n := N_of_ascii c in
  (is_digit c || (65 <=? n) && (n <=? 90) || (97 <=? n) && (n <=? 122) || (n =? 95))%N.

(** [.]: any character but the newline. *)
Definition is_dot (c : ascii) : bool :=
  negb (N_of_ascii c =? 10)%N.

Inductive cls := Space | Word | Digit | Dot.

Definition in_cls (k : cls) : ascii → bool :=
  match k with
  | Space => is_space
  | Word => is_word
  | Digit => is_digit
  | Dot => is_dot
  end.

(** The items of a pattern, in the order in which they are written:
    literal text, [k*] and [k+] for a class [k], [c?] for a character,
    and the two parentheses of a capturing group. *)
Inductive item :=
| Lit (text : string)
| Star (k : cls)
| Plus (k : cls)
| Opt (c : ascii)
| Open
| Close.

(** The length of the longest run of [k] at the start of [s]. *)
Fixpoint span (k : cls) (s : list ascii) : nat :=
  match s with
  | c :: s' => if in_cls k c then S (span k s') else O
  | [] => O
  end.

(** Backtracking over a greedy repetition: the first of [n], [n - 1],
    ..., [least] for which the rest of the pattern matches. *)
Fixpoint first_down {A} (rest : nat → option A) (least n : nat) : option A :=
  if decide (n < least)%nat then None
  else match rest n with
       | Some r => Some r
       | None => match n with
                 | O => None
                 | S n' => first_down rest least n'
                 end
       end.

(** The matcher: [s] is what is left of the text, [cur] the text matched
    since the last parenthesis, [groups] the groups closed so far. *)
Fixpoint run (p : list item) (s cur : list ascii) (groups : list (list ascii))
  : option (list (list ascii)) :=
  match p with
  | [] => Some groups
  | Lit text :: p' =>
      let t := chars_of text in
      if decide (take (length t) s = t) then run p' (drop (length t) s) (cur ++ t) groups
      else None
  | Star k :: p' =>
      first_down (λ n, run p' (drop n s) (cur ++ take n s) groups) 0 (span k s)
  | Plus k :: p' =>
      first_down (λ n, run p' (drop n s) (cur ++ take n s) groups) 1 (span k s)
  | Opt c :: p' =>
      match s with
      | c' :: s' =>
          if decide (c' = c) then
            match run p' s' (cur ++ [c]) groups with
            | Some r => Some r
            | None => run p' s cur groups
            end
          else run p' s cur groups
      | [] => run p' s cur groups
      end
  | Open :: p' => run p' s [] groups
  | Close :: p' => run p' s [] (groups ++ [cur])
  end.

(** [re.match(p, s)]: the groups of the match, which starts at the first
    character and may end anywhere. *)
Definition re_match (p : list item) (s : list ascii) : option (list (list ascii)) :=
  run p s [] [].

(** [s.lstrip()] and [s.strip()] *)
Fixpoint lstrip (s : list ascii) : list ascii :=
  match s with
  | c :: s' => if is_space c then lstrip s' else s
  | [] => []
  end.

Definition strip (s : list ascii) : list ascii :=
  rev (lstrip (rev (lstrip s))).

(** [int(s)] for a run of digits, with or without a minus sign in front:
    the only arguments the program passes.  The value has no bound, as
    in the language.  The limit that an interpreter may put on the number
    of digits that [int] converts (4300 by default in CPython from 3.11
    on) is not modelled: past it [int] raises a [ValueError], on which
    [parse_plan] and [parse_init] return [None].  What is proved of a
    successful read holds of the program for numbers below that limit. *)
Definition digit_value (c : ascii) : Z := Z.of_N (N_of_ascii c) - 48.

Definition int_of_digits (ds : list ascii) : Z :=
  fold_left (λ acc c, 10 * acc + digit_value c) ds 0.

Definition int (s : list ascii) : Z :=
  match s with
  | "-"%char :: ds => - int_of_digits ds
  | _ => int_of_digits s
  end.

End Re.

(** *** [parse_action_string] *)

(** [move\((-?\d+),(-?\d+)\)] *)
Definition move_re : list Re.item :=
  [Re.Lit "move("; Re.Open; Re.Opt "-"; Re.Plus Re.Digit; Re.Close; Re.Lit ",";
   Re.Open; Re.Opt "-"; Re.Plus Re.Digit; Re.Close; Re.Lit ")"].

(** [deliver\((\w+),(\w+),(\d+)\)] *)
Definition deliver_re : list Re.item :=
  [Re.Lit "deliver("; Re.Open; Re.Plus Re.Word; Re.Close; Re.Lit ",";
   Re.Open; Re.Plus Re.Word; Re.Close; Re.Lit ",";
   Re.Open; Re.Plus Re.Digit; Re.Close; Re.Lit ")"].

Definition parse_action_string (action_str : string) : action :=
  let action_str := Re.strip (chars_of action_str) in
  let match_move := Re.re_match move_re action_str in
  let match_pickup := bool_decide (action_str = chars_of "pickup") in
  let match_putdown := bool_decide (action_str = chars_of "putdown") in
  let match_deliver := Re.re_match deliver_re action_str in
  match match_move with
  | Some [dx; dy] => Move (Re.int dx) (Re.int dy)
  | Some _ => Unknown (text_of action_str)
  | None =>
      if match_pickup then Pickup
      else if match_putdown then Putdown
      else
        match match_deliver with
        | Some [order_id; product_id; units] =>
            Deliver (text_of order_id) (text_of product_id) (Re.int units)
        | _ => Unknown (text_of action_str)
        end
  end.

(** *** The [occurs] atoms of [parse_plan] *)

(** [occurs\(object\(robot,\s*(\w+)\),\s*(.+)\s*,\s*(\d+)\)] *)
Definition occurs_re : list Re.item :=
  [Re.Lit "occurs(object(robot,"; Re.Star Re.Space; Re.Open; Re.Plus Re.Word; Re.Close;
   Re.Lit "),"; Re.Star Re.Space; Re.Open; Re.Plus Re.Dot; Re.Close;
   Re.Star Re.Space; Re.Lit ","; Re.Star Re.Space; Re.Open; Re.Plus Re.Digit; Re.Close;
   Re.Lit ")"].

(** [re.match] on an atom and [match.groups()], with [int(time_str)]. *)
Definition match_occurs (atom_str : string) : option (string * string * Z) :=
  match Re.re_match occurs_re (chars_of atom_str) with
  | Some [robot_id; action_part; time_str] =>
      Some (text_of robot_id, text_of action_part, Re.int time_str)
  | _ => None
  end.

(** *** The lines of the init file *)

(** [init\(object\(node,\s*(\w+)\),\s*value\(at,\s*pair\((\d+),(\d+)\)\)\)\.] *)
Definition node_re : list Re.item :=
  [Re.Lit "init(object(node,"; Re.Star Re.Space; Re.Open; Re.Plus Re.Word; Re.Close;
   Re.Lit "),"; Re.Star Re.Space; Re.Lit "value(at,"; Re.Star Re.Space; Re.Lit "pair(";
   Re.Open; Re.Plus Re.Digit; Re.Close; Re.Lit ",";
   Re.Open; Re.Plus Re.Digit; Re.Close; Re.Lit ")))."].

Definition highway_re : list Re.item :=
  [Re.Lit "init(object(highway,"; Re.Star Re.Space; Re.Open; Re.Plus Re.Word; Re.Close;
   Re.Lit "),"; Re.Star Re.Space; Re.Lit "value(at,"; Re.Star Re.Space; Re.Lit "pair(";
   Re.Open; Re.Plus Re.Digit; Re.Close; Re.Lit ",";
   Re.Open; Re.Plus Re.Digit; Re.Close; Re.Lit ")))."].

Definition station_re : list Re.item :=
  [Re.Lit "init(object(pickingStation,"; Re.Star Re.Space; Re.Open; Re.Plus Re.Word; Re.Close;
   Re.Lit "),"; Re.Star Re.Space; Re.Lit "value(at,"; Re.Star Re.Space; Re.Lit "pair(";
   Re.Open; Re.Plus Re.Digit; Re.Close; Re.Lit ",";
   Re.Open; Re.Plus Re.Digit; Re.Close; Re.Lit ")))."].

Definition robot_re : list Re.item :=
  [Re.Lit "init(object(robot,"; Re.Star Re.Space; Re.Open; Re.Plus Re.Word; Re.Close;
   Re.Lit "),"; Re.Star Re.Space; Re.Lit "value(at,"; Re.Star Re.Space; Re.Lit "pair(";
   Re.Open; Re.Plus Re.Digit; Re.Close; Re.Lit ",";
   Re.Open; Re.Plus Re.Digit; Re.Close; Re.Lit ")))."].

Definition shelf_loc_re : list Re.item :=
  [Re.Lit "init(object(shelf,"; Re.Star Re.Space; Re.Open; Re.Plus Re.Word; Re.Close;
   Re.Lit "),"; Re.Star Re.Space; Re.Lit "value(at,"; Re.Star Re.Space; Re.Lit "pair(";
   Re.Open; Re.Plus Re.Digit; Re.Close; Re.Lit ",";
   Re.Open; Re.Plus Re.Digit; Re.Close; Re.Lit ")))."].

(** [init\(object\(product,\s*(\w+)\),\s*value\(on,\s*pair\((\w+),(\d+)\)\)\)\.] *)
Definition product_re : list Re.item :=
  [Re.Lit "init(object(product,"; Re.Star Re.Space; Re.Open; Re.Plus Re.Word; Re.Close;
   Re.Lit "),"; Re.Star Re.Space; Re.Lit "value(on,"; Re.Star Re.Space; Re.Lit "pair(";
   Re.Open; Re.Plus Re.Word; Re.Close; Re.Lit ",";
   Re.Open; Re.Plus Re.Digit; Re.Close; Re.Lit ")))."].

(** [init\(object\(order,\s*(\w+)\),\s*value\(pickingStation,\s*(\w+)\)\)\.] *)
Definition order_station_re : list Re.item :=
  [Re.Lit "init(object(order,"; Re.Star Re.Space; Re.Open; Re.Plus Re.Word; Re.Close;
   Re.Lit "),"; Re.Star Re.Space; Re.Lit "value(pickingStation,"; Re.Star Re.Space;
   Re.Open; Re.Plus Re.Word; Re.Close; Re.Lit "))."].

(** [init\(object\(order,\s*(\w+)\),\s*value\(line,\s*pair\((\w+),(\d+)\)\)\)\.] *)
Definition order_line_re : list Re.item :=
  [Re.Lit "init(object(order,"; Re.Star Re.Space; Re.Open; Re.Plus Re.Word; Re.Close;
   Re.Lit "),"; Re.Star Re.Space; Re.Lit "value(line,"; Re.Star Re.Space; Re.Lit "pair(";
   Re.Open; Re.Plus Re.Word; Re.Close; Re.Lit ",";
   Re.Open; Re.Plus Re.Digit; Re.Close; Re.Lit ")))."].

(** The three groups of a match, with [int] applied to the last two. *)
Definition at_groups (mk : string → Z → Z → fact) (m : option (list (list ascii))) : option fact :=
  match m with
  | Some [id; x; y] => Some (mk (text_of id) (Re.int x) (Re.int y))
  | _ => None
  end.

(** The three groups of a match, with [int] applied to the last one. *)
Definition count_groups (mk : string → string → Z → fact) (m : option (list (list ascii))) : option fact :=
  match m with
  | Some [a; b; qty] => Some (mk (text_of a) (text_of b) (Re.int qty))
  | _ => None
  end.

Definition pair_groups (mk : string → string → fact) (m : option (list (list ascii))) : option fact :=
  match m with
  | Some [a; b] => Some (mk (text_of a) (text_of b))
  | _ => None
  end.

(** The first of the tests that succeeds, in the order of the [elif]s. *)
Fixpoint first_match (tests : list (option fact)) : option fact :=
  match tests with
  | [] => None
  | Some f :: _ => Some f
  | None :: rest => first_match rest
  end.

(** One line of the file: [None] for a blank line or a comment, else the
    fact of the first pattern that matches. *)
Definition read_line (line : string) : option fact :=
  let line := Re.strip (chars_of line) in
  match line with
  | [] => None
  | c :: _ =>
      if decide (c = "%"%char) then None
      else
        Some (default (FUnmatched (text_of line)) (first_match
          [ at_groups FNode (Re.re_match node_re line);
            at_groups FHighway (Re.re_match highway_re line);
            at_groups FStation (Re.re_match station_re line);
            at_groups FRobot (Re.re_match robot_re line);
            at_groups FShelf (Re.re_match shelf_loc_re line);
            count_groups FProduct (Re.re_match product_re line);
            pair_groups FOrderStation (Re.re_match order_station_re line);
            count_groups FOrderLine (Re.re_match order_line_re line) ]))
  end.

(** [parse_init] and [parse_plan] on text. *)
Definition parse_init_lines (file : option (list string)) : option (State * (Z * Z)) :=
  parse_init ((λ lines : list string, omap read_line lines) <$> file).

Definition parse_plan_text (file : plan_file) : option (gmap Z (list action_info) * Z) :=
  parse_plan match_occurs parse_action_string file.

(** *** Vocabulary for text *)

(** A non-empty run of characters of one class. *)
Definition run_of (k : Re.cls) (s : list ascii) : Prop :=
  s ≠ [] ∧ Forall (λ c, Re.in_cls k c = true) s.

(** Digits, with or without a minus sign in front. *)
Definition number (s : list ascii) : Prop :=
  run_of Re.Digit s ∨ ∃ ds, s = "-"%char :: ds ∧ run_of Re.Digit ds.

(** The text does not go on with a character of class [k]. *)
Definition stops (k : Re.cls) (s : list ascii) : Prop :=
  match s with
  | c :: _ => Re.in_cls k c = false
  | [] => True
  end.

(** [str(z)]: the decimal writing of an integer. *)
Definition py_str (z : Z) : list ascii :=
  chars_of (NilZero.string_of_int (Z.to_int z)).

(** An identifier as the patterns capture it. *)
Definition token (s : string) : Prop := run_of Re.Word (chars_of s).

(** *** Writing actions and atoms *)

(** The action strings of a plan, as the solver writes them. *)
Definition show_action (a : action) : list ascii :=
  match a with
  | Move dx dy => chars_of "move(" ++ py_str dx ++ ","%char :: py_str dy ++ [")"%char]
  | Pickup => chars_of "pickup"
  | Putdown => chars_of "putdown"
  | Deliver order_id product_id units =>
      chars_of "deliver(" ++ chars_of order_id ++ ","%char :: chars_of product_id
        ++ ","%char :: py_str units ++ [")"%char]
  | Unknown raw => chars_of raw
  end.

(** An action that can be written: identifiers are tokens, units are not
    negative. *)
Definition writable (a : action) : Prop :=
  match a with
  | Deliver order_id product_id units => token order_id ∧ token product_id ∧ 0 ≤ units
  | Unknown _ => False
  | _ => True
  end.

(** [occurs(object(robot,R),A,T)] *)
Definition show_atom (entry : string * action * Z) : string :=
  text_of (chars_of "occurs(object(robot," ++ chars_of entry.1.1 ++ chars_of ")," ++
           show_action entry.1.2 ++ ","%char :: py_str entry.2 ++ [")"%char]).

Definition writable_entry (entry : string * action * Z) : Prop :=
  token entry.1.1 ∧ writable entry.1.2 ∧ 0 ≤ entry.2.

(** The entries of timestep [t]. *)
Definition entries_at (t : Z) (entries : list (string * action * Z)) : list action_info :=
  fst <$> filter (λ e, e.2 = t) entries.

(** *** Writing the lines of the init file *)

(** The shape that the five position patterns share, and the shape of the
    two patterns with a [pair] of an identifier and a count. *)
Definition at_shape (head : string) : list Re.item :=
  [Re.Lit head; Re.Star Re.Space; Re.Open; Re.Plus Re.Word; Re.Close;
   Re.Lit "),"; Re.Star Re.Space; Re.Lit "value(at,"; Re.Star Re.Space; Re.Lit "pair(";
   Re.Open; Re.Plus Re.Digit; Re.Close; Re.Lit ",";
   Re.Open; Re.Plus Re.Digit; Re.Close; Re.Lit ")))."].

Definition count_shape (head value : string) : list Re.item :=
  [Re.Lit head; Re.Star Re.Space; Re.Open; Re.Plus Re.Word; Re.Close;
   Re.Lit "),"; Re.Star Re.Space; Re.Lit value; Re.Star Re.Space; Re.Lit "pair(";
   Re.Open; Re.Plus Re.Word; Re.Close; Re.Lit ",";
   Re.Open; Re.Plus Re.Digit; Re.Close; Re.Lit ")))."].

(** An init line without spaces. *)
Definition show_at (kind id : string) (x y : Z) : list ascii :=
  chars_of "init(object(" ++ chars_of kind ++ ","%char :: chars_of id ++ chars_of "),value(at,pair(" ++
  py_str x ++ ","%char :: py_str y ++ chars_of "))).".

Definition show_count (kind value a b : string) (qty : Z) : list ascii :=
  chars_of "init(object(" ++ chars_of kind ++ ","%char :: chars_of a ++ chars_of "),value(" ++
  chars_of value ++ chars_of ",pair(" ++ chars_of b ++ ","%char :: py_str qty ++ chars_of "))).".

Definition show_fact (f : fact) : list ascii :=
  match f with
  | FNode id x y => show_at "node" id x y
  | FHighway id x y => show_at "highway" id x y
  | FStation id x y => show_at "pickingStation" id x y
  | FRobot id x y => show_at "robot" id x y
  | FShelf id x y => show_at "shelf" id x y
  | FProduct product_id shelf_id qty => show_count "product" "on" product_id shelf_id qty
  | FOrderStation order_id station_id =>
      chars_of "init(object(order," ++ chars_of order_id ++ chars_of "),value(pickingStation," ++
      chars_of station_id ++ chars_of "))."
  | FOrderLine order_id product_id qty => show_count "order" "line" order_id product_id qty
  | FUnmatched line => chars_of line
  end.

(** What the patterns let through: identifiers are tokens, coordinates and
    counts are not negative. *)
Definition fact_ok (f : fact) : Prop :=
  match f with
  | FNode id x y | FHighway id x y | FStation id x y | FRobot id x y | FShelf id x y =>
      token id ∧ 0 ≤ x ∧ 0 ≤ y
  | FProduct a b qty | FOrderLine a b qty => token a ∧ token b ∧ 0 ≤ qty
  | FOrderStation order_id station_id => token order_id ∧ token station_id
  | FUnmatched _ => True
  end.

Definition is_unmatched (f : fact) : Prop :=
  match f with FUnmatched _ => True | _ => False end.

(** *** What the facts of an init file declare *)

(** The last fact on which [pick] is defined. *)
Definition last_of {A} (pick : fact → option A) (facts : list fact) : option A :=
  last (omap pick facts).

Definition node_of (f : fact) : option coord :=
  match f with FNode _ x y => Some (x, y) | _ => None end.

Definition highway_of (f : fact) : option coord :=
  match f with FHighway _ x y => Some (x, y) | _ => None end.

Definition station_at (station_id : string) (f : fact) : option coord :=
  match f with
  | FStation id x y => if decide (id = station_id) then Some (x, y) else None
  | _ => None
  end.

Definition robot_at (robot_id : string) (f : fact) : option coord :=
  match f with
  | FRobot id x y => if decide (id = robot_id) then Some (x, y) else None
  | _ => None
  end.

Definition shelf_placed_at (shelf_id : string) (f : fact) : option coord :=
  match f with
  | FShelf id x y => if decide (id = shelf_id) then Some (x, y) else None
  | _ => None
  end.

Definition quantity_of (shelf_id product_id : string) (f : fact) : option Z :=
  match f with
  | FProduct p s qty => if decide (s = shelf_id ∧ p = product_id) then Some qty else None
  | _ => None
  end.

Definition order_station_of (order_id : string) (f : fact) : option string :=
  match f with
  | FOrderStation o station_id => if decide (o = order_id) then Some station_id else None
  | _ => None
  end.

Definition line_of (order_id product_id : string) (f : fact) : option Z :=
  match f with
  | FOrderLine o p qty => if decide (o = order_id ∧ p = product_id) then Some qty else None
  | _ => None
  end.

(** The count that normalization leaves for a product: the last declared
    one, zero for a product of the universe that was not declared. *)
Definition declared_count (declared : option Z) (product_id : string) (facts : list fact) : option Z :=
  match declared with
  | Some qty => Some qty
  | None => if decide (product_id ∈ mentioned_products facts) then Some 0 else None
  end.

(** What holds of the local variables of [parse_init] after it has read
    [facts]. *)
Definition has_read (facts : list fact) (e : parse_env) : Prop :=
  (∀ c, c ∈ nodes (pe_state e) ↔ c ∈ omap node_of facts) ∧
  (∀ c, c ∈ highways (pe_state e) ↔ c ∈ omap highway_of facts) ∧
  (∀ s, picking_stations (pe_state e) !! s = last_of (station_at s) facts) ∧
  (∀ r, Dict.get r (robots (pe_state e)) = (λ p, Robot p None) <$> last_of (robot_at r) facts) ∧
  (∀ s, Dict.get s (shelves (pe_state e))
        = (λ p, Shelf (Some p) ∅) <$> last_of (shelf_placed_at s) facts) ∧
  (∀ s, match Dict.get s (shelf_quantities_temp e) with
        | Some m => (∀ p, m !! p = last_of (quantity_of s p) facts) ∧ m ≠ ∅
        | None => ∀ p, last_of (quantity_of s p) facts = None
        end) ∧
  (∀ o, match Dict.get o (order_reqs_temp e) with
        | Some m => (∀ p, m !! p = last_of (line_of o p) facts) ∧ m ≠ ∅
        | None => ∀ p, last_of (line_of o p) facts = None
        end) ∧
  (∀ o, order_station_temp e !! o = last_of (order_station_of o) facts) ∧
  NoDup (Dict.keys (shelf_quantities_temp e)) ∧
  NoDup (Dict.keys (order_reqs_temp e)) ∧
  orders (pe_state e) = [] ∧
  pe_max_x e = foldr Z.max 0 ((omap node_of facts).*1) ∧
  pe_max_y e = foldr Z.max 0 ((omap node_of facts).*2) ∧
  pe_warnings e = omap (λ f, match f with FUnmatched line => Some (PUnmatchedLine line) | _ => None end) facts.

(** ** The program on text *)

(** The [__main__] block on the text of the two files, without the
    rendering. *)
Definition main_text (init_file : option (list string)) (plan_path : plan_file) : run_result :=
  main match_occurs parse_action_string
       ((λ lines : list string, omap read_line lines) <$> init_file) plan_path.

(** No count of the state is negative. *)
Definition counts_nonneg (st : State) : Prop :=
  (∀ s sh p, Dict.get s (shelves st) = Some sh → 0 ≤ stock_count sh p) ∧
  (∀ o od p, Dict.get o (orders st) = Some od → 0 ≤ req_count od p).

(** From one frame to the next no count rises. *)
Definition counts_fall (st st' : State) : Prop :=
  (∀ s sh p, Dict.get s (shelves st) = Some sh →
     ∃ sh', Dict.get s (shelves st') = Some sh' ∧ 0 ≤ stock_count sh' p ≤ stock_count sh p) ∧
  (∀ o od p, Dict.get o (orders st) = Some od →
     ∃ od', Dict.get o (orders st') = Some od' ∧ 0 ≤ req_count od' p ≤ req_count od p).

(** The two files of the scenario. *)
Definition scenario_lines : list string :=
  [ "% the scenario";
    "init(object(node,1),value(at,pair(1,1))).";
    "init(object(node,2),value(at,pair(2,2))).";
    "init(object(robot,r1),value(at,pair(1,1))).";
    "init(object(shelf,s1),value(at,pair(1,1))).";
    "init(object(product,p1),value(on,pair(s1,5))).";
    "init(object(pickingStation,st1),value(at,pair(2,2))).";
    "init(object(order,o1),value(pickingStation,st1)).";
    "init(object(order,o1),value(line,pair(p1,3)))." ].

Definition scenario_entries : list (string * action * Z) :=
  [ ("r1", Pickup, 1); ("r1", Move 1 1, 2); ("r1", Deliver "o1" "p1" 3, 3) ].

Definition scenario_atoms : list json :=
  (λ e, JStr (show_atom e)) <$> scenario_entries.

(** ** Visualization: the cells of the grid *)

(** The picking stations are read in the order of their dictionary, which
    [State] does not keep: the functions below take
    [state['picking_stations'].items()] as the list [stations]. *)

(** [range(1, y + 1)] by [range(1, x + 1)], with [pos = (c, r)] *)
Definition cells (grid_dims : Z * Z) : list coord :=
  r ← seqZ 1 grid_dims.2; c ← seqZ 1 grid_dims.1; [(c, r)].

(** The first robot, in the order of the dictionary, that stands on
    [pos]. *)
Definition robot_here (pos : coord) (rs : list (string * robot)) : option string :=
  fst <$> List.find (λ e, bool_decide (r_pos e.2 = pos)) rs.

Definition station_here (pos : coord) (stations : list (string * coord)) : option string :=
  fst <$> List.find (λ e, bool_decide (e.2 = pos)) stations.

(** [R<robot>], followed by [[S<shelf>]] for a robot that carries one. *)
Definition robot_content (robot_id : string) (carried : option string) : list ascii :=
  chars_of "R" ++ chars_of robot_id ++
  match carried with
  | Some c => if truthy carried then chars_of "[" ++ chars_of "S" ++ chars_of c ++ chars_of "]" else []
  | None => []
  end.

(** The body of the two loops of [calculate_max_width_for_state]. *)
Definition cell_content (st : State) (stations : list (string * coord)) (pos : coord) : list ascii :=
  let robot_here := robot_here pos (robots st) in
  let shelf_here := shelf_at pos (shelves st) in
  if truthy robot_here then
    match robot_here with
    | Some rid => robot_content rid (rdata ← Dict.get rid (robots st); r_carries rdata)
    | None => chars_of " "
    end
  else if truthy shelf_here then
    match shelf_here with
    | Some sid => chars_of "S" ++ chars_of sid
    | None => chars_of " "
    end
  else
    match station_here pos stations with
    | Some station_id => chars_of "P" ++ chars_of station_id
    | None =>
        if bool_decide (pos ∈ highways st) then chars_of "#"
        else if bool_decide (pos ∈ nodes st) then chars_of "."
        else chars_of " "
    end.

Definition calculate_max_width_for_state (st : State) (stations : list (string * coord))
    (grid_dims : Z * Z) : nat :=
  let max_w :=
    fold_left (λ max_w pos, Nat.max max_w (length (Re.strip (cell_content st stations pos))))
              (cells grid_dims) O in
  Nat.max max_w 1.

(** The grids of [visualize_step]: rows of cells, indexed from 0. *)
Definition blank_grid (grid_dims : Z * Z) : list (list (list ascii)) :=
  replicate (Z.to_nat (grid_dims.2 + 1)) (replicate (Z.to_nat (grid_dims.1 + 1)) (chars_of " ")).

(** [g[y][x] = v] and [g[y][x]], for indices that are in range (the
    program guards every access). *)
Definition set_cell (pos : coord) (v : list ascii) (g : list (list (list ascii)))
  : list (list (list ascii)) :=
  alter (λ row, <[ Z.to_nat pos.1 := v ]> row) (Z.to_nat pos.2) g.

Definition get_cell (pos : coord) (g : list (list (list ascii))) : list ascii :=
  default (chars_of " ") (row ← g !! Z.to_nat pos.2; row !! Z.to_nat pos.1).

(** [1 <= y <= grid_dims['y'] and 1 <= x <= grid_dims['x']] *)
Definition in_grid (grid_dims : Z * Z) (pos : coord) : bool :=
  bool_decide (1 ≤ pos.2 ≤ grid_dims.2) && bool_decide (1 ≤ pos.1 ≤ grid_dims.1).

(** Lines 357-361: nodes, then highways over them. *)
Definition draw_terrain (st : State) (grid_dims : Z * Z) (grid : list (list (list ascii)))
  : list (list (list ascii)) :=
  fold_left (λ grid pos,
      let grid := if bool_decide (pos ∈ nodes st) then set_cell pos (chars_of ".") grid else grid in
      if bool_decide (pos ∈ highways st) then set_cell pos (chars_of "#") grid else grid)
    (cells grid_dims) grid.

(** Lines 363-366 *)
Definition draw_stations (stations : list (string * coord)) (grid_dims : Z * Z)
    (grid : list (list (list ascii))) : list (list (list ascii)) :=
  fold_left (λ grid e,
      if in_grid grid_dims e.2 then set_cell e.2 (chars_of "P" ++ chars_of e.1) grid else grid)
    stations grid.

(** Lines 368-372 *)
Definition draw_shelves (st : State) (grid_dims : Z * Z) (display_layer : list (list (list ascii)))
  : list (list (list ascii)) :=
  fold_left (λ layer e,
      match s_pos e.2 with
      | Some pos =>
          if in_grid grid_dims pos then set_cell pos (chars_of "S" ++ chars_of e.1) layer else layer
      | None => layer
      end)
    (shelves st) display_layer.

(** Lines 374-381 *)
Definition draw_robots (st : State) (grid_dims : Z * Z) (display_layer : list (list (list ascii)))
  : list (list (list ascii)) :=
  fold_left (λ layer e,
      if in_grid grid_dims (r_pos e.2)
      then set_cell (r_pos e.2) (robot_content e.1 (r_carries e.2)) layer
      else layer)
    (robots st) display_layer.

(** Lines 384-387 *)
Definition combine_layers (grid_dims : Z * Z) (grid display_layer final_grid : list (list (list ascii)))
  : list (list (list ascii)) :=
  fold_left (λ final pos,
      if bool_decide (get_cell pos display_layer ≠ chars_of " ")
      then set_cell pos (get_cell pos display_layer) final
      else set_cell pos (get_cell pos grid) final)
    (cells grid_dims) final_grid.

(** [final_grid] as [visualize_step] builds it. *)
Definition final_grid (st : State) (stations : list (string * coord)) (grid_dims : Z * Z)
  : list (list (list ascii)) :=
  let grid := draw_stations stations grid_dims (draw_terrain st grid_dims (blank_grid grid_dims)) in
  let display_layer := draw_robots st grid_dims (draw_shelves st grid_dims (blank_grid grid_dims)) in
  combine_layers grid_dims grid display_layer (blank_grid grid_dims).

(** [s.ljust(w)] *)
Definition ljust (w : nat) (s : list ascii) : list ascii :=
  s ++ replicate (w - length s) " "%char.

(** [cells_to_print] for each row of the grid. *)
Definition rows_to_print (st : State) (stations : list (string * coord)) (grid_dims : Z * Z)
    (fixed_cell_width : nat) : list (list (list ascii)) :=
  (λ r, (λ c, ljust fixed_cell_width (get_cell (c, r) (final_grid st stations grid_dims)))
          <$> seqZ 1 grid_dims.1)
    <$> seqZ 1 grid_dims.2.

(** The pre-simulation pass of [__main__]. *)
Fixpoint widen (plan : gmap Z (list action_info)) (stations : list (string * coord))
    (grid_dims : Z * Z) (t : Z) (n : nat) (temp_state : State) (overall_max_cell_width : nat) : nat :=
  match n with
  | O => overall_max_cell_width
  | S n' =>
      let temp_state := update_state temp_state (actions_at plan t) in
      widen plan stations grid_dims (t + 1) n' temp_state
        (Nat.max overall_max_cell_width (calculate_max_width_for_state temp_state stations grid_dims))
  end.

Definition overall_width (plan : gmap Z (list action_info)) (max_time : Z) (initial_state : State)
    (stations : list (string * coord)) (grid_dims : Z * Z) : nat :=
  widen plan stations grid_dims 1 (Z.to_nat max_time) initial_state
    (Nat.max 0 (calculate_max_width_for_state initial_state stations grid_dims)).

(** *** Vocabulary *)

(** The last entry of a dictionary that is drawn on [pos]. *)
Definition last_robot_on (pos : coord) (st : State) : option (string * robot) :=
  last (filter (λ e, r_pos e.2 = pos) (robots st)).

Definition last_shelf_on (pos : coord) (st : State) : option (string * shelf) :=
  last (filter (λ e, s_pos e.2 = Some pos) (shelves st)).

Definition last_station_on (pos : coord) (stations : list (string * coord)) : option (string * coord) :=
  last (filter (λ e, e.2 = pos) stations).

(** What a cell of the grid shows. *)
Definition shown (st : State) (stations : list (string * coord)) (pos : coord) : list ascii :=
  match last_robot_on pos st with
  | Some (rid, rb) => robot_content rid (r_carries rb)
  | None =>
      match last_shelf_on pos st with
      | Some (sid, _) => chars_of "S" ++ chars_of sid
      | None =>
          match last_station_on pos stations with
          | Some (station_id, _) => chars_of "P" ++ chars_of station_id
          | None =>
              if bool_decide (pos ∈ highways st) then chars_of "#"
              else if bool_decide (pos ∈ nodes st) then chars_of "."
              else chars_of " "
          end
      end
  end.

(** No two robots, no two shelves and no two stations on one cell; and
    identifiers that are tokens. *)
Definition one_per_cell (st : State) (stations : list (string * coord)) : Prop :=
  NoDup ((λ e : string * robot, r_pos e.2) <$> robots st) ∧
  NoDup (omap (λ e : string * shelf, s_pos e.2) (shelves st)) ∧
  NoDup stations.*2.

Definition labels_are_tokens (st : State) (stations : list (string * coord)) : Prop :=
  (∀ r rb, (r, rb) ∈ robots st → token r ∧ ∀ c, r_carries rb = Some c → token c) ∧
  (∀ s sh, (s, sh) ∈ shelves st → token s) ∧
  (∀ s pos, (s, pos) ∈ stations → token s).

(** A state with two robots on one cell, the first with the shorter
    name. *)
Definition crowded_state : State :=
  MkState {[ (1, 1) ]} ∅ ∅
          [("a", Robot (1, 1) None); ("bcd", Robot (1, 1) None)]
          [] ∅ [].

(** A grid of [grid_dims['y'] + 1] rows of [grid_dims['x'] + 1] cells. *)
Definition shaped (grid_dims : Z * Z) (g : list (list (list ascii))) : Prop :=
  length g = Z.to_nat (grid_dims.2 + 1) ∧
  Forall (λ row, length row = Z.to_nat (grid_dims.1 + 1)) g.

(** ** Parsed states, and the scenario on a grid *)

(** What [parse_init] guarantees of the state it builds from text. *)
Definition parsed_ok (st : State) : Prop :=
  keys_unique st ∧ ids_nonempty st ∧ counts_nonneg st ∧
  (∀ r rb, Dict.get r (robots st) = Some rb →
           token r ∧ r_carries rb = None ∧ 0 ≤ (r_pos rb).1 ∧ 0 ≤ (r_pos rb).2) ∧
  (∀ s sh, Dict.get s (shelves st) = Some sh →
           token s ∧ ∃ pos, s_pos sh = Some pos ∧ 0 ≤ pos.1 ∧ 0 ≤ pos.2) ∧
  (∀ s pos, picking_stations st !! s = Some pos → token s ∧ 0 ≤ pos.1 ∧ 0 ≤ pos.2) ∧
  (∀ o od, Dict.get o (orders st) = Some od → token o ∧ token (o_station_id od)).

(** An init file with a line that fits no pattern, a quantity on a shelf
    without location, a line of an order without station, and an order
    with a station and no line. *)
Definition untidy_facts : list fact :=
  [ FUnmatched "junk";
    FProduct "p1" "s9" 4;
    FOrderLine "o9" "p1" 2;
    FOrderStation "o8" "st1" ].

(** The scenario on a grid of two by two nodes, with its station. *)
Definition scenario_grid : State :=
  scenario_state {[ (1, 1); (2, 1); (1, 2); (2, 2) ]} ∅.

Definition scenario_stations : list (string * coord) := [("st1", (2, 2))].

(** * Part II: properties *)

(** ** Dictionaries *)

Module DictFacts.
Import Dict.
Section dict_facts.
Context {V : Type}.
Implicit Types (d : list (string * V)) (f g : V → V) (k : string).

Lemma get_alter_eq f k d : get k (alter f k d) = f <$> get k d.
Proof.
  induction d as [|[k' v] d IH]; simpl; [done|].
  destruct (decide (k = k')) as [->|Hne]; simpl.
  - by rewrite decide_True.
  - by rewrite decide_False.
Qed.

Lemma get_alter_ne f k k' d : k ≠ k' → get k' (alter f k d) = get k' d.
Proof.
  intros Hne. induction d as [|[k0 v] d IH]; simpl; [done|].
  destruct (decide (k = k0)) as [->|Hne0]; simpl.
  - by rewrite !decide_False by congruence.
  - destruct (decide (k' = k0)); [done|apply IH].
Qed.

Lemma get_alter f k k' d :
  get k' (alter f k d) = if decide (k = k') then f <$> get k' d else get k' d.
Proof.
  destruct (decide (k = k')) as [->|Hne];
    [apply get_alter_eq | by apply get_alter_ne].
Qed.

Lemma keys_alter f k d : keys (alter f k d) = keys d.
Proof.
  unfold keys. induction d as [|[k' v] d IH]; simpl; [done|].
  destruct (decide (k = k')); simpl; by f_equal.
Qed.

Lemma alter_absent f k d : get k d = None → alter f k d = d.
Proof.
  induction d as [|[k' v] d IH]; simpl; [done|].
  destruct (decide (k = k')); [done|]. intros H. by rewrite IH.
Qed.

Lemma alter_id f k d :
  (∀ v, get k d = Some v → f v = v) → alter f k d = d.
Proof.
  induction d as [|[k' v] d IH]; simpl; [done|].
  destruct (decide (k = k')); intros H.
  - by rewrite H.
  - by rewrite IH.
Qed.

Lemma alter_compose f g k d : alter f k (alter g k d) = alter (f ∘ g) k d.
Proof.
  induction d as [|[k' v] d IH]; simpl; [done|].
  destruct (decide (k = k')) as [->|Hne]; simpl.
  - by rewrite decide_True.
  - rewrite decide_False by done. by rewrite IH.
Qed.

Lemma get_Some_elem k v d : get k d = Some v → (k, v) ∈ d.
Proof.
  induction d as [|[k' v'] d IH]; simpl; [done|].
  destruct (decide (k = k')) as [->|Hne].
  - intros [= ->]. left.
  - intros H. right. auto.
Qed.

Lemma get_None_keys k d : get k d = None ↔ k ∉ keys d.
Proof.
  unfold keys. induction d as [|[k' v'] d IH]; simpl.
  - split; [intros _; apply not_elem_of_nil | done].
  - rewrite not_elem_of_cons. destruct (decide (k = k')) as [->|Hne].
    + split; [done | intros [? _]; done].
    + rewrite IH. naive_solver.
Qed.

Lemma elem_get_NoDup k v d : NoDup (keys d) → (k, v) ∈ d → get k d = Some v.
Proof.
  unfold keys. induction d as [|[k' v'] d IH]; simpl.
  - intros _ H. by apply elem_of_nil in H.
  - rewrite NoDup_cons. intros [Hk Hnd] H.
    apply elem_of_cons in H as [[= -> ->]|H].
    + by rewrite decide_True.
    + destruct (decide (k = k')) as [->|Hne]; [|by apply IH].
      exfalso. apply Hk. apply list_elem_of_fmap. by exists (k', v).
Qed.

Lemma get_set_eq k v d : get k (set k v d) = Some v.
Proof.
  induction d as [|[k' v'] d IH]; simpl.
  - by rewrite decide_True.
  - destruct (decide (k = k')) as [->|Hne]; simpl.
    + by rewrite decide_True.
    + by rewrite decide_False.
Qed.

Lemma get_set_ne k k' v d : k ≠ k' → get k' (set k v d) = get k' d.
Proof.
  intros Hne. induction d as [|[k0 v0] d IH]; simpl.
  - by rewrite decide_False by congruence.
  - destruct (decide (k = k0)) as [->|Hne0]; simpl.
    + by rewrite !decide_False by congruence.
    + destruct (decide (k' = k0)); [done|apply IH].
Qed.

Lemma keys_set k v d :
  Dict.keys (Dict.set k v d) =
  match Dict.get k d with Some _ => Dict.keys d | None => Dict.keys d ++ [k] end.
Proof.
  unfold Dict.keys. induction d as [|[k' v'] d IH]; simpl; [done|].
  destruct (decide (k = k')) as [->|Hne]; simpl; [done|].
  destruct (Dict.get k d); simpl in *; by f_equal.
Qed.

Lemma NoDup_keys_set k v d : NoDup (Dict.keys d) → NoDup (Dict.keys (Dict.set k v d)).
Proof.
  intros Hnd. rewrite keys_set. destruct (Dict.get k d) eqn:E; [done|].
  apply NoDup_app. split_and!; [done| |apply NoDup_singleton].
  intros x Hx Hx'. apply list_elem_of_singleton in Hx' as ->.
  by apply get_None_keys in E.
Qed.

Lemma NoDup_keys_alter f k d : NoDup (Dict.keys d) → NoDup (Dict.keys (Dict.alter f k d)).
Proof. by rewrite keys_alter. Qed.

Lemma get_set k k' v d :
  Dict.get k' (Dict.set k v d) = if decide (k = k') then Some v else Dict.get k' d.
Proof.
  destruct (decide (k = k')) as [->|Hne];
    [apply get_set_eq | by apply get_set_ne].
Qed.

Lemma elem_of_set k v d x : x ∈ Dict.set k v d → x = (k, v) ∨ x ∈ d.
Proof.
  induction d as [|[k' v'] d IH]; simpl.
  - intros H. apply list_elem_of_singleton in H. by left.
  - destruct (decide (k = k')) as [->|Hne]; intros H.
    + apply elem_of_cons in H as [->|H]; [by left|]. right. by right.
    + apply elem_of_cons in H as [->|H]; [right; left|].
      destruct (IH H) as [->|H']; [by left|]. right. by right.
Qed.

Lemma elem_of_alter f k d x :
  x ∈ Dict.alter f k d → x ∈ d ∨ ∃ v, (k, v) ∈ d ∧ x = (k, f v).
Proof.
  induction d as [|[k' v'] d IH]; simpl; [by left|].
  destruct (decide (k = k')) as [->|Hne]; intros H.
  - apply elem_of_cons in H as [->|H].
    + right. exists v'. split; [left|done].
    + left. by right.
  - apply elem_of_cons in H as [->|H]; [left; left|].
    destruct (IH H) as [H'|(v & H' & ->)]; [left; by right|].
    right. exists v. split; [by right|done].
Qed.

End dict_facts.
End DictFacts.

(** ** Basic facts about the loop *)

Lemma run_actions_state cur acts : ∀ next log,
  (run_actions cur acts next log).1 = fold_left (step cur) acts next.
Proof.
  induction acts as [|ai acts IH]; intros next log; simpl; [done|].
  unfold step at 2. destruct (apply_action cur next ai) as [next' ws]. apply IH.
Qed.

Lemma update_state_fold st acts : update_state st acts = fold_left (step st) acts st.
Proof. apply run_actions_state. Qed.

Lemma update_state_app st acts1 acts2 :
  update_state st (acts1 ++ acts2) = fold_left (step st) acts2 (update_state st acts1).
Proof. by rewrite !update_state_fold, fold_left_app. Qed.

Ltac step_cases :=
  unfold step, apply_action; repeat case_match; simplify_eq; simpl.

(** No action inserts or removes a robot, a shelf or an order, so the
    subscripts [next_state['robots'][robot_id]] and the like never fail. *)
Lemma step_keys cur next ai :
  Dict.keys (robots (step cur next ai)) = Dict.keys (robots next) ∧
  Dict.keys (shelves (step cur next ai)) = Dict.keys (shelves next) ∧
  Dict.keys (orders (step cur next ai)) = Dict.keys (orders next).
Proof. step_cases; rewrite ?DictFacts.keys_alter; done. Qed.

Lemma fold_keys cur acts : ∀ next,
  Dict.keys (robots (fold_left (step cur) acts next)) = Dict.keys (robots next) ∧
  Dict.keys (shelves (fold_left (step cur) acts next)) = Dict.keys (shelves next) ∧
  Dict.keys (orders (fold_left (step cur) acts next)) = Dict.keys (orders next).
Proof.
  induction acts as [|ai acts IH]; intros next; simpl; [done|].
  destruct (IH (step cur next ai)) as (-> & -> & ->). apply step_keys.
Qed.

(** The static part of the state is never written. *)
Lemma step_static cur next ai :
  nodes (step cur next ai) = nodes next ∧
  highways (step cur next ai) = highways next ∧
  picking_stations (step cur next ai) = picking_stations next ∧
  products (step cur next ai) = products next.
Proof. step_cases; done. Qed.

Lemma fold_static cur acts : ∀ next,
  nodes (fold_left (step cur) acts next) = nodes next ∧
  highways (fold_left (step cur) acts next) = highways next ∧
  picking_stations (fold_left (step cur) acts next) = picking_stations next ∧
  products (fold_left (step cur) acts next) = products next.
Proof.
  induction acts as [|ai acts IH]; intros next; simpl; [done|].
  destruct (IH (step cur next ai)) as (-> & -> & -> & ->). apply step_static.
Qed.

Lemma get_is_Some_keys {V} k (d1 d2 : list (string * V)) :
  Dict.keys d1 = Dict.keys d2 → is_Some (Dict.get k d1) → is_Some (Dict.get k d2).
Proof.
  intros Hk [v Hv]. destruct (Dict.get k d2) eqn:E; [eauto|].
  apply DictFacts.get_None_keys in E. rewrite <- Hk in E.
  apply DictFacts.get_None_keys in E. congruence.
Qed.

(** ** Move *)

Lemma step_pos_other cur next r ai :
  ¬ is_move_of r ai →
  r_pos <$> Dict.get r (robots (step cur next ai)) = r_pos <$> Dict.get r (robots next).
Proof.
  intros Hm. destruct ai as [r' a].
  assert (∀ c, r_pos <$> Dict.get r (Dict.alter (set_carries c) r' (robots next))
               = r_pos <$> Dict.get r (robots next)) as Hc.
  { intros c. rewrite DictFacts.get_alter. case_decide; [|done].
    destruct (Dict.get r (robots next)); done. }
  step_cases; rewrite ?Hc; try done.
  destruct (decide (r' = r)) as [->|Hne].
  - exfalso. apply Hm. split; [done|]. eauto.
  - by rewrite DictFacts.get_alter_ne.
Qed.

Lemma fold_pos_other cur r acts : ∀ next,
  Forall (λ ai, ¬ is_move_of r ai) acts →
  r_pos <$> Dict.get r (robots (fold_left (step cur) acts next)) = r_pos <$> Dict.get r (robots next).
Proof.
  induction acts as [|ai acts IH]; intros next Hall; simpl; [done|].
  inversion Hall; subst. rewrite IH by done. by apply step_pos_other.
Qed.

(** C9.  A Move by a known robot is never rejected: whatever the nodes,
    highways, shelves and other robots are, and whatever was applied
    earlier in the same timestep ([before]), after the whole timestep the
    robot stands at its position at the start of the timestep plus
    (dx, dy), provided no later Move of the same timestep overwrites it. *)
Theorem move_always_applies st r rb dx dy before after :
  Dict.get r (robots st) = Some rb →
  Forall (λ ai, ¬ is_move_of r ai) after →
  r_pos <$> Dict.get r (robots (update_state st (before ++ (r, Move dx dy) :: after)))
  = Some ((r_pos rb).1 + dx, (r_pos rb).2 + dy).
Proof.
  intros Hr Hafter. rewrite update_state_app. simpl.
  rewrite fold_pos_other by done.
  unfold step at 1, apply_action. rewrite Hr. simpl.
  rewrite DictFacts.get_alter_eq.
  destruct (get_is_Some_keys r (robots st) (robots (update_state st before))) as [rn ->]; [|by eauto|done].
  rewrite update_state_fold. symmetry. apply fold_keys.
Qed.

(** The Move of the scenario, after another Move of the same timestep. *)
Lemma move_always_applies_witness :
  r_pos <$> Dict.get "r1" (robots (update_state (scenario_state ∅ ∅)
              ([("r1", Move 5 5)] ++ ("r1", Move 1 1) :: [("r1", Pickup)])))
  = Some (2, 2).
Proof.
  apply (move_always_applies (scenario_state ∅ ∅) "r1" (Robot (1, 1) None) 1 1
           [("r1", Move 5 5)] [("r1", Pickup)]).
  - reflexivity.
  - repeat constructor. intros [_ (dx & dy & H)]. discriminate H.
Defined.

(** C10.  A timestep made of a single Move by a known robot changes that
    robot's position and nothing else. *)
Theorem move_frame st r rb dx dy :
  Dict.get r (robots st) = Some rb →
  let st' := update_state st [(r, Move dx dy)] in
  Dict.get r (robots st') = Some (Robot ((r_pos rb).1 + dx, (r_pos rb).2 + dy) (r_carries rb)) ∧
  (∀ r', r' ≠ r → Dict.get r' (robots st') = Dict.get r' (robots st)) ∧
  Dict.keys (robots st') = Dict.keys (robots st) ∧
  shelves st' = shelves st ∧
  orders st' = orders st ∧
  nodes st' = nodes st ∧
  highways st' = highways st ∧
  picking_stations st' = picking_stations st ∧
  products st' = products st.
Proof.
  intros Hr. unfold update_state, update_state_log. simpl. rewrite Hr. simpl.
  rewrite DictFacts.get_alter_eq, Hr, DictFacts.keys_alter. simpl.
  split_and!; try done. intros r' Hne. by apply DictFacts.get_alter_ne.
Qed.

(** The Move of the scenario on its own. *)
Lemma move_frame_witness :
  Dict.get "r1" (robots (update_state (scenario_state ∅ ∅) [("r1", Move 1 1)]))
  = Some (Robot (2, 2) None).
Proof.
  apply (move_frame (scenario_state ∅ ∅) "r1" (Robot (1, 1) None) 1 1). reflexivity.
Defined.

(** ** Well-formed states *)

Lemma truthy_Some s : s ≠ EmptyString → truthy (Some s) = true.
Proof. intros H. unfold truthy. by rewrite bool_decide_eq_false_2. Qed.

(** ** Deliver *)

Lemma alter_absent_gmap (f : Z → Z) (k : string) (m : gmap string Z) :
  m !! k = None → alter f k m = m.
Proof.
  intros H. apply map_eq. intros i. rewrite lookup_alter.
  case_decide; subst; [by rewrite H|done].
Qed.

Lemma alter_present_gmap (f : Z → Z) (k : string) (m : gmap string Z) v :
  m !! k = Some v → alter f k m = <[k := f v]> m.
Proof.
  intros H. apply map_eq. intros i. rewrite lookup_alter, lookup_insert.
  case_decide; subst; [by rewrite H|done].
Qed.

Lemma floor_zero q u : (if decide (q - u < 0) then 0 else q - u) = Z.max 0 (q - u).
Proof. case_decide; lia. Qed.

Lemma update_state_log_single st ai : update_state_log st [ai] = apply_action st st ai.
Proof. unfold update_state_log. simpl. by destruct (apply_action st st ai). Qed.

Lemma deliver_outcome st r rb order_id product_id units :
  ids_nonempty st →
  Dict.get r (robots st) = Some rb →
  let res := apply_action st st (r, Deliver order_id product_id units) in
  (deliver_blocked st rb order_id product_id units ∧ res.1 = st ∧
     ∃ w, res.2 = [w] ∧ is_deliver_rejection w = true)
  ∨ (¬ deliver_blocked st rb order_id product_id units ∧ ¬ deliver_rejected res.2 ∧
     delivered st res.1 rb order_id product_id units).
Proof.
  intros (Hrc & _ & Hos) Hr res. subst res.
  unfold apply_action. rewrite Hr.
  pose proof (Hrc _ _ Hr) as Hc.
  destruct (r_carries rb) as [sid|] eqn:Ecar.
  2: { left. split_and!; [by left | done | eauto]. }
  rewrite truthy_Some by congruence. cbn [negb].
  destruct (Dict.get sid (shelves st)) as [sh|] eqn:Esh.
  2: { left. split_and!; [right; left; eauto | done | eauto]. }
  destruct (Dict.get order_id (orders st)) as [od|] eqn:Eod.
  2: { left. split_and!; [do 2 right; by left | done | eauto]. }
  destruct (s_quantities sh !! product_id) as [q|] eqn:Eq.
  2: { left. split_and!; [do 3 right; left; eauto | done | eauto]. }
  rewrite truthy_Some by eauto.
  case_bool_decide as Est; cbn [negb].
  2: { left. split_and!; [do 4 right; left; exists od; split; [done|congruence] | done | eauto]. }
  case_decide as Hlt.
  { left. split_and!; [do 5 right; exists sid, sh, q; done | done | eauto]. }
  right.
  assert (¬ deliver_blocked st rb order_id product_id units) as Hfree.
  { intros [?|[(? & ? & ?)|[?|[(? & ? & ? & ? & ?)|[(? & ? & ?)|(? & ? & ? & ? & ? & ? & ?)]]]]];
      simplify_eq; try congruence; try lia. }
  split; [done|].
  destruct (o_requirements od !! product_id) as [n|] eqn:Ereq; cbn [fst snd].
  - split. { intros (w & Hin & _). by apply elem_of_nil in Hin. }
    exists sid, sh, od, q. rewrite Ereq. simpl.
    rewrite !DictFacts.get_alter_eq, Esh, Eod, !DictFacts.keys_alter. simpl.
    unfold take_units, lower_requirement. simpl.
    rewrite (alter_present_gmap _ _ _ _ Eq), (alter_present_gmap _ _ _ _ Ereq), floor_zero.
    split_and!; try done; intros k Hk; by apply DictFacts.get_alter_ne.
  - split. { intros (w & Hin & Hw). apply list_elem_of_singleton in Hin. by subst. }
    exists sid, sh, od, q. rewrite Ereq. simpl.
    rewrite !DictFacts.get_alter_eq, Esh, Eod, !DictFacts.keys_alter. simpl.
    unfold take_units. simpl. rewrite (alter_present_gmap _ _ _ _ Eq).
    split_and!; try done; [by destruct od|].
    intros k Hk; by apply DictFacts.get_alter_ne.
Qed.

(** C1.  A timestep made of one Deliver by a known robot: the action is
    rejected exactly when one of the six grounds holds, a rejected action
    leaves the state as it was, and an accepted one takes the units from
    the carried shelf and lowers the requirement, not below zero. *)
Theorem deliver_rejection_policy st r rb order_id product_id units :
  ids_nonempty st →
  Dict.get r (robots st) = Some rb →
  let res := update_state_log st [(r, Deliver order_id product_id units)] in
  (deliver_rejected res.2 ↔ deliver_blocked st rb order_id product_id units) ∧
  (deliver_blocked st rb order_id product_id units → res.1 = st) ∧
  (¬ deliver_blocked st rb order_id product_id units →
     delivered st res.1 rb order_id product_id units).
Proof.
  intros Hids Hr res. subst res. rewrite update_state_log_single.
  destruct (deliver_outcome st r rb order_id product_id units Hids Hr)
    as [(Hb & Hst & w & Hw & Hrej)|(Hb & Hrej & Hd)].
  - split_and!; [|done|done]. split; [done|]. intros _.
    exists w. rewrite Hw. split; [left|done].
  - split_and!; [split|..]; done.
Qed.

Lemma loaded_state_ids : ids_nonempty loaded_state.
Proof.
  split_and!.
  - intros r rb. simpl. case_decide; [|done]. by intros [= <-].
  - intros s sh H. apply list_elem_of_singleton in H. by injection H as -> _.
  - intros o od. simpl. case_decide; [|done]. by intros [= <-].
Qed.

(** Nine units asked of a shelf that holds five: rejected, nothing changes. *)
Lemma deliver_rejection_policy_witness :
  (update_state_log loaded_state [("r1", Deliver "o1" "p1" 9)]).1 = loaded_state.
Proof.
  apply (deliver_rejection_policy loaded_state "r1" (Robot (2, 2) (Some "s1")) "o1" "p1" 9).
  - exact loaded_state_ids.
  - reflexivity.
  - do 5 right. exists "s1", (Shelf None {[ "p1" := 5 ]}), 5.
    split_and!; [reflexivity..|lia].
Defined.

(** ** The pickup, move, deliver scenario *)

(** C2, as stated, fails: no Putdown is planned, so at the end the robot
    still carries the shelf, and a carried shelf has no position. *)
Lemma scenario_expected_fails :
  ¬ scenario_expected (simulate scenario_plan 3 (scenario_state ∅ ∅)).
Proof. intros (Hr & _). vm_compute in Hr. discriminate Hr. Qed.

(** C2, amended.  The three timesteps end with r1 at (2,2) still carrying
    s1, s1 without a position and holding 2 units of p1, and the
    requirement of o1 for p1 at 0; nothing else changes. *)
Theorem scenario_end_state nd hw :
  simulate scenario_plan 3 (scenario_state nd hw) =
  MkState nd hw {[ "st1" := (2, 2) ]}
          [("r1", Robot (2, 2) (Some "s1"))]
          [("s1", Shelf None {[ "p1" := 2 ]})]
          {[ "p1" ]}
          [("o1", Order "st1" {[ "p1" := 0 ]})].
Proof. vm_compute. reflexivity. Qed.

(** ** Order requirements *)

Lemma req_count_lower od p p0 u :
  0 ≤ u → 0 ≤ req_count od p →
  0 ≤ req_count (lower_requirement p0 u od) p ≤ req_count od p.
Proof.
  unfold req_count, lower_requirement. simpl. intros Hu Hq.
  rewrite lookup_alter. case_decide; [subst|lia].
  destruct (o_requirements od !! p) as [q|]; simpl in *; [|lia].
  case_decide; lia.
Qed.

Lemma step_requirement cur next ai o od p :
  units_nonneg ai →
  Dict.get o (orders next) = Some od → 0 ≤ req_count od p →
  ∃ od', Dict.get o (orders (step cur next ai)) = Some od' ∧
         o_station_id od' = o_station_id od ∧
         dom (o_requirements od') = dom (o_requirements od) ∧
         0 ≤ req_count od' p ≤ req_count od p.
Proof.
  intros Hu Ho Hq. destruct ai as [r a].
  step_cases; try (exists od; split_and!; (done || lia)).
  rewrite DictFacts.get_alter, Ho. destruct (decide (order_id = o)); simpl.
  - eexists; split; [done|]. split; [done|]. split; [|by apply req_count_lower].
    unfold lower_requirement; simpl. apply dom_alter_L.
  - exists od; split_and!; (done || lia).
Qed.

Lemma fold_requirement cur o p acts : ∀ next od,
  Forall units_nonneg acts →
  Dict.get o (orders next) = Some od →
  0 ≤ req_count od p →
  ∃ od', Dict.get o (orders (fold_left (step cur) acts next)) = Some od' ∧
         o_station_id od' = o_station_id od ∧
         dom (o_requirements od') = dom (o_requirements od) ∧
         0 ≤ req_count od' p ≤ req_count od p.
Proof.
  induction acts as [|ai acts IH]; intros next od Hall Ho Hq; simpl.
  - exists od. split_and!; (done || lia).
  - inversion Hall as [|? ? Hu Hall']; subst.
    destruct (step_requirement cur next ai o od p Hu Ho Hq) as (od1 & Ho1 & Hs1 & Hd1 & Hq1).
    destruct (IH _ _ Hall' Ho1 ltac:(lia)) as (od2 & Ho2 & Hs2 & Hd2 & Hq2).
    exists od2. split_and!; (done || congruence || lia).
Qed.

(** C4.  One call of [update_state] never raises a requirement and never
    makes it negative: for a known order whose count for the product is
    not negative, and actions whose units are not negative, the count in
    the result is between zero and the count in the input.  The order stays
    known, bound to the same station, with the same products listed. *)
Theorem requirements_non_increasing st acts o od p :
  Forall units_nonneg acts →
  Dict.get o (orders st) = Some od →
  0 ≤ req_count od p →
  ∃ od', Dict.get o (orders (update_state st acts)) = Some od' ∧
         o_station_id od' = o_station_id od ∧
         dom (o_requirements od') = dom (o_requirements od) ∧
         0 ≤ req_count od' p ≤ req_count od p.
Proof. rewrite update_state_fold. apply fold_requirement. Qed.

(** Two of the three units required are delivered. *)
Lemma requirements_non_increasing_witness :
  ∃ od', Dict.get "o1" (orders (update_state loaded_state [("r1", Deliver "o1" "p1" 2)])) = Some od' ∧
         o_station_id od' = "st1" ∧
         dom (o_requirements od') = dom ({[ "p1" := 3 ]} : gmap string Z) ∧
         0 ≤ req_count od' "p1" ≤ 3.
Proof.
  assert (Forall units_nonneg [("r1", Deliver "o1" "p1" 2)]) as Hu.
  { constructor; [|constructor]. unfold units_nonneg. simpl. lia. }
  assert (0 ≤ req_count (Order "st1" {[ "p1" := 3 ]}) "p1") as Hq.
  { vm_compute. discriminate. }
  exact (requirements_non_increasing loaded_state [("r1", Deliver "o1" "p1" 2)] "o1"
           (Order "st1" {[ "p1" := 3 ]}) "p1" Hu eq_refl Hq).
Defined.

(** ** Pickup and Putdown *)

Lemma shelf_at_Some p shs sid :
  shelf_at p shs = Some sid → ∃ sh, (sid, sh) ∈ shs ∧ s_pos sh = Some p.
Proof.
  unfold shelf_at. destruct (find _ shs) as [[k v]|] eqn:E; [|done].
  intros [= <-]. apply find_some in E as [Hin Hp].
  apply bool_decide_eq_true in Hp. exists v. split; [|done].
  by apply list_elem_of_In.
Qed.

Lemma shelf_at_None p shs :
  shelf_at p shs = None → ∀ sid sh, (sid, sh) ∈ shs → s_pos sh ≠ Some p.
Proof.
  unfold shelf_at. destruct (find _ shs) as [[k v]|] eqn:E; [done|].
  intros _ sid sh Hin Hp. apply list_elem_of_In in Hin.
  pose proof (find_none _ _ E _ Hin) as Hf. simpl in Hf.
  by apply bool_decide_eq_false in Hf.
Qed.

Lemma other_shelf_at_Some p carried shs sid :
  other_shelf_at p carried shs = Some sid →
  ∃ sh, (sid, sh) ∈ shs ∧ s_pos sh = Some p ∧ sid ≠ carried.
Proof.
  unfold other_shelf_at. destruct (find _ shs) as [[k v]|] eqn:E; [|done].
  intros [= <-]. apply find_some in E as [Hin Hp]. simpl in Hp.
  apply andb_true_iff in Hp as [Hp Hk].
  apply bool_decide_eq_true in Hp. apply negb_true_iff, bool_decide_eq_false in Hk.
  exists v. split_and!; [by apply list_elem_of_In|done..].
Qed.

Lemma other_shelf_at_None p carried shs :
  (∀ sid sh, (sid, sh) ∈ shs → s_pos sh = Some p → sid = carried) →
  other_shelf_at p carried shs = None.
Proof.
  intros H. destruct (other_shelf_at p carried shs) as [sid|] eqn:E; [|done].
  apply other_shelf_at_Some in E as (sh & Hin & Hp & Hne). by destruct (Hne (H _ _ Hin Hp)).
Qed.

(** C6, as stated, fails where the cell is a highway: the Putdown is
    refused there and the robot keeps the shelf. *)
Lemma pickup_putdown_on_highway :
  Dict.get "r1" (robots highway_state) = Some (Robot (1, 1) None) ∧
  Dict.get "s1" (shelves highway_state) = Some (Shelf (Some (1, 1)) ∅) ∧
  (∀ s' sh', (s', sh') ∈ shelves highway_state → s_pos sh' = Some (1, 1) → s' = "s1") ∧
  Dict.get "r1" (robots (update_state (update_state highway_state [("r1", Pickup)])
                                      [("r1", Putdown)]))
  = Some (Robot (1, 1) (Some "s1")) ∧
  s_pos <$> Dict.get "s1" (shelves (update_state (update_state highway_state [("r1", Pickup)])
                                                 [("r1", Putdown)]))
  = Some None.
Proof.
  split_and!; try (vm_compute; reflexivity).
  intros s' sh' Hin _. apply list_elem_of_singleton in Hin. congruence.
Qed.

(** C6, amended.  Where the robot carries nothing, stands on a cell that
    is not a highway, and exactly one shelf stands on that cell, a Pickup
    in one timestep and a Putdown in the next put the shelf back on the
    cell and leave the robot carrying nothing; the whole state is as it
    was. *)
Theorem pickup_putdown_restores st r rb s sh :
  keys_unique st →
  Dict.get r (robots st) = Some rb →
  r_carries rb = None →
  Dict.get s (shelves st) = Some sh →
  s_pos sh = Some (r_pos rb) →
  (∀ s' sh', (s', sh') ∈ shelves st → s_pos sh' = Some (r_pos rb) → s' = s) →
  r_pos rb ∉ highways st →
  let st2 := update_state (update_state st [(r, Pickup)]) [(r, Putdown)] in
  s_pos <$> Dict.get s (shelves st2) = Some (Some (r_pos rb)) ∧
  r_carries <$> Dict.get r (robots st2) = Some None ∧
  st2 = st.
Proof.
  intros (_ & Hnd & _) Hr Hc Hs Hp Huniq Hhw st2.
  assert (st2 = st) as ->; [|rewrite Hs, Hr; simpl; by rewrite Hp, Hc].
  subst st2. unfold update_state. rewrite !update_state_log_single.
  assert (shelf_at (r_pos rb) (shelves st) = Some s) as Hat.
  { destruct (shelf_at (r_pos rb) (shelves st)) as [sid|] eqn:Eat.
    - apply shelf_at_Some in Eat as (sh0 & Hin0 & Hp0). f_equal. eauto.
    - exfalso. apply (shelf_at_None _ _ Eat s sh); [by apply DictFacts.get_Some_elem|done]. }
  assert ((apply_action st st (r, Pickup)).1 =
          if truthy (Some s)
          then with_shelves (Dict.alter pop_pos s)
                 (with_robots (Dict.alter (set_carries (Some s)) r) st)
          else st) as ->.
  { unfold apply_action. rewrite Hr, Hc, Hat. cbn [truthy]. by destruct (negb _). }
  destruct (truthy (Some s)) eqn:Et.
  2: { unfold apply_action. by rewrite Hr, Hc. }
  unfold apply_action, with_shelves, with_robots. cbn [robots shelves highways].
  rewrite DictFacts.get_alter_eq, Hr. cbn [fmap option_fmap option_map set_carries r_carries r_pos].
  rewrite Et. cbn [negb].
  rewrite bool_decide_eq_false_2 by done.
  rewrite other_shelf_at_None.
  2: { intros k v Hin Hk. destruct (decide (k = s)) as [|Hne]; [done|].
       apply DictFacts.elem_get_NoDup in Hin; [|by rewrite DictFacts.keys_alter].
       rewrite DictFacts.get_alter_ne in Hin by done.
       apply DictFacts.get_Some_elem in Hin. eauto. }
  unfold with_shelves, with_robots. simpl.
  rewrite !DictFacts.alter_compose. destruct st as [nd hw ps rs shs pr os]; simpl in *.
  f_equal.
  - apply DictFacts.alter_id. intros v Hv. rewrite Hr in Hv. injection Hv as <-.
    destruct rb; simpl in *; by subst.
  - apply DictFacts.alter_id. intros v Hv. rewrite Hs in Hv. injection Hv as <-.
    destruct sh; simpl in *; by subst.
Qed.

Lemma scenario_state_keys : keys_unique (scenario_state ∅ ∅).
Proof. split_and!; apply NoDup_singleton. Qed.

(** The shelf of the scenario, picked up and put down again. *)
Lemma pickup_putdown_restores_witness :
  update_state (update_state (scenario_state ∅ ∅) [("r1", Pickup)]) [("r1", Putdown)]
  = scenario_state ∅ ∅.
Proof.
  apply (pickup_putdown_restores (scenario_state ∅ ∅) "r1" (Robot (1, 1) None) "s1"
           (Shelf (Some (1, 1)) {[ "p1" := 5 ]})).
  - exact scenario_state_keys.
  - reflexivity.
  - reflexivity.
  - reflexivity.
  - reflexivity.
  - intros s' sh' H _. apply list_elem_of_singleton in H. by injection H as -> _.
  - simpl. apply not_elem_of_empty.
Defined.

(** ** At most one carrier per shelf *)

Lemma get_alter_Some {V} (f : V → V) k k' d v :
  Dict.get k' (Dict.alter f k d) = Some v →
  ∃ v0, Dict.get k' d = Some v0 ∧ ((k ≠ k' ∧ v = v0) ∨ (k = k' ∧ v = f v0)).
Proof.
  rewrite DictFacts.get_alter. case_decide as Hk.
  - destruct (Dict.get k' d) as [v0|]; [|done]. intros [= <-]. eauto.
  - intros H. eauto.
Qed.

Lemma step_load_origin cur next acts ai :
  NoDup (Dict.keys (shelves cur)) →
  ai ∈ acts →
  load_origin cur next acts → load_origin cur (step cur next ai) acts.
Proof.
  intros Hnd Hin HL. destruct ai as [r0 a]. unfold load_origin.
  step_cases; try done; intros R RB S HR HC.
  - (* move *)
    apply get_alter_Some in HR as (rb0 & Hr0 & [[_ ->]|[_ ->]]); eapply HL; eauto.
  - (* pickup *)
    apply get_alter_Some in HR as (rb0 & Hr0 & [[_ ->]|[-> ->]]); [eapply HL; eauto|].
    simpl in HC. injection HC as <-. right. split; [done|].
    match goal with H : shelf_at _ _ = Some _ |- _ =>
      apply shelf_at_Some in H as (SH & Hsh & Hp) end.
    eexists _, SH. split_and!; [done| |done]. by apply DictFacts.elem_get_NoDup.
  - (* putdown *)
    apply get_alter_Some in HR as (rb0 & Hr0 & [[_ ->]|[_ ->]]); [eapply HL; eauto|done].
Qed.

Lemma step_carried_off_grid cur next acts ai :
  carried_once cur → carried_off_grid cur →
  load_origin cur next acts →
  carried_off_grid next → carried_off_grid (step cur next ai).
Proof.
  intros Ja Jb HL HB. destruct ai as [r0 a]. unfold carried_off_grid.
  step_cases; try done; intros R RB S SH HR HC HS.
  - (* move *)
    apply get_alter_Some in HR as (rb0 & Hr0 & [[_ ->]|[_ ->]]); eapply HB; eauto.
  - (* pickup *)
    apply get_alter_Some in HS as (sh0 & Hs0 & [[Hne ->]|[-> ->]]); [|done].
    apply get_alter_Some in HR as (rb0 & Hr0 & [[_ ->]|[-> ->]]); [eapply HB; eauto|].
    simpl in HC. congruence.
  - (* putdown *)
    apply get_alter_Some in HR as (rb0 & Hr0 & [[Hner ->]|[_ ->]]); [|done].
    apply get_alter_Some in HS as (sh0 & Hs0 & [[Hne ->]|[-> ->]]); [eapply HB; eauto|].
    exfalso. destruct (HL _ _ _ Hr0 HC) as [(rbc & Hrc & Hcc)|(_ & rbc & shc & Hrc & Hsc & Hpc)].
    + apply Hner.
      match goal with
      | H1 : Dict.get r0 (robots cur) = Some ?x, H2 : r_carries ?x = Some _ |- _ =>
          apply (Ja _ _ _ _ _ H1 Hrc H2 Hcc)
      end.
    + match goal with
      | H1 : Dict.get r0 (robots cur) = Some ?x, H2 : r_carries ?x = Some _ |- _ =>
          pose proof (Jb _ _ _ _ H1 H2 Hsc)
      end. congruence.
  - (* deliver, requirement lowered *)
    apply get_alter_Some in HS as (sh0 & Hs0 & [[_ ->]|[_ ->]]); simpl; eapply HB; eauto.
  - (* deliver, requirement not listed *)
    apply get_alter_Some in HS as (sh0 & Hs0 & [[_ ->]|[_ ->]]); simpl; eapply HB; eauto.
Qed.

Lemma fold_carry cur acts : ∀ todo next,
  NoDup (Dict.keys (shelves cur)) →
  carried_once cur → carried_off_grid cur →
  todo ⊆ acts →
  load_origin cur next acts → carried_off_grid next →
  load_origin cur (fold_left (step cur) todo next) acts ∧
  carried_off_grid (fold_left (step cur) todo next).
Proof.
  induction todo as [|ai todo IH]; intros next Hnd Ja Jb Hsub HL HB; simpl; [done|].
  apply IH; try done.
  - intros x Hx. apply Hsub. by right.
  - apply step_load_origin; [done| |done]. apply Hsub. left.
  - by eapply step_carried_off_grid.
Qed.

Lemma update_state_carry st acts :
  keys_unique st → carried_once st → carried_off_grid st → pickups_apart st acts →
  keys_unique (update_state st acts) ∧ carried_once (update_state st acts) ∧
  carried_off_grid (update_state st acts).
Proof.
  intros (Hkr & Hks & Hko) Ja Jb Hapart. rewrite update_state_fold.
  destruct (fold_carry st acts acts st) as [HL HB]; try done.
  { intros r rb s Hr Hc. left. eauto. }
  split_and!; [|  |done].
  - destruct (fold_keys st acts st) as (E1 & E2 & E3).
    unfold keys_unique. by rewrite E1, E2, E3.
  - intros r1 r2 rb1 rb2 s H1 H2 C1 C2.
    destruct (decide (r1 = r2)) as [|Hne]; [done|exfalso].
    destruct (HL _ _ _ H1 C1) as [(c1 & Hc1 & Hs1)|(Hp1 & c1 & sh1 & Hc1 & Hs1 & Hpos1)];
    destruct (HL _ _ _ H2 C2) as [(c2 & Hc2 & Hs2)|(Hp2 & c2 & sh2 & Hc2 & Hs2 & Hpos2)].
    + apply Hne. apply (Ja _ _ _ _ _ Hc1 Hc2 Hs1 Hs2).
    + pose proof (Jb _ _ _ _ Hc1 Hs1 Hs2). congruence.
    + pose proof (Jb _ _ _ _ Hc2 Hs2 Hs1). congruence.
    + apply (Hapart r1 r2 c1 c2); try done. congruence.
Qed.

(** C5, as stated, fails: both pickups of one timestep read the shelf
    positions of the start of the timestep, so two robots on the same cell
    both take the shelf that stands there. *)
Lemma two_pickups_share_a_shelf :
  (∀ r rb, Dict.get r (robots twin_state) = Some rb → r_carries rb = None) ∧
  carried_once twin_state ∧
  reachable twin_state (update_state twin_state [("r1", Pickup); ("r2", Pickup)]) ∧
  ¬ carried_once (update_state twin_state [("r1", Pickup); ("r2", Pickup)]).
Proof.
  split_and!.
  - intros r rb. simpl. repeat case_decide; naive_solver.
  - intros r1 r2 rb1 rb2 s. simpl. repeat case_decide; naive_solver.
  - apply reach_step, reach_init.
  - intros H.
    specialize (H "r1" "r2" (Robot (1, 1) (Some "s1")) (Robot (1, 1) (Some "s1")) "s1").
    vm_compute in H. specialize (H eq_refl eq_refl eq_refl eq_refl). discriminate H.
Qed.

(** C5, amended.  Start from a state with unique keys in which no two
    robots carry the same shelf and no carried shelf has a position (any
    state in which nobody carries anything is one).  Along timesteps in
    which the robots that pick up stand on pairwise different cells, no
    two distinct robots ever carry the same shelf. *)
Theorem one_carrier_per_shelf init st :
  keys_unique init → carried_once init → carried_off_grid init →
  reachable_apart init st →
  carried_once st.
Proof.
  intros Hk Ja Jb Hreach.
  enough (keys_unique st ∧ carried_once st ∧ carried_off_grid st) by tauto.
  induction Hreach as [|st acts Hreach IH Hapart]; [done|].
  destruct IH as (Hk' & Ja' & Jb'). by apply update_state_carry.
Qed.

Lemma twin_state_keys : keys_unique twin_state.
Proof.
  split_and!; simpl; [|apply NoDup_singleton|constructor].
  apply NoDup_cons. split; [|apply NoDup_singleton].
  intros H. by apply list_elem_of_singleton in H.
Qed.

Lemma twin_state_idle r rb : Dict.get r (robots twin_state) = Some rb → r_carries rb = None.
Proof. simpl. repeat case_decide; by intros [= <-]. Qed.

Lemma nothing_carried st :
  (∀ r rb, Dict.get r (robots st) = Some rb → r_carries rb = None) →
  carried_once st ∧ carried_off_grid st.
Proof.
  intros H. split.
  - intros r1 r2 rb1 rb2 s H1 _ C1 _. rewrite (H _ _ H1) in C1. done.
  - intros r rb s sh H1 C1 _. rewrite (H _ _ H1) in C1. done.
Qed.

(** One of the twin robots picks the shelf up. *)
Lemma one_carrier_per_shelf_witness :
  carried_once (update_state twin_state [("r1", Pickup)]).
Proof.
  apply (one_carrier_per_shelf twin_state).
  - exact twin_state_keys.
  - exact (proj1 (nothing_carried twin_state twin_state_idle)).
  - exact (proj2 (nothing_carried twin_state twin_state_idle)).
  - apply reach_apart_step; [apply reach_apart_init|].
    intros r1 r2 rb1 rb2 H1 H2 Hne.
    apply list_elem_of_singleton in H1. apply list_elem_of_singleton in H2. congruence.
Defined.

(** The condition on the initial state is needed as well: from
    [shared_state], where the carried shelf still has a position, one
    Pickup makes two carriers. *)
Example carried_shelf_with_position :
  carried_once shared_state ∧
  ¬ carried_once (update_state shared_state [("r2", Pickup)]).
Proof.
  split.
  - intros r1 r2 rb1 rb2 s. simpl. repeat case_decide; naive_solver.
  - intros H.
    specialize (H "r1" "r2" (Robot (1, 1) (Some "s1")) (Robot (1, 1) (Some "s1")) "s1").
    vm_compute in H. specialize (H eq_refl eq_refl eq_refl eq_refl). discriminate H.
Qed.

(** ** Well-formedness is kept *)

Lemma update_state_keys_unique st acts : keys_unique st → keys_unique (update_state st acts).
Proof.
  intros (H1 & H2 & H3). rewrite update_state_fold.
  destruct (fold_keys st acts st) as (E1 & E2 & E3).
  unfold keys_unique. by rewrite E1, E2, E3.
Qed.

Lemma step_ids_nonempty cur next ai : ids_nonempty next → ids_nonempty (step cur next ai).
Proof.
  intros (Hr & Hs & Ho). destruct ai as [r a].
  assert (∀ f (s : string) (sh : shelf) k, (s, sh) ∈ Dict.alter f k (shelves next) → s ≠ EmptyString) as Hsh.
  { intros f s sh k H. apply DictFacts.elem_of_alter in H as [H|(v & H & [= -> ->])]; eauto. }
  step_cases; try done; split_and!; try done; simpl; eauto.
  - intros R RB HR. apply get_alter_Some in HR as (rb0 & Hr0 & [[_ ->]|[_ ->]]); simpl; eauto.
  - intros R RB HR. apply get_alter_Some in HR as (rb0 & Hr0 & [[_ ->]|[_ ->]]); simpl; eauto.
    intros [= ->]. done.
  - intros R RB HR. apply get_alter_Some in HR as (rb0 & Hr0 & [[_ ->]|[_ ->]]); simpl; eauto.
  - intros O OD HO. apply get_alter_Some in HO as (od0 & Ho0 & [[_ ->]|[_ ->]]); simpl; eauto.
Qed.
Lemma update_state_ids_nonempty st acts : ids_nonempty st → ids_nonempty (update_state st acts).
Proof.
  rewrite update_state_fold. generalize st at 2 as cur. intros cur. revert st.
  induction acts as [|ai acts IH]; intros next H; simpl; [done|].
  apply IH. by apply step_ids_nonempty.
Qed.

(** ** The initial-state parser *)

Lemma read_fact_products e f :
  products (pe_state (read_fact e f)) = fact_products f ∪ products (pe_state e).
Proof. destruct f; simpl; set_solver. Qed.

Lemma read_facts_products facts : ∀ e,
  products (pe_state (fold_left read_fact facts e)) = mentioned_products facts ∪ products (pe_state e).
Proof.
  unfold mentioned_products.
  induction facts as [|f facts IH]; intros e; simpl; [set_solver|].
  rewrite IH, read_fact_products. set_solver.
Qed.

Lemma fill_counts_lookup prods counts p :
  fill_counts prods counts !! p =
  match counts !! p with
  | Some v => Some v
  | None => if decide (p ∈ prods) then Some 0 else None
  end.
Proof.
  unfold fill_counts.
  set (P := λ (r : gmap string Z) (X : gset string),
              ∀ p, r !! p = match counts !! p with
                            | Some v => Some v
                            | None => if decide (p ∈ X) then Some 0 else None
                            end).
  assert (P (set_fold setdefault_zero counts prods) prods) as H; [|exact (H p)].
  clear p. apply set_fold_ind_L; unfold P.
  - intros p. destruct (counts !! p); [done|]. by rewrite decide_False by set_solver.
  - intros x X r Hx IH p. unfold setdefault_zero.
    destruct (r !! x) as [v|] eqn:Ex.
    + rewrite IH. destruct (counts !! p) eqn:Ep; [done|].
      destruct (decide (p ∈ X)) as [Hin|Hnin].
      * by rewrite decide_True by set_solver.
      * destruct (decide (p = x)) as [->|Hne].
        -- rewrite IH, Ep in Ex. by rewrite decide_False in Ex.
        -- by rewrite decide_False by set_solver.
    + destruct (decide (p = x)) as [->|Hne].
      * rewrite lookup_insert_eq. rewrite IH in Ex.
        destruct (counts !! x); [done|]. by rewrite decide_True by set_solver.
      * rewrite lookup_insert_ne by done. rewrite IH.
        destruct (counts !! p); [done|].
        destruct (decide (p ∈ X)); [by rewrite decide_True by set_solver|
                                     by rewrite decide_False by set_solver].
Qed.

Lemma fill_counts_total prods counts p : p ∈ prods → is_Some (fill_counts prods counts !! p).
Proof.
  intros Hp. rewrite fill_counts_lookup. destruct (counts !! p); [eauto|].
  rewrite decide_True by done. eauto.
Qed.

(** C7.  In the state that [parse_init] returns, every shelf and every
    order has an entry for every product of the global product universe,
    which is the [products] set of the state. *)
Theorem parse_init_no_missing_keys facts st dims :
  parse_init (Some facts) = Some (st, dims) →
  products st = mentioned_products facts ∧
  (∀ sid sh p, (sid, sh) ∈ shelves st → p ∈ mentioned_products facts →
               is_Some (s_quantities sh !! p)) ∧
  (∀ oid od p, (oid, od) ∈ orders st → p ∈ mentioned_products facts →
               is_Some (o_requirements od !! p)).
Proof.
  unfold parse_init, parse_init_log, finish_parse. simpl.
  set (e := fold_left read_fact facts parse_start).
  destruct (fold_left link_shelf _ _) as [shs w1].
  destruct (fold_left (link_order _) _ _) as [ods w2]. simpl.
  intros [= <- <-]. simpl.
  assert (products (pe_state e) = mentioned_products facts) as Hprod.
  { subst e. rewrite read_facts_products. simpl. set_solver. }
  rewrite Hprod. split_and!; [done|..].
  - intros sid sh p Hin Hp. apply list_elem_of_fmap in Hin as ([k v] & [= -> ->] & _).
    simpl. by apply fill_counts_total.
  - intros oid od p Hin Hp. apply list_elem_of_fmap in Hin as ([k v] & [= -> ->] & _).
    simpl. by apply fill_counts_total.
Qed.

(** The two init files of the examples give the example states. *)
Example parse_scenario : parse_init (Some scenario_facts) = Some (scenario_state ∅ ∅, (0, 0)).
Proof. vm_compute. reflexivity. Qed.

Example parse_twin : parse_init (Some twin_facts) = Some (twin_state, (1, 1)).
Proof. vm_compute. reflexivity. Qed.

(** The init file of the scenario. *)
Lemma parse_init_no_missing_keys_witness :
  products (scenario_state ∅ ∅) = mentioned_products scenario_facts ∧
  (∀ sid sh p, (sid, sh) ∈ shelves (scenario_state ∅ ∅) → p ∈ mentioned_products scenario_facts →
               is_Some (s_quantities sh !! p)) ∧
  (∀ oid od p, (oid, od) ∈ orders (scenario_state ∅ ∅) → p ∈ mentioned_products scenario_facts →
               is_Some (o_requirements od !! p)).
Proof.
  apply (parse_init_no_missing_keys scenario_facts (scenario_state ∅ ∅) (0, 0)).
  vm_compute. reflexivity.
Defined.

Lemma read_fact_reading e f : reading e → reading (read_fact e f).
Proof.
  intros (Hr & Hs & Ho & Hc).
  destruct f; unfold reading, read_fact, with_state, with_shelves, with_robots, add_product;
    simpl; try done.
  - split_and!; try done.
    + by apply DictFacts.NoDup_keys_set.
    + intros r rb H. apply DictFacts.elem_of_set in H as [[= _ ->]|H]; [done|eauto].
  - split_and!; try done.
    destruct (Dict.get shelf_id (shelves (pe_state e)));
      [by apply DictFacts.NoDup_keys_alter|by apply DictFacts.NoDup_keys_set].
Qed.

Lemma read_facts_reading facts : ∀ e, reading e → reading (fold_left read_fact facts e).
Proof.
  induction facts as [|f facts IH]; intros e H; simpl; [done|].
  apply IH. by apply read_fact_reading.
Qed.

Lemma read_fact_reading_ids e f :
  fact_ids_nonempty f → reading_ids e → reading_ids (read_fact e f).
Proof.
  intros Hf (Hs & Ho).
  destruct f; unfold reading_ids, read_fact, with_state, with_shelves, with_robots, add_product;
    simpl in *; try done.
  - split; [|done]. intros s sh H.
    destruct (Dict.get shelf_id (shelves (pe_state e))).
    + apply DictFacts.elem_of_alter in H as [H|(v & H & [= -> ->])]; eauto.
    + apply DictFacts.elem_of_set in H as [[= -> _]|H]; [done|eauto].
  - split; [done|]. intros o sid. simpl. rewrite lookup_insert.
    case_decide; [by intros [= <-]|eauto].
Qed.

Lemma read_facts_reading_ids facts : ∀ e,
  Forall fact_ids_nonempty facts → reading_ids e → reading_ids (fold_left read_fact facts e).
Proof.
  induction facts as [|f facts IH]; intros e Hall H; simpl; [done|].
  inversion Hall; subst. apply IH; [done|]. by apply read_fact_reading_ids.
Qed.

Lemma link_shelves_keys items : ∀ acc,
  Dict.keys (fold_left link_shelf items acc).1 = Dict.keys acc.1.
Proof.
  induction items as [|[s q] items IH]; intros acc; simpl; [done|].
  rewrite IH. destruct (Dict.get s acc.1); simpl; [apply DictFacts.keys_alter|done].
Qed.

Lemma link_orders_keys stations items : ∀ acc,
  NoDup (Dict.keys acc.1) →
  NoDup (Dict.keys (fold_left (link_order stations) items acc).1).
Proof.
  induction items as [|[o q] items IH]; intros acc H; simpl; [done|].
  apply IH. destruct (stations !! o); simpl; [by apply DictFacts.NoDup_keys_set|done].
Qed.

Lemma link_orders_stations stations items : ∀ acc,
  (∀ o od, (o, od) ∈ acc.1 → ∃ o', stations !! o' = Some (o_station_id od)) →
  ∀ o od, (o, od) ∈ (fold_left (link_order stations) items acc).1 →
          ∃ o', stations !! o' = Some (o_station_id od).
Proof.
  induction items as [|[o q] items IH]; intros acc H; simpl; [done|].
  apply IH. destruct (stations !! o) as [sid|] eqn:E; simpl; [|done].
  intros o1 od1 Hin. apply DictFacts.elem_of_set in Hin as [[= -> ->]|Hin]; [eauto|eauto].
Qed.

Lemma keys_fmap_values {A B} (f : string * A → B) (d : list (string * A)) :
  Dict.keys ((λ kv, (kv.1, f kv)) <$> d) = Dict.keys d.
Proof. unfold Dict.keys. induction d as [|[k v] d IH]; simpl; by f_equal. Qed.

(** What [parse_init] returns is a well-formed state in which nobody
    carries anything. *)
Lemma parse_init_well_formed facts st dims :
  parse_init (Some facts) = Some (st, dims) →
  keys_unique st ∧ (∀ r rb, Dict.get r (robots st) = Some rb → r_carries rb = None).
Proof.
  unfold parse_init, parse_init_log, finish_parse. simpl.
  pose proof (read_facts_reading facts parse_start) as (Hr & Hs & Ho & Hc).
  { split_and!; simpl; try done; try constructor. intros r rb H. by apply elem_of_nil in H. }
  set (e := fold_left read_fact facts parse_start) in *.
  pose proof (link_shelves_keys (shelf_quantities_temp e) (shelves (pe_state e), pe_warnings e)) as Hk.
  destruct (fold_left link_shelf _ _) as [shs w1]. simpl in Hk.
  pose proof (link_orders_keys (order_station_temp e) (order_reqs_temp e) (orders (pe_state e), w1)) as Hko.
  destruct (fold_left (link_order _) _ _) as [ods w2]. simpl in Hko.
  intros [= <- <-]. split.
  - unfold keys_unique. simpl. rewrite !keys_fmap_values, Hk. split_and!; [done..|].
    apply Hko. rewrite Ho. constructor.
  - simpl. intros r rb H. apply DictFacts.get_Some_elem in H. eauto.
Qed.

Lemma parse_init_ids_nonempty facts st dims :
  Forall fact_ids_nonempty facts →
  parse_init (Some facts) = Some (st, dims) → ids_nonempty st.
Proof.
  intros Hall. unfold parse_init, parse_init_log, finish_parse. simpl.
  pose proof (read_facts_reading facts parse_start) as (Hr & Hs & Ho & Hc).
  { split_and!; simpl; try done; try constructor. intros r rb H. by apply elem_of_nil in H. }
  pose proof (read_facts_reading_ids facts parse_start Hall) as (Hsk & Hst).
  { split; [intros s sh H; by apply elem_of_nil in H|]. intros o sid H. simpl in H. by apply lookup_empty_Some in H. }
  set (e := fold_left read_fact facts parse_start) in *.
  pose proof (link_shelves_keys (shelf_quantities_temp e) (shelves (pe_state e), pe_warnings e)) as Hk.
  destruct (fold_left link_shelf _ _) as [shs w1]. simpl in Hk.
  pose proof (link_orders_stations (order_station_temp e) (order_reqs_temp e) (orders (pe_state e), w1)) as Hos.
  destruct (fold_left (link_order _) _ _) as [ods w2]. simpl in Hos.
  intros [= <- <-]. split_and!; simpl.
  - intros r rb H. apply DictFacts.get_Some_elem in H. rewrite (Hc _ _ H). done.
  - intros s sh H. apply list_elem_of_fmap in H as ([k v] & [= -> ->] & H). simpl.
    assert (k ∈ Dict.keys shs) as Hin.
    { apply list_elem_of_fmap. by exists (k, v). }
    rewrite Hk in Hin. apply list_elem_of_fmap in Hin as ([k' v'] & -> & Hin). eauto.
  - intros o od H. apply DictFacts.get_Some_elem in H.
    apply list_elem_of_fmap in H as ([k v] & [= -> ->] & H). simpl.
    destruct (Hos ltac:(rewrite Ho; intros ? ? X; by apply elem_of_nil in X) _ _ H) as (o' & Ho').
    eauto.
Qed.

(** From a parsed initial state, along timesteps whose pickups are apart,
    no shelf ever has two carriers. *)
Lemma parsed_one_carrier_per_shelf facts init dims st :
  parse_init (Some facts) = Some (init, dims) →
  reachable_apart init st → carried_once st.
Proof.
  intros Hp Hreach. destruct (parse_init_well_formed _ _ _ Hp) as [Hk Hidle].
  destruct (nothing_carried _ Hidle) as [Ja Jb].
  enough (keys_unique st ∧ carried_once st ∧ carried_off_grid st) by tauto.
  induction Hreach as [|st acts Hreach IH Hapart]; [done|].
  destruct IH as (Hk' & Ja' & Jb'). by apply update_state_carry.
Qed.

(** ** The plan parser and the program *)

Section plan_facts.
Variable match_occurs : string → option (string * string * Z).
Variable parse_action_string : string → action.

Lemma missing_fields_no_plan data : missing_fields data → no_plan_found data.
Proof.
  intros (fields & -> & [Hc|(call & rest & Hc & Hw)]); exists fields; (split; [done|]).
  - left. unfold lacks. by rewrite Hc.
  - right. exists call, rest. split; [done|]. unfold lacks. by rewrite Hw.
Qed.

(** The warning branch is taken on the documents of [no_plan_found], and
    on no other. *)
Lemma parse_plan_no_plan_found data :
  no_plan_found data ↔
  parse_plan_log match_occurs parse_action_string (PlanJson data) = Some (∅, 0, [PNoPlanFound]).
Proof.
  split.
  - intros (fields & -> & [Hc|(call & rest & Hc & Hw)]); simpl; unfold parse_plan_data; simpl.
    + unfold lacks in Hc. by rewrite Hc.
    + rewrite Hc. simpl. unfold lacks in Hw. by rewrite Hw.
  - destruct data as [| | | | |items|fields]; simpl; unfold parse_plan_data; simpl; try done.
    intros H. exists fields. split; [done|].
    destruct (json_truthy (default JNull (Dict.get "Call" fields))) eqn:Ec; simpl in H; [|by left].
    right. destruct (Dict.get "Call" fields) as [call|] eqn:Eg; [|done]. simpl in *.
    destruct call as [| | | |s|[|item items]|fs]; simpl in H; try done.
    + by destruct s.
    + destruct item as [| | | | | |call]; simpl in H; try done.
      exists call, items. split; [done|]. unfold lacks.
      destruct (json_truthy (default JNull (Dict.get "Witnesses" call))) eqn:Ew; simpl in H; [|done].
      exfalso. revert H. clear.
      destruct (json_first _) as [witness|]; simpl; [|done].
      destruct (match witness with JObj fields => _ | _ => None end) as [atoms|]; simpl; [|done].
      destruct (json_iter atoms) as [l|]; simpl; [|done].
      destruct (read_atoms _ _ _ _ _) as [res|]; simpl; [|done].
      intros [= _ _].
Qed.

(** A document that is not a dictionary, or whose first call is not one,
    is an exception, hence [return None, 0]. *)
Lemma parse_plan_not_a_document data :
  not_a_plan_document data →
  parse_plan_log match_occurs parse_action_string (PlanJson data) = None.
Proof.
  destruct data as [| | | | |items|fields]; simpl; unfold parse_plan_data; simpl; try done.
  intros [Hc Hs]. unfold lacks in Hc.
  destruct (json_truthy (default JNull (Dict.get "Call" fields))) eqn:Ec; [|done]. simpl.
  destruct (Dict.get "Call" fields) as [call|]; [|done]. simpl in *.
  destruct call as [| | | |s|[|item items]|fs]; simpl; try done.
  - by destruct s.
  - by destruct item.
Qed.

(** Every decoded document is of one of the three kinds. *)
Lemma document_kinds data :
  no_plan_found data ∨ not_a_plan_document data ∨ has_witnesses data.
Proof.
  destruct data as [| | | | |items|fields]; try (right; left; exact I).
  destruct (json_truthy (default JNull (Dict.get "Call" fields))) eqn:Ec;
    [|left; exists fields; split; [done|by left]].
  assert (¬ lacks "Call" fields) as Hc by (unfold lacks; by rewrite Ec).
  destruct (Dict.get "Call" fields) as [call|] eqn:Eg;
    [|by right; left; split; [|rewrite Eg]].
  destruct call as [| | | |s|[|item items]|fs];
    try (by right; left; split; [|rewrite Eg]).
  destruct item as [| | | | | |call];
    try (by right; left; split; [|rewrite Eg]).
  destruct (json_truthy (default JNull (Dict.get "Witnesses" call))) eqn:Ew.
  - right. right. exists fields, call, items. split_and!; [done..|].
    unfold lacks. by rewrite Ew.
  - left. exists fields. split; [done|]. right. by exists call, items.
Qed.

(** C8, amended.  A decoded document without the expected fields is
    fatal in some cases only.  Where the document is a dictionary that
    lacks ["Call"] (no entry, or a false one), or whose first call is a
    dictionary that lacks ["Witnesses"], [parse_plan] warns and returns
    the empty plan with maximum time 0, and the run completes showing the
    initial state only; the warning is given on these documents and on no
    other.  Where the document is not a dictionary, or its ["Call"] is
    true without being a list that starts with a dictionary, the run ends
    with status 1, as it does for a missing or undecodable plan file.
    Every other decoded document has a first call with witnesses. *)
Theorem missing_fields_give_empty_plan init_file initial_state grid_dims data :
  parse_init init_file = Some (initial_state, grid_dims) →
  (no_plan_found data ↔
   parse_plan_log match_occurs parse_action_string (PlanJson data) = Some (∅, 0, [PNoPlanFound])) ∧
  (no_plan_found data →
   parse_plan match_occurs parse_action_string (PlanJson data) = Some (∅, 0) ∧
   main match_occurs parse_action_string init_file (PlanJson data) = Completed [initial_state]) ∧
  (not_a_plan_document data →
   parse_plan match_occurs parse_action_string (PlanJson data) = None ∧
   main match_occurs parse_action_string init_file (PlanJson data) = Exit1) ∧
  (no_plan_found data ∨ not_a_plan_document data ∨ has_witnesses data) ∧
  main match_occurs parse_action_string init_file NoPlanFile = Exit1 ∧
  main match_occurs parse_action_string init_file NotJson = Exit1.
Proof.
  intros Hinit. split_and!.
  - apply parse_plan_no_plan_found.
  - intros H. apply parse_plan_no_plan_found in H.
    unfold main, parse_plan. by rewrite Hinit, H.
  - intros H. apply parse_plan_not_a_document in H.
    unfold main, parse_plan. by rewrite Hinit, H.
  - apply document_kinds.
  - unfold main. by rewrite Hinit.
  - unfold main. by rewrite Hinit.
Qed.

End plan_facts.

(** The document [{}] has none of the expected fields. *)
Lemma empty_document : missing_fields (JObj []).
Proof. exists []. split; [reflexivity|]. left. reflexivity. Qed.

(** C8, as stated, fails: on the document [{}] the run is not aborted, it
    completes and shows the initial state. *)
Lemma empty_document_is_not_fatal :
  missing_fields (JObj []) ∧
  main no_occurs Unknown (Some scenario_facts) (PlanJson (JObj [])) ≠ Exit1.
Proof. split; [exact empty_document|]. vm_compute. discriminate. Qed.

Lemma empty_document_no_plan : no_plan_found (JObj []).
Proof. apply missing_fields_no_plan. exact empty_document. Qed.

(** The scenario's init file with the document [{}]. *)
Lemma missing_fields_give_empty_plan_witness :
  parse_plan no_occurs Unknown (PlanJson (JObj [])) = Some (∅, 0) ∧
  main no_occurs Unknown (Some scenario_facts) (PlanJson (JObj []))
  = Completed [scenario_state ∅ ∅].
Proof.
  apply (missing_fields_give_empty_plan no_occurs Unknown (Some scenario_facts)
           (scenario_state ∅ ∅) (0, 0) (JObj [])).
  - vm_compute. reflexivity.
  - exact empty_document_no_plan.
Defined.

(** A document that is a list, and a first call that is a list: both end
    the run. *)
Example array_document_is_fatal :
  not_a_plan_document (JArr []) ∧
  main no_occurs Unknown (Some scenario_facts) (PlanJson (JArr [])) = Exit1.
Proof. split; [exact I|]. vm_compute. reflexivity. Qed.

Example list_call_is_fatal :
  not_a_plan_document (JObj [("Call", JArr [JArr []])]) ∧
  main no_occurs Unknown (Some scenario_facts) (PlanJson (JObj [("Call", JArr [JArr []])])) = Exit1.
Proof.
  split; [|vm_compute; reflexivity]. split; [|exact I]. unfold lacks. vm_compute. discriminate.
Qed.

(** An empty list of calls is the warning branch. *)
Example empty_call_list_is_not_fatal :
  no_plan_found (JObj [("Call", JArr [])]) ∧
  main no_occurs Unknown (Some scenario_facts) (PlanJson (JObj [("Call", JArr [])]))
  = Completed [scenario_state ∅ ∅].
Proof. split; [|vm_compute; reflexivity]. eexists. split; [done|]. left. reflexivity. Qed.

(** ** What a timestep never touches *)

(** X1.  A timestep never writes the nodes, the highways, the picking
    stations or the product universe, and it neither adds nor removes a
    robot, a shelf or an order: the three dictionaries keep their keys, in
    their order. *)
Theorem update_state_keeps_layout st acts :
  nodes (update_state st acts) = nodes st ∧
  highways (update_state st acts) = highways st ∧
  picking_stations (update_state st acts) = picking_stations st ∧
  products (update_state st acts) = products st ∧
  Dict.keys (robots (update_state st acts)) = Dict.keys (robots st) ∧
  Dict.keys (shelves (update_state st acts)) = Dict.keys (shelves st) ∧
  Dict.keys (orders (update_state st acts)) = Dict.keys (orders st).
Proof.
  rewrite update_state_fold.
  destruct (fold_static st acts st) as (? & ? & ? & ?).
  destruct (fold_keys st acts st) as (? & ? & ?). done.
Qed.

(** X2.  Only a Move changes where a robot stands. *)
Theorem position_changes_only_by_move st r acts :
  Forall (λ ai, ¬ is_move_of r ai) acts →
  r_pos <$> Dict.get r (robots (update_state st acts)) = r_pos <$> Dict.get r (robots st).
Proof. intros H. rewrite update_state_fold. by apply fold_pos_other. Qed.

Lemma position_changes_only_by_move_witness :
  r_pos <$> Dict.get "r1" (robots (update_state (scenario_state ∅ ∅)
                                      [("r1", Pickup); ("r1", Deliver "o1" "p1" 1)]))
  = r_pos <$> Dict.get "r1" (robots (scenario_state ∅ ∅)).
Proof.
  apply (position_changes_only_by_move (scenario_state ∅ ∅) "r1").
  repeat constructor; intros [_ (dx & dy & H)]; discriminate H.
Defined.

(** ** Actions of unknown robots *)

Lemma run_actions_log cur acts : ∀ next log,
  (run_actions cur acts next log).2 = log ++ (run_actions cur acts next []).2.
Proof.
  induction acts as [|ai acts IH]; intros next log; simpl.
  - by rewrite app_nil_r.
  - destruct (apply_action cur next ai) as [next' ws]. simpl.
    rewrite (IH next' (log ++ ws)), (IH next' ws). by rewrite app_assoc.
Qed.

Lemma run_actions_cons cur ai acts next :
  run_actions cur (ai :: acts) next [] =
  (fold_left (step cur) acts (step cur next ai),
   (apply_action cur next ai).2 ++ (run_actions cur acts (step cur next ai) []).2).
Proof.
  simpl. unfold step. destruct (apply_action cur next ai) as [next' ws]. simpl.
  rewrite (surjective_pairing (run_actions cur acts next' ws)).
  by rewrite run_actions_state, run_actions_log.
Qed.

Lemma step_unknown_robot cur next ai :
  ¬ robot_known cur ai → apply_action cur next ai = (next, [WUnknownRobot ai.1]).
Proof.
  intros H. destruct ai as [r a]. unfold apply_action, robot_known in *. simpl in *.
  destruct (Dict.get r (robots cur)); [|done]. destruct H. eauto.
Qed.

Lemma fold_skip_unknown cur acts : ∀ next,
  fold_left (step cur) acts next =
  fold_left (step cur) (filter (robot_known cur) acts) next.
Proof.
  induction acts as [|ai acts IH]; intros next; [done|].
  rewrite filter_cons. case_decide as Hk; simpl.
  - apply IH.
  - unfold step at 2. rewrite step_unknown_robot by done. apply IH.
Qed.

Lemma log_unknown cur acts : ∀ next r a,
  (r, a) ∈ acts → ¬ robot_known cur (r, a) →
  WUnknownRobot r ∈ (run_actions cur acts next []).2.
Proof.
  induction acts as [|ai acts IH]; intros next r a Hin Hk.
  - by apply elem_of_nil in Hin.
  - rewrite run_actions_cons. cbn [snd]. apply elem_of_app.
    apply elem_of_cons in Hin as [<-|Hin].
    + left. rewrite step_unknown_robot by done. by left.
    + right. by eapply IH.
Qed.

(** X3.  An action of a robot that the state does not know is skipped: the
    timestep gives the state it gives without such actions, and each of them
    is reported. *)
Theorem unknown_robots_are_skipped st acts :
  update_state st acts = update_state st (filter (robot_known st) acts) ∧
  ∀ r a, (r, a) ∈ acts → Dict.get r (robots st) = None →
         WUnknownRobot r ∈ (update_state_log st acts).2.
Proof.
  split.
  - rewrite !update_state_fold. apply fold_skip_unknown.
  - intros r a Hin Hr. apply (log_unknown st acts st r a Hin).
    unfold robot_known. simpl. rewrite Hr. by intros [? ?].
Qed.

(** ** Pickup and Putdown, case by case *)

Lemma shelf_at_first p before s sh after :
  s_pos sh = Some p → Forall (λ e : string * shelf, s_pos e.2 ≠ Some p) before →
  shelf_at p (before ++ (s, sh) :: after) = Some s.
Proof.
  intros Hp Hb. unfold shelf_at.
  induction Hb as [|e before He _ IH]; simpl.
  - by rewrite bool_decide_eq_true_2.
  - by rewrite bool_decide_eq_false_2.
Qed.

Lemma alter_middle {V} (f : V → V) k (before : list (string * V)) v after :
  k ∉ before.*1 →
  Dict.alter f k (before ++ (k, v) :: after) = before ++ (k, f v) :: after.
Proof.
  induction before as [|[k' v'] before IH]; intros Hk; simpl.
  - by rewrite decide_True.
  - rewrite decide_False by set_solver. f_equal. apply IH. set_solver.
Qed.

(** X4.  A timestep made of one Pickup by a known robot.  A robot that
    carries a shelf keeps it; a robot on a cell without a shelf picks
    nothing up; both are reported and change nothing.  Otherwise the robot
    takes the first shelf, in the order of the shelves dictionary, that
    stands on its cell: the robot carries it, the shelf loses its position,
    and nothing else changes. *)
Theorem pickup_policy st r rb :
  ids_nonempty st →
  Dict.get r (robots st) = Some rb →
  let res := update_state_log st [(r, Pickup)] in
  (is_Some (r_carries rb) → res = (st, [WPickupCarrying r])) ∧
  (r_carries rb = None →
   (∀ s sh, (s, sh) ∈ shelves st → s_pos sh ≠ Some (r_pos rb)) →
   res = (st, [WPickupNoShelf r])) ∧
  (r_carries rb = None →
   ∀ before s sh after,
     shelves st = before ++ (s, sh) :: after →
     s_pos sh = Some (r_pos rb) →
     Forall (λ e, s_pos e.2 ≠ Some (r_pos rb)) before →
     s ∉ before.*1 →
     res.2 = [] ∧
     robots res.1 = Dict.alter (set_carries (Some s)) r (robots st) ∧
     shelves res.1 = before ++ (s, Shelf None (s_quantities sh)) :: after ∧
     orders res.1 = orders st ∧ nodes res.1 = nodes st ∧ highways res.1 = highways st ∧
     picking_stations res.1 = picking_stations st ∧ products res.1 = products st).
Proof.
  intros (Hrc & Hsn & _) Hr res. subst res. rewrite update_state_log_single.
  unfold apply_action. rewrite Hr. cbv zeta. split_and!.
  - intros [c Hc]. rewrite Hc, truthy_Some; [done|].
    intros ->. by apply (Hrc _ _ Hr).
  - intros Hc Hnone. rewrite Hc. cbn [truthy].
    destruct (shelf_at (r_pos rb) (shelves st)) as [sid|] eqn:Eat; [|done].
    apply shelf_at_Some in Eat as (sh & Hin & Hp). by destruct (Hnone _ _ Hin).
  - intros Hc before s sh after Hshs Hp Hb Hk. rewrite Hc. cbn [truthy].
    assert (shelf_at (r_pos rb) (shelves st) = Some s) as ->.
    { rewrite Hshs. by apply shelf_at_first. }
    rewrite truthy_Some.
    2: { apply (Hsn s sh). rewrite Hshs. set_solver. }
    simpl. rewrite Hshs. by rewrite alter_middle.
Qed.

Lemma scenario_state_ids : ids_nonempty (scenario_state ∅ ∅).
Proof.
  split_and!.
  - intros r rb. simpl. case_decide; [|done]. by intros [= <-].
  - intros s sh H. apply list_elem_of_singleton in H. by injection H as -> _.
  - intros o od. simpl. case_decide; [|done]. by intros [= <-].
Qed.

Lemma pickup_policy_witness :
  (update_state_log (scenario_state ∅ ∅) [("r1", Pickup)]).2 = [].
Proof.
  refine (proj1 (proj2 (proj2 (pickup_policy (scenario_state ∅ ∅) "r1" (Robot (1, 1) None)
            scenario_state_ids eq_refl)) eq_refl [] "s1" (Shelf (Some (1, 1)) {[ "p1" := 5 ]}) []
            eq_refl eq_refl _ _)).
  - constructor.
  - simpl. apply not_elem_of_nil.
Defined.

Lemma other_shelf_at_found p carried shs other sh :
  (other, sh) ∈ shs → s_pos sh = Some p → other ≠ carried →
  is_Some (other_shelf_at p carried shs).
Proof.
  intros Hin Hp Hne. unfold other_shelf_at.
  destruct (find _ shs) as [e|] eqn:E; [by eexists|].
  apply list_elem_of_In in Hin.
  pose proof (find_none _ _ E _ Hin) as Hf. simpl in Hf.
  rewrite bool_decide_eq_true_2, bool_decide_eq_false_2 in Hf; done.
Qed.

(** X5.  A timestep made of one Putdown by a known robot.  It is refused,
    with one warning and no change, exactly when the robot carries nothing,
    stands on a highway, or shares its cell with a shelf other than the one
    it carries.  Otherwise the robot carries nothing afterwards, the shelf
    it carried stands on the robot's cell, and nothing else changes. *)
Theorem putdown_policy st r rb :
  ids_nonempty st →
  Dict.get r (robots st) = Some rb →
  let res := update_state_log st [(r, Putdown)] in
  (putdown_blocked st rb →
   res.1 = st ∧ ∃ w, res.2 = [w] ∧ is_putdown_rejection w = true) ∧
  (¬ putdown_blocked st rb →
   ∃ carried, r_carries rb = Some carried ∧ res.2 = [] ∧
     robots res.1 = Dict.alter (set_carries None) r (robots st) ∧
     shelves res.1 = Dict.alter (put_pos (r_pos rb)) carried (shelves st) ∧
     orders res.1 = orders st ∧ nodes res.1 = nodes st ∧ highways res.1 = highways st ∧
     picking_stations res.1 = picking_stations st ∧ products res.1 = products st).
Proof.
  intros (Hrc & _ & _) Hr res. subst res. rewrite update_state_log_single.
  unfold apply_action. rewrite Hr.
  destruct (r_carries rb) as [carried|] eqn:Hc.
  2: { split; [eauto|]. intros Hb. destruct Hb. by left. }
  rewrite truthy_Some by (intros ->; by apply (Hrc _ _ Hr)). cbn [negb].
  case_bool_decide as Hhw.
  { split; [eauto|]. intros Hb. destruct Hb. right. by left. }
  destruct (other_shelf_at (r_pos rb) carried (shelves st)) as [other|] eqn:Eo.
  { split; [eauto|]. intros Hb. destruct Hb. do 2 right.
    apply other_shelf_at_Some in Eo as (sh & Hin & Hp & Hne). eauto 10. }
  split.
  - intros [?|[?|(c & other & sh & Hcc & Hin & Hp & Hne)]]; [congruence|by destruct Hhw|].
    assert (c = carried) as -> by congruence.
    destruct (other_shelf_at_found _ _ _ _ _ Hin Hp Hne) as [? ?]. congruence.
  - intros _. exists carried. done.
Qed.

Lemma highway_state_ids : ids_nonempty highway_state.
Proof.
  split_and!.
  - intros r rb. simpl. case_decide; [|done]. by intros [= <-].
  - intros s sh H. apply list_elem_of_singleton in H. by injection H as -> _.
  - intros o od. simpl. done.
Qed.

(** The Putdown of [highway_state] after its Pickup is refused. *)
Lemma putdown_policy_witness :
  (update_state_log (update_state highway_state [("r1", Pickup)]) [("r1", Putdown)]).1
  = update_state highway_state [("r1", Pickup)].
Proof.
  refine (proj1 (proj1 (putdown_policy (update_state highway_state [("r1", Pickup)]) "r1"
            (Robot (1, 1) (Some "s1")) _ eq_refl) _)).
  - apply update_state_ids_nonempty, highway_state_ids.
  - right. left. rewrite update_state_fold.
    destruct (fold_static highway_state [("r1", Pickup)] highway_state) as (_ & -> & _).
    simpl. set_solver.
Defined.

(** ** Shelf stock *)

Lemma stock_count_take sh p p0 u q :
  0 ≤ u → s_quantities sh !! p0 = Some q → ¬ q < u → 0 ≤ stock_count sh p →
  0 ≤ stock_count (take_units p0 u sh) p ≤ stock_count sh p.
Proof.
  unfold stock_count, take_units. simpl. intros Hu Hq Hge Hp.
  rewrite lookup_alter. case_decide; [subst|lia].
  rewrite Hq in *. simpl in *. lia.
Qed.

Lemma step_stock cur next ai s sh p :
  units_nonneg ai →
  Dict.get s (shelves next) = Some sh → 0 ≤ stock_count sh p →
  ∃ sh', Dict.get s (shelves (step cur next ai)) = Some sh' ∧
         dom (s_quantities sh') = dom (s_quantities sh) ∧
         0 ≤ stock_count sh' p ≤ stock_count sh p.
Proof.
  intros Hu Hs Hq. destruct ai as [r a].
  assert (∀ f k, (∀ x, s_quantities (f x) = s_quantities x) →
     ∃ sh', Dict.get s (Dict.alter f k (shelves next)) = Some sh' ∧
            dom (s_quantities sh') = dom (s_quantities sh) ∧
            0 ≤ stock_count sh' p ≤ stock_count sh p) as Hpos.
  { intros f k Hf. rewrite DictFacts.get_alter, Hs.
    case_decide; simpl; eexists; (split; [done|]); unfold stock_count; rewrite ?Hf; split; (done || lia). }
  step_cases; try (exists sh; split_and!; (done || lia)); try (by apply Hpos).
  all: rewrite DictFacts.get_alter, Hs;
    match goal with |- context [decide (?a = ?b)] => destruct (decide (a = b)) as [?|] end;
    simplify_eq; simpl;
    (eexists; split; [done|]; split;
      [unfold take_units; simpl; try apply dom_alter_L; done
      |try (unfold units_nonneg in Hu; simpl in Hu; eapply stock_count_take; eauto); lia]).
Qed.

Lemma fold_stock cur s p acts : ∀ next sh,
  Forall units_nonneg acts →
  Dict.get s (shelves next) = Some sh →
  0 ≤ stock_count sh p →
  ∃ sh', Dict.get s (shelves (fold_left (step cur) acts next)) = Some sh' ∧
         dom (s_quantities sh') = dom (s_quantities sh) ∧
         0 ≤ stock_count sh' p ≤ stock_count sh p.
Proof.
  induction acts as [|ai acts IH]; intros next sh Hall Hs Hq; simpl.
  - exists sh. split_and!; (done || lia).
  - inversion Hall as [|? ? Hu Hall']; subst.
    destruct (step_stock cur next ai s sh p Hu Hs Hq) as (sh1 & Hs1 & Hd1 & Hq1).
    destruct (IH _ _ Hall' Hs1 ltac:(lia)) as (sh2 & Hs2 & Hd2 & Hq2).
    exists sh2. split_and!; (done || congruence || lia).
Qed.

(** X6.  One call of [update_state] never adds units to a shelf and never
    overdraws it: for a known shelf whose count of the product is not
    negative, and actions whose units are not negative, the count in the
    result is between zero and the count in the input; the shelf stays known
    and lists the same products. *)
Theorem stock_non_increasing st acts s sh p :
  Forall units_nonneg acts →
  Dict.get s (shelves st) = Some sh →
  0 ≤ stock_count sh p →
  ∃ sh', Dict.get s (shelves (update_state st acts)) = Some sh' ∧
         dom (s_quantities sh') = dom (s_quantities sh) ∧
         0 ≤ stock_count sh' p ≤ stock_count sh p.
Proof. rewrite update_state_fold. apply fold_stock. Qed.

(** Two deliveries of three units from a shelf that holds five: the second
    one is refused. *)
Lemma stock_non_increasing_witness :
  ∃ sh', Dict.get "s1" (shelves (update_state loaded_state
           [("r1", Deliver "o1" "p1" 3); ("r1", Deliver "o1" "p1" 3)])) = Some sh' ∧
         dom (s_quantities sh') = dom ({[ "p1" := 5 ]} : gmap string Z) ∧
         0 ≤ stock_count sh' "p1" ≤ 5.
Proof.
  assert (Forall units_nonneg [("r1", Deliver "o1" "p1" 3); ("r1", Deliver "o1" "p1" 3)]) as Hu.
  { repeat (constructor; [unfold units_nonneg; simpl; lia|]). constructor. }
  assert (0 ≤ stock_count (Shelf None {[ "p1" := 5 ]}) "p1") as Hq.
  { vm_compute. discriminate. }
  exact (stock_non_increasing loaded_state _ "s1" (Shelf None {[ "p1" := 5 ]}) "p1" Hu eq_refl Hq).
Defined.

(** ** The main loop *)

Lemma frames_from_ext p1 p2 n : ∀ t st,
  (∀ k, t ≤ k < t + Z.of_nat n → actions_at p1 k = actions_at p2 k) →
  frames_from p1 t n st = frames_from p2 t n st.
Proof.
  induction n as [|n IH]; intros t st H; [done|].
  cbn [frames_from]. rewrite (H t) by lia. f_equal. apply IH.
  intros k Hk. apply H. lia.
Qed.

(** X7.  The visualization loop runs over the timesteps 1 to [max_time]:
    what the plan holds for any other timestep, timestep 0 included, is
    never applied. *)
Theorem only_steps_one_to_max_time_run p1 p2 max_time st :
  (∀ t, 1 ≤ t ≤ max_time → actions_at p1 t = actions_at p2 t) →
  frames_from p1 1 (Z.to_nat max_time) st = frames_from p2 1 (Z.to_nat max_time) st.
Proof. intros H. apply frames_from_ext. intros k Hk. apply H. lia. Qed.

(** A Move planned for timestep 0 changes no frame. *)
Lemma only_steps_one_to_max_time_run_witness :
  frames_from (<[ 0 := [("r1", Move 7 7)] ]> scenario_plan) 1 (Z.to_nat 3) (scenario_state ∅ ∅)
  = frames_from scenario_plan 1 (Z.to_nat 3) (scenario_state ∅ ∅).
Proof.
  apply (only_steps_one_to_max_time_run (<[ 0 := [("r1", Move 7 7)] ]> scenario_plan) scenario_plan 3).
  intros t Ht. unfold actions_at. rewrite lookup_insert_ne by lia. reflexivity.
Defined.

(** ** The plan parser, for any pair of matchers *)

Section plan_reading.
Variable match_occurs : string → option (string * string * Z).
Variable parse_action_string : string → action.

Lemma read_atoms_ok atoms : ∀ plan max_time plan' max_time',
  plan_ok plan max_time →
  read_atoms match_occurs parse_action_string atoms plan max_time = Some (plan', max_time') →
  plan_ok plan' max_time'.
Proof.
  induction atoms as [|atom atoms IH]; intros plan mt plan' mt' Hok Hrun.
  - by injection Hrun as <- <-.
  - destruct atom; try discriminate Hrun. cbn [read_atoms] in Hrun.
    destruct (match_occurs s) as [[[r a] t]|]; [|by eapply IH].
    eapply IH; [|exact Hrun]. destruct Hok as [H0 Hok].
    split; [lia|]. intros t' acts.
    destruct (is_unknown (parse_action_string a)) eqn:Eu.
    + intros Hl. destruct (Hok _ _ Hl) as (? & ? & ?). split_and!; (done || lia).
    + rewrite lookup_insert. case_decide as Ht.
      * intros [= <-]. subst t'. split_and!; [lia| |].
        -- by destruct (actions_at plan t).
        -- apply Forall_app. split; [|by repeat constructor].
           unfold actions_at. destruct (plan !! t) as [acts|] eqn:El; [|constructor].
           by destruct (Hok _ _ El) as (_ & _ & ?).
      * intros Hl. destruct (Hok _ _ Hl) as (? & ? & ?). split_and!; (done || lia).
Qed.

Lemma read_atoms_actions atoms : ∀ plan max_time,
  Forall is_string atoms →
  ∃ plan' max_time',
    read_atoms match_occurs parse_action_string atoms plan max_time = Some (plan', max_time') ∧
    (∀ t, actions_at plan' t = actions_at plan t ++ omap (atom_action match_occurs parse_action_string t) atoms) ∧
    max_time' = foldr Z.max max_time (omap (atom_time match_occurs) atoms).
Proof.
  induction atoms as [|atom atoms IH]; intros plan mt Hall.
  - exists plan, mt. split_and!; [done| |done]. intros t. by rewrite app_nil_r.
  - inversion Hall as [|? ? Hs Hall']; subst. destruct atom; try done.
    cbn [read_atoms omap list_omap atom_action atom_time].
    destruct (match_occurs s) as [[[r a] t0]|] eqn:Em; cbn [fmap option_fmap option_map].
    2: { destruct (IH plan mt Hall') as (plan' & mt' & Hrun & Hact & Hmax).
         exists plan', mt'. done. }
    match goal with |- context [read_atoms _ _ atoms ?p ?m] =>
      destruct (IH p m Hall') as (plan' & mt' & Hrun & Hact & Hmax) end.
    exists plan', mt'. split; [done|]. split.
    + intros t. rewrite Hact. cbn [snd].
      destruct (is_unknown (parse_action_string a)) eqn:Eu.
      * by destruct (decide (t0 = t)).
      * unfold actions_at at 1. rewrite lookup_insert.
        destruct (decide (t0 = t)) as [->|Hne]; simpl.
        -- by rewrite <- app_assoc.
        -- done.
    + rewrite Hmax. cbn [snd foldr]. clear.
      induction (omap (atom_time match_occurs) atoms) as [|x xs IHx]; simpl; lia.
Qed.

(** X8.  Whatever [parse_plan] returns, no timestep of the plan lies beyond
    [max_time], no timestep is listed without an action, and no action of
    the plan is of the unknown type. *)
Theorem parse_plan_within_max_time file plan max_time :
  parse_plan match_occurs parse_action_string file = Some (plan, max_time) →
  0 ≤ max_time ∧
  ∀ t acts, plan !! t = Some acts →
    t ≤ max_time ∧ acts ≠ [] ∧ Forall (λ ai : action_info, is_unknown ai.2 = false) acts.
Proof.
  assert (plan_ok ∅ 0) as Hempty.
  { split; [done|]. intros t acts Hl. by rewrite lookup_empty in Hl. }
  unfold parse_plan, parse_plan_log. destruct file as [| |data]; try done.
  unfold parse_plan_data. intros H.
  destruct (json_get "Call" data) as [call|]; [|done]. cbn [mbind option_bind] in H.
  destruct (json_truthy call); cbn [negb] in H.
  2: { by injection H as <- <-. }
  destruct (json_first call) as [first_call|]; [|done]. cbn [mbind option_bind] in H.
  destruct (json_get "Witnesses" first_call) as [witnesses|]; [|done]. cbn [mbind option_bind] in H.
  destruct (json_truthy witnesses); cbn [negb] in H.
  2: { by injection H as <- <-. }
  destruct (json_first witnesses) as [witness|]; [|done]. cbn [mbind option_bind] in H.
  destruct witness; try done. cbn [mbind option_bind] in H.
  destruct (json_iter _) as [atoms|]; [|done]. cbn [mbind option_bind] in H.
  destruct (read_atoms match_occurs parse_action_string atoms ∅ 0) as [[plan' mt']|] eqn:Erun; [|done].
  injection H as <- <-. by eapply read_atoms_ok.
Qed.

(** X9.  On a document of the expected shape whose atoms are strings,
    [parse_plan] succeeds: the actions of a timestep are the known actions
    of the [occurs] atoms for that time, in the order of the document, and
    [max_time] is the largest time of an [occurs] atom, known action or not.
    Only the first witness of the first call is read.  The two matchers
    are total functions: this is the program as long as no [int] raises,
    that is for numbers below the interpreter's limit on the digits of
    [int] (see [Re.int]); past it [parse_plan] returns [None]. *)
Theorem parse_plan_reads_atoms_in_order data atoms :
  document_atoms data atoms →
  Forall is_string atoms →
  ∃ plan max_time,
    parse_plan match_occurs parse_action_string (PlanJson data) = Some (plan, max_time) ∧
    (∀ t, actions_at plan t = omap (atom_action match_occurs parse_action_string t) atoms) ∧
    max_time = foldr Z.max 0 (omap (atom_time match_occurs) atoms).
Proof.
  intros (fields & call & calls & witness & witnesses & -> & Hc & Hw & Hv) Hall.
  destruct (read_atoms_actions atoms ∅ 0 Hall) as (plan & mt & Hrun & Hact & Hmax).
  exists plan, mt. split; [|done].
  unfold parse_plan, parse_plan_log, parse_plan_data. simpl. rewrite Hc. simpl.
  rewrite Hw. simpl. rewrite Hv. simpl. by rewrite Hrun.
Qed.

End plan_reading.

(** ** Text *)

Lemma chars_of_text_of s : chars_of (text_of s) = s.
Proof. apply String.list_ascii_of_string_of_list_ascii. Qed.

Lemma text_of_chars_of s : text_of (chars_of s) = s.
Proof. apply String.string_of_list_ascii_of_string. Qed.

Lemma text_of_nonempty s : s ≠ [] → text_of s ≠ EmptyString.
Proof. by destruct s. Qed.

Module ReFacts.
Import Re.

Lemma first_down_Some {A} (f : nat → option A) least n r :
  first_down f least n = Some r → ∃ m, (least ≤ m ≤ n)%nat ∧ f m = Some r.
Proof.
  induction n as [|n IH]; simpl; case_decide as Hd; try done.
  - destruct (f 0%nat) eqn:E; [|done]. intros [= <-]. exists 0%nat. split; [lia|done].
  - destruct (f (S n)) eqn:E.
    + intros [= <-]. exists (S n). split; [lia|done].
    + intros H. destruct (IH H) as (m & Hm & Hf). exists m. split; [lia|done].
Qed.

Lemma first_down_skip {A} (f : nat → option A) least m n r :
  (least ≤ m ≤ n)%nat → (∀ i, (m < i ≤ n)%nat → f i = None) → f m = Some r →
  first_down f least n = Some r.
Proof.
  intros Hm Hskip Hf. induction n as [|n IH]; simpl.
  - assert (m = 0%nat) as -> by lia. rewrite decide_False by lia. by rewrite Hf.
  - rewrite decide_False by lia.
    destruct (decide (m = S n)) as [->|Hne]; [by rewrite Hf|].
    rewrite Hskip by lia. apply IH; [lia|]. intros i Hi. apply Hskip. lia.
Qed.

Lemma first_down_first {A} (f : nat → option A) least n r :
  (least ≤ n)%nat → f n = Some r → first_down f least n = Some r.
Proof. intros Hn Hf. apply (first_down_skip f least n n); [lia| |done]. intros i Hi. lia. Qed.

Lemma span_take k s n : (n ≤ span k s)%nat → Forall (λ c, in_cls k c = true) (take n s).
Proof.
  revert n. induction s as [|c s IH]; intros n Hn; [by rewrite take_nil|].
  destruct n as [|n]; [constructor|]. simpl in *.
  destruct (in_cls k c) eqn:E; [|lia]. constructor; [done|]. apply IH. lia.
Qed.

Lemma span_app k w s : Forall (λ c, in_cls k c = true) w → span k (w ++ s) = (length w + span k s)%nat.
Proof. induction 1 as [|c w Hc _ IH]; simpl; [done|]. by rewrite Hc, IH. Qed.

Lemma span_stops k s : match s with c :: _ => in_cls k c = false | [] => True end → span k s = 0%nat.
Proof. destruct s as [|c s]; simpl; [done|]. by intros ->. Qed.

(** *** What a match tells about the text *)

Lemma run_Lit_inv text p s cur g r :
  run (Lit text :: p) s cur g = Some r →
  ∃ s', s = chars_of text ++ s' ∧ run p s' (cur ++ chars_of text) g = Some r.
Proof.
  simpl. case_decide as Ht; [|done]. intros H. exists (drop (length (chars_of text)) s).
  split; [|done]. by rewrite <- Ht at 1; rewrite take_drop.
Qed.

Lemma run_many_inv least k p s cur g r :
  first_down (λ n, run p (drop n s) (cur ++ take n s) g) least (span k s) = Some r →
  ∃ w s', s = w ++ s' ∧ (least ≤ length w)%nat ∧ Forall (λ c, in_cls k c = true) w ∧
          run p s' (cur ++ w) g = Some r.
Proof.
  intros H. apply first_down_Some in H as (m & Hm & Hf).
  exists (take m s), (drop m s). split_and!; [by rewrite take_drop| |by apply span_take; lia|done].
  rewrite length_take. assert (span k s ≤ length s)%nat; [|lia].
  clear. induction s as [|c s IH]; simpl; [done|]. destruct (in_cls k c); lia.
Qed.

Lemma run_Star_inv k p s cur g r :
  run (Star k :: p) s cur g = Some r →
  ∃ w s', s = w ++ s' ∧ Forall (λ c, in_cls k c = true) w ∧ run p s' (cur ++ w) g = Some r.
Proof. simpl. intros H. apply run_many_inv in H as (w & s' & ? & _ & ? & ?). eauto. Qed.

Lemma run_Plus_inv k p s cur g r :
  run (Plus k :: p) s cur g = Some r →
  ∃ w s', s = w ++ s' ∧ w ≠ [] ∧ Forall (λ c, in_cls k c = true) w ∧ run p s' (cur ++ w) g = Some r.
Proof.
  simpl. intros H. apply run_many_inv in H as (w & s' & ? & Hl & ? & ?).
  exists w, s'. split_and!; try done. intros ->. simpl in Hl. lia.
Qed.

Lemma run_Opt_inv c p s cur g r :
  run (Opt c :: p) s cur g = Some r →
  (∃ s', s = c :: s' ∧ run p s' (cur ++ [c]) g = Some r) ∨ run p s cur g = Some r.
Proof.
  simpl. destruct s as [|c' s']; [by right|]. case_decide as Hc; [subst|by right].
  destruct (run p s' (cur ++ [c]) g) eqn:E; [|by right]. intros [= <-]. left. eauto.
Qed.

Lemma run_Open p s cur g : run (Open :: p) s cur g = run p s [] g.
Proof. done. Qed.

Lemma run_Close p s cur g : run (Close :: p) s cur g = run p s [] (g ++ [cur]).
Proof. done. Qed.

Lemma run_nil s cur g : run [] s cur g = Some g.
Proof. done. Qed.

Lemma run_Plus_eq k p s cur g :
  run (Plus k :: p) s cur g = first_down (λ n, run p (drop n s) (cur ++ take n s) g) 1 (span k s).
Proof. done. Qed.

(** A group made of one [k+]. *)
Lemma run_group_inv k p s cur g r :
  run (Open :: Plus k :: Close :: p) s cur g = Some r →
  ∃ w s', s = w ++ s' ∧ run_of k w ∧ run p s' [] (g ++ [w]) = Some r.
Proof.
  rewrite run_Open. intros H. apply run_Plus_inv in H as (w & s' & ? & ? & ? & H).
  rewrite run_Close in H. exists w, s'. done.
Qed.

(** A group made of [-?\d+]. *)
Lemma run_number_inv p s cur g r :
  run (Open :: Opt "-" :: Plus Digit :: Close :: p) s cur g = Some r →
  ∃ a s', s = a ++ s' ∧ number a ∧ run p s' [] (g ++ [a]) = Some r.
Proof.
  rewrite run_Open. intros H. apply run_Opt_inv in H as [(s1 & -> & H)|H];
    apply run_Plus_inv in H as (w & s' & -> & ? & ? & H); rewrite run_Close in H.
  - exists ("-"%char :: w), s'. split_and!; [done| |done]. right. by exists w.
  - exists w, s'. split_and!; [done| |done]. by left.
Qed.

(** *** Text that matches *)

Lemma run_Lit_app text p s' cur g :
  run (Lit text :: p) (chars_of text ++ s') cur g = run p s' (cur ++ chars_of text) g.
Proof. simpl. by rewrite take_app_length, drop_app_length, decide_True. Qed.

Lemma run_Star_none k p s cur g :
  stops k s → run (Star k :: p) s cur g = run p s cur g.
Proof.
  intros Hs. simpl. rewrite (span_stops k s Hs). simpl.
  rewrite drop_0, take_0, app_nil_r. by destruct (run p s cur g).
Qed.

Lemma run_Plus_all k p w s' cur g r :
  run_of k w → stops k s' → run p s' (cur ++ w) g = Some r →
  run (Plus k :: p) (w ++ s') cur g = Some r.
Proof.
  intros [Hne Hw] Hs Hr. simpl. rewrite (span_app _ _ _ Hw), (span_stops k s' Hs), Nat.add_0_r.
  apply first_down_first.
  - destruct w; [done|simpl; lia].
  - by rewrite take_app_length, drop_app_length.
Qed.

Lemma run_group k p w s' cur g r :
  run_of k w → stops k s' → run p s' [] (g ++ [w]) = Some r →
  run (Open :: Plus k :: Close :: p) (w ++ s') cur g = Some r.
Proof. intros Hw Hs Hr. rewrite run_Open. apply run_Plus_all; [done..|]. by rewrite run_Close. Qed.

Lemma digit_not_minus c : is_digit c = true → c ≠ "-"%char.
Proof. intros H ->. discriminate H. Qed.

Lemma run_Opt_yes c p s' cur g r :
  run p s' (cur ++ [c]) g = Some r → run (Opt c :: p) (c :: s') cur g = Some r.
Proof. intros H. simpl. rewrite decide_True by done. by rewrite H. Qed.

Lemma run_Opt_no c p s cur g :
  match s with c' :: _ => c' ≠ c | [] => True end →
  run (Opt c :: p) s cur g = run p s cur g.
Proof. intros H. simpl. destruct s as [|c' s']; [done|]. by rewrite decide_False. Qed.

Lemma run_number p a s' cur g r :
  number a → stops Digit s' → run p s' [] (g ++ [a]) = Some r →
  run (Open :: Opt "-" :: Plus Digit :: Close :: p) (a ++ s') cur g = Some r.
Proof.
  intros [Ha|(ds & -> & Hds)] Hs Hr; rewrite run_Open.
  - rewrite run_Opt_no.
    + apply run_Plus_all; [done..|]. by rewrite run_Close.
    + destruct Ha as [Hne Ha]. destruct a as [|c a']; [done|]. simpl.
      apply digit_not_minus. by inversion Ha.
  - cbn [app]. apply run_Opt_yes. apply run_Plus_all; [done..|]. by rewrite run_Close.
Qed.

(** *** [int] *)

Lemma digit_value_range c : is_digit c = true → 0 ≤ digit_value c ≤ 9.
Proof.
  unfold is_digit, digit_value. cbv zeta. intros H. apply andb_true_iff in H as [H1 H2].
  apply N.leb_le in H1. apply N.leb_le in H2.
  revert H1 H2. generalize (N_of_ascii c). intros n. lia.
Qed.

Lemma fold_digits_nonneg ds : ∀ acc,
  Forall (λ c, in_cls Digit c = true) ds → 0 ≤ acc →
  0 ≤ fold_left (λ acc c, 10 * acc + digit_value c) ds acc.
Proof.
  induction ds as [|c ds IH]; intros acc Hall Hacc; simpl; [done|].
  inversion Hall as [|? ? Hc Hall']; subst. apply IH; [done|].
  pose proof (digit_value_range c Hc). lia.
Qed.

Lemma int_digits_nonneg ds : run_of Digit ds → 0 ≤ int ds.
Proof.
  intros [Hne Hall]. unfold int. destruct ds as [|c ds]; [done|].
  assert (c ≠ "-"%char) as Hc by (apply digit_not_minus; by inversion Hall).
  assert (0 ≤ int_of_digits (c :: ds)) by (by apply fold_digits_nonneg).
  destruct c as [[] [] [] [] [] [] [] []]; done.
Qed.

Lemma int_digits ds : run_of Digit ds → int ds = int_of_digits ds.
Proof.
  intros [Hne Hall]. unfold int. destruct ds as [|c ds]; [done|].
  assert (c ≠ "-"%char) as Hc by (apply digit_not_minus; by inversion Hall).
  destruct c as [[] [] [] [] [] [] [] []]; done.
Qed.

End ReFacts.

Import ReFacts.

Lemma run_Lit_eq text p s s' cur g :
  s = chars_of text ++ s' →
  Re.run (Re.Lit text :: p) s cur g = Re.run p s' (cur ++ chars_of text) g.
Proof. intros ->. apply run_Lit_app. Qed.

Lemma run_Lit_fail text p s cur g :
  take (length (chars_of text)) s ≠ chars_of text →
  Re.run (Re.Lit text :: p) s cur g = None.
Proof. intros H. simpl. by rewrite decide_False. Qed.

(** ** [parse_action_string] *)

Lemma move_re_inv s r :
  Re.re_match move_re s = Some r →
  ∃ a b rest, s = chars_of "move(" ++ a ++ ","%char :: b ++ ")"%char :: rest ∧
              number a ∧ number b ∧ r = [a; b].
Proof.
  unfold Re.re_match, move_re. intros H.
  apply run_Lit_inv in H as (s1 & -> & H).
  apply run_number_inv in H as (a & s2 & -> & Ha & H).
  apply run_Lit_inv in H as (s3 & -> & H).
  apply run_number_inv in H as (b & s4 & -> & Hb & H).
  apply run_Lit_inv in H as (s5 & -> & H).
  rewrite run_nil in H. injection H as <-.
  exists a, b, s5. done.
Qed.

Lemma move_re_match a b rest :
  number a → number b →
  Re.re_match move_re (chars_of "move(" ++ a ++ ","%char :: b ++ ")"%char :: rest) = Some [a; b].
Proof.
  intros Ha Hb. unfold Re.re_match, move_re.
  rewrite run_Lit_app. apply run_number; [done..|].
  erewrite run_Lit_eq by reflexivity. apply run_number; [done..|].
  erewrite run_Lit_eq by reflexivity. done.
Qed.

Lemma deliver_re_inv s r :
  Re.re_match deliver_re s = Some r →
  ∃ o p d rest, s = chars_of "deliver(" ++ o ++ ","%char :: p ++ ","%char :: d ++ ")"%char :: rest ∧
                run_of Re.Word o ∧ run_of Re.Word p ∧ run_of Re.Digit d ∧ r = [o; p; d].
Proof.
  unfold Re.re_match, deliver_re. intros H.
  apply run_Lit_inv in H as (s1 & -> & H).
  apply run_group_inv in H as (o & s2 & -> & Ho & H).
  apply run_Lit_inv in H as (s3 & -> & H).
  apply run_group_inv in H as (p & s4 & -> & Hp & H).
  apply run_Lit_inv in H as (s5 & -> & H).
  apply run_group_inv in H as (d & s6 & -> & Hd & H).
  apply run_Lit_inv in H as (s7 & -> & H).
  rewrite run_nil in H. injection H as <-.
  exists o, p, d, s7. done.
Qed.

Lemma deliver_re_match o p d rest :
  run_of Re.Word o → run_of Re.Word p → run_of Re.Digit d →
  Re.re_match deliver_re (chars_of "deliver(" ++ o ++ ","%char :: p ++ ","%char :: d ++ ")"%char :: rest)
  = Some [o; p; d].
Proof.
  intros Ho Hp Hd. unfold Re.re_match, deliver_re.
  rewrite run_Lit_app. apply run_group; [done..|].
  erewrite run_Lit_eq by reflexivity. apply run_group; [done..|].
  erewrite run_Lit_eq by reflexivity. apply run_group; [done..|].
  erewrite run_Lit_eq by reflexivity. done.
Qed.

(** X10.  A Move is what [parse_action_string] makes of a text that, once
    stripped, starts with [move(a,b)] for two numbers [a] and [b], whatever
    follows the closing parenthesis.  Integers are unbounded: for a number
    past the interpreter's limit on the digits of [int] (see [Re.int]) the
    program raises instead of returning the Move. *)
Theorem parse_action_string_move s dx dy :
  parse_action_string s = Move dx dy ↔
  ∃ a b rest,
    Re.strip (chars_of s) = chars_of "move(" ++ a ++ ","%char :: b ++ ")"%char :: rest ∧
    number a ∧ number b ∧ dx = Re.int a ∧ dy = Re.int b.
Proof.
  unfold parse_action_string. cbv zeta. split.
  - destruct (Re.re_match move_re _) as [r|] eqn:Em.
    + apply move_re_inv in Em as (a & b & rest & Hs & Ha & Hb & ->).
      intros [= <- <-]. exists a, b, rest. done.
    + repeat case_match; done.
  - intros (a & b & rest & -> & Ha & Hb & -> & ->).
    by rewrite move_re_match.
Qed.

(** X11.  A Deliver is what it makes of a text that, once stripped, starts
    with [deliver(o,p,d)] for two identifiers and a run of digits; the units
    are the value of the digits.  Integers are unbounded: for a run of
    digits past the interpreter's limit on the digits of [int] (see
    [Re.int]) the program raises instead of returning the Deliver. *)
Theorem parse_action_string_deliver s o p u :
  parse_action_string s = Deliver o p u ↔
  ∃ d rest,
    Re.strip (chars_of s)
      = chars_of "deliver(" ++ chars_of o ++ ","%char :: chars_of p ++ ","%char :: d ++ ")"%char :: rest ∧
    token o ∧ token p ∧ run_of Re.Digit d ∧ u = Re.int d.
Proof.
  unfold parse_action_string. cbv zeta. split.
  - destruct (Re.re_match move_re _) as [r|] eqn:Em.
    { apply move_re_inv in Em as (a & b & rest & Hs & Ha & Hb & ->). done. }
    repeat case_bool_decide; try done.
    destruct (Re.re_match deliver_re _) as [r|] eqn:Ed; [|done].
    apply deliver_re_inv in Ed as (o' & p' & d & rest & Hs & Ho & Hp & Hd & ->).
    intros [= <- <- <-]. exists d, rest. unfold token. rewrite !chars_of_text_of. done.
  - intros (d & rest & -> & Ho & Hp & Hd & ->).
    assert (Re.re_match move_re (chars_of "deliver(" ++ chars_of o ++ ","%char :: chars_of p
              ++ ","%char :: d ++ ")"%char :: rest) = None) as ->.
    { unfold Re.re_match, move_re. by apply run_Lit_fail. }
    rewrite !bool_decide_eq_false_2 by done.
    rewrite deliver_re_match by done. by rewrite !text_of_chars_of.
Qed.

Lemma no_move_without_prefix s :
  take 5 s ≠ chars_of "move(" → Re.re_match move_re s = None.
Proof. intros H. unfold Re.re_match, move_re. by apply run_Lit_fail. Qed.

(** X12.  [pickup] and [putdown] are recognised by equality: nothing may
    follow the word. *)
Theorem parse_action_string_words s :
  (parse_action_string s = Pickup ↔ Re.strip (chars_of s) = chars_of "pickup") ∧
  (parse_action_string s = Putdown ↔ Re.strip (chars_of s) = chars_of "putdown").
Proof.
  unfold parse_action_string. cbv zeta. split; split.
  - destruct (Re.re_match move_re _) as [r|] eqn:Em.
    { apply move_re_inv in Em as (a & b & rest & Hs & Ha & Hb & ->). done. }
    case_bool_decide; [done|]. repeat case_match; done.
  - intros ->. by rewrite no_move_without_prefix.
  - destruct (Re.re_match move_re _) as [r|] eqn:Em.
    { apply move_re_inv in Em as (a & b & rest & Hs & Ha & Hb & ->). done. }
    case_bool_decide; [done|]. case_bool_decide; [done|]. repeat case_match; done.
  - intros ->. by rewrite no_move_without_prefix.
Qed.

(** ** Writing and reading back *)

Lemma lstrip_id c s : Re.is_space c = false → Re.lstrip (c :: s) = c :: s.
Proof. intros H. simpl. by rewrite H. Qed.

Lemma strip_id c mid c' :
  Re.is_space c = false → Re.is_space c' = false →
  Re.strip (c :: mid ++ [c']) = c :: mid ++ [c'].
Proof.
  intros Hc Hc'. unfold Re.strip. rewrite lstrip_id by done.
  rewrite (app_comm_cons mid [c'] c), rev_unit.
  rewrite lstrip_id by done.
  by rewrite <- rev_unit, rev_involutive.
Qed.

Lemma uint_digits d : Forall (λ c, Re.in_cls Re.Digit c = true) (chars_of (NilEmpty.string_of_uint d)).
Proof. induction d; simpl; constructor; done. Qed.

Lemma fold_uint_acc d : ∀ acc,
  fold_left (λ acc c, 10 * acc + Re.digit_value c) (chars_of (NilEmpty.string_of_uint d)) (Z.pos acc)
  = Z.pos (Pos.of_uint_acc d acc).
Proof.
  induction d as [|d IHd|d IHd|d IHd|d IHd|d IHd|d IHd|d IHd|d IHd|d IHd|d IHd];
    intros acc; [done|..]; cbn [NilEmpty.string_of_uint chars_of String.list_ascii_of_string fold_left Pos.of_uint_acc];
    rewrite <- IHd; f_equal; unfold Re.digit_value; simpl; lia.
Qed.

Lemma fold_uint d :
  fold_left (λ acc c, 10 * acc + Re.digit_value c) (chars_of (NilEmpty.string_of_uint d)) 0
  = Z.of_N (Pos.of_uint d).
Proof.
  induction d as [|d IHd|d IHd|d IHd|d IHd|d IHd|d IHd|d IHd|d IHd|d IHd|d IHd];
    [done|exact IHd|..];
    cbn [NilEmpty.string_of_uint chars_of String.list_ascii_of_string fold_left Pos.of_uint];
    apply fold_uint_acc.
Qed.

Lemma pos_digits p :
  run_of Re.Digit (chars_of (NilZero.string_of_uint (Pos.to_uint p))) ∧
  Re.int_of_digits (chars_of (NilZero.string_of_uint (Pos.to_uint p))) = Z.pos p.
Proof.
  pose proof (DecimalPos.Unsigned.of_to p) as Hp.
  destruct (Pos.to_uint p) as [|d|d|d|d|d|d|d|d|d|d] eqn:E; [done|..];
    (split; [split; [done|apply (uint_digits (_ d))]|]);
    unfold Re.int_of_digits, NilZero.string_of_uint; rewrite fold_uint, Hp; done.
Qed.

Lemma py_str_nonneg z : 0 ≤ z → run_of Re.Digit (py_str z) ∧ Re.int (py_str z) = z.
Proof.
  intros Hz. unfold py_str. destruct z as [|p|p]; [|..|lia].
  - split; [split; [done|repeat constructor]|done].
  - destruct (pos_digits p) as [Hd Hv]. split; [done|]. by rewrite int_digits.
Qed.

Lemma py_str_number z : number (py_str z) ∧ Re.int (py_str z) = z.
Proof.
  destruct z as [|p|p].
  - destruct (py_str_nonneg 0) as [? ?]; [done|]. split; [by left|done].
  - destruct (py_str_nonneg (Z.pos p)) as [? ?]; [done|]. split; [by left|done].
  - destruct (pos_digits p) as [Hd Hv]. unfold py_str. simpl. split.
    + right. eexists. split; [done|]. exact Hd.
    + unfold chars_of in *. simpl. rewrite Hv. done.
Qed.

Lemma strip_ends s c c' :
  head s = Some c → last s = Some c' → Re.is_space c = false → Re.is_space c' = false →
  Re.strip s = s.
Proof.
  intros Hh Hl Hc Hc'. destruct s as [|c0 s]; [done|]. injection Hh as ->.
  destruct s as [|x s _] using rev_ind.
  - unfold Re.strip. simpl. rewrite Hc. simpl. by rewrite Hc.
  - rewrite last_cons, last_snoc in Hl. injection Hl as ->. by apply strip_id.
Qed.

Lemma word_not_space c : Re.is_word c = true → Re.is_space c = false.
Proof. destruct c as [[] [] [] [] [] [] [] []]; done. Qed.

Lemma digit_not_space c : Re.is_digit c = true → Re.is_space c = false.
Proof. destruct c as [[] [] [] [] [] [] [] []]; done. Qed.

Lemma digit_is_dot c : Re.is_digit c = true → Re.is_dot c = true.
Proof. destruct c as [[] [] [] [] [] [] [] []]; done. Qed.

Lemma word_is_dot c : Re.is_word c = true → Re.is_dot c = true.
Proof. destruct c as [[] [] [] [] [] [] [] []]; done. Qed.

Lemma digit_not_comma c : Re.is_digit c = true → c ≠ ","%char.
Proof. intros H ->. discriminate H. Qed.

Lemma run_of_stops k k' w s :
  run_of k w → (∀ c, Re.in_cls k c = true → Re.in_cls k' c = false) → stops k' (w ++ s).
Proof.
  intros [Hne Hw] Hk. destruct w as [|c w]; [done|]. simpl. apply Hk. by inversion Hw.
Qed.

Lemma number_dots a : number a → Forall (λ c, Re.is_dot c = true) a.
Proof.
  intros [[_ Ha]|(ds & -> & [_ Ha])]; [|constructor; [done|]];
    (eapply Forall_impl; [exact Ha|]); intros c; apply digit_is_dot.
Qed.

Lemma Forall_dots_app (a b : list ascii) :
  Forall (λ c, Re.is_dot c = true) a → Forall (λ c, Re.is_dot c = true) b →
  Forall (λ c, Re.is_dot c = true) (a ++ b).
Proof. intros. by apply Forall_app. Qed.

Lemma token_dots s : token s → Forall (λ c, Re.is_dot c = true) (chars_of s).
Proof. intros [_ H]. eapply Forall_impl; [exact H|]. intros c. apply word_is_dot. Qed.

(** What is known of the text of a writable action. *)
Lemma show_action_shape a :
  writable a →
  ∃ c rest, show_action a = c :: rest ∧ Re.is_space c = false ∧
            ∃ c', last (show_action a) = Some c' ∧ Re.is_space c' = false.
Proof.
  destruct a; simpl; try done; intros _.
  - eexists _, _. split; [reflexivity|]. split; [done|]. exists ")"%char.
    split; [|done]. rewrite !last_cons, last_app, last_cons, last_app. done.
  - eexists _, _. split; [reflexivity|]. split; [done|]. by exists "p"%char.
  - eexists _, _. split; [reflexivity|]. split; [done|]. by exists "n"%char.
  - eexists _, _. split; [reflexivity|]. split; [done|]. exists ")"%char.
    split; [|done]. rewrite !last_cons, last_app, last_cons, last_app, last_cons, last_app. done.
Qed.

Lemma show_action_dots a :
  writable a → Forall (λ c, Re.is_dot c = true) (show_action a).
Proof.
  destruct a as [dx dy| | |o p u|raw]; simpl; try done.
  - intros _. repeat (constructor; [done|]).
    apply Forall_app. split; [apply number_dots, py_str_number|].
    constructor; [done|]. apply Forall_app. split; [apply number_dots, py_str_number|].
    by repeat constructor.
  - intros _. by repeat constructor.
  - intros _. by repeat constructor.
  - intros (Ho & Hp & Hu). repeat (constructor; [done|]).
    apply Forall_app. split; [by apply token_dots|]. constructor; [done|].
    apply Forall_app. split; [by apply token_dots|]. constructor; [done|].
    apply Forall_app. split; [apply number_dots, py_str_number|]. by repeat constructor.
Qed.

Lemma action_reads_back a :
  writable a → parse_action_string (text_of (show_action a)) = a.
Proof.
  intros Hw. unfold parse_action_string. cbv zeta. rewrite chars_of_text_of.
  destruct (show_action_shape a Hw) as (c & rest & Hs & Hc & c' & Hl & Hc').
  rewrite (strip_ends _ c c'); [|by rewrite Hs|done..]. clear c rest Hs Hc c' Hl Hc'.
  destruct a as [dx dy| | |o p u|raw]; try done.
  - destruct (py_str_number dx) as [Hx Hvx], (py_str_number dy) as [Hy Hvy].
    cbn [show_action]. rewrite move_re_match by done. by rewrite Hvx, Hvy.
  - destruct Hw as (Ho & Hp & Hu). destruct (py_str_nonneg u Hu) as [Hd Hv].
    cbn [show_action]. rewrite no_move_without_prefix by done.
    rewrite !bool_decide_eq_false_2 by done.
    rewrite deliver_re_match by done. by rewrite !text_of_chars_of, Hv.
Qed.

(** X13.  Every action that can be written is read back from its text. *)
Theorem parse_action_string_reads_back a :
  writable a → parse_action_string (text_of (show_action a)) = a.
Proof. apply action_reads_back. Qed.

(** [move(-3,12)] *)
Lemma parse_action_string_reads_back_witness :
  parse_action_string (text_of (show_action (Move (-3) 12))) = Move (-3) 12.
Proof. apply (parse_action_string_reads_back (Move (-3) 12)). exact I. Defined.

(** ** The [occurs] atoms *)

Lemma no_comma_here p u cur g :
  Forall (λ c, Re.is_space c = false ∧ c ≠ ","%char) u →
  Re.run (Re.Close :: Re.Star Re.Space :: Re.Lit "," :: p) u cur g = None.
Proof.
  intros Hu. rewrite run_Close, run_Star_none.
  - apply run_Lit_fail. destruct u as [|c u]; [done|]. simpl. inversion Hu as [|? ? [_ Hc]]; subst.
    intros [= ->]. done.
  - destruct u as [|c u]; [done|]. simpl. by inversion Hu as [|? ? [Hc _]].
Qed.

Lemma occurs_re_match R A T :
  run_of Re.Word R → A ≠ [] → Forall (λ c, Re.is_dot c = true) A → stops Re.Space A →
  run_of Re.Digit T →
  Re.re_match occurs_re (chars_of "occurs(object(robot," ++ R ++ chars_of ")," ++
                         A ++ ","%char :: T ++ [")"%char])
  = Some [R; A; T].
Proof.
  intros HR HA Hdots Hstop HT. unfold Re.re_match, occurs_re.
  rewrite run_Lit_app, run_Star_none.
  2: { apply (run_of_stops Re.Word); [done|apply word_not_space]. }
  apply run_group; [done|done|].
  rewrite run_Lit_app, run_Star_none.
  2: { destruct A; [done|exact Hstop]. }
  rewrite run_Open, run_Plus_eq.
  apply (first_down_skip _ 1%nat (length A)).
  - split; [destruct A; [done|simpl; lia]|].
    rewrite span_app by done. lia.
  - intros i Hi. rewrite drop_app_ge by lia.
    destruct (i - length A)%nat as [|j] eqn:Ej; [lia|]. cbn [drop].
    apply no_comma_here. apply Forall_drop, Forall_app. split.
    + destruct HT as [_ HT]. eapply Forall_impl; [exact HT|]. intros c Hc.
      split; [by apply digit_not_space|by apply digit_not_comma].
    + by repeat constructor.
  - rewrite take_app_length, drop_app_length, app_nil_l.
    rewrite run_Close, run_Star_none by done.
    erewrite run_Lit_eq by reflexivity. rewrite run_Star_none.
    2: { apply (run_of_stops Re.Digit); [done|apply digit_not_space]. }
    apply run_group; [done|done|]. erewrite run_Lit_eq by reflexivity. done.
Qed.

Lemma atom_reads_back entry :
  writable_entry entry →
  match_occurs (show_atom entry) = Some (entry.1.1, text_of (show_action entry.1.2), entry.2).
Proof.
  destruct entry as [[r a] t]. intros (Hr & Ha & Ht). simpl in *.
  unfold match_occurs, show_atom. rewrite chars_of_text_of. simpl fst. simpl snd.
  destruct (py_str_nonneg t Ht) as [Hd Hv].
  destruct (show_action_shape a Ha) as (c & rest & Hs & Hc & _).
  rewrite occurs_re_match; [|done|by rewrite Hs|by apply show_action_dots|by rewrite Hs|done].
  by rewrite text_of_chars_of, Hv.
Qed.

Lemma writable_known a : writable a → is_unknown a = false.
Proof. by destruct a. Qed.

Lemma entries_read_back t entries :
  Forall writable_entry entries →
  omap (atom_action match_occurs parse_action_string t) ((λ e, JStr (show_atom e)) <$> entries)
  = entries_at t entries ∧
  omap (atom_time match_occurs) ((λ e, JStr (show_atom e)) <$> entries) = entries.*2.
Proof.
  induction 1 as [|e entries He _ [IH1 IH2]]; [done|].
  pose proof He as (Hr & Ha & Ht).
  cbn [fmap list_fmap omap list_omap atom_action atom_time].
  rewrite (atom_reads_back e He). cbn [fmap option_fmap option_map snd].
  rewrite action_reads_back by done. rewrite writable_known by done.
  unfold entries_at. rewrite filter_cons. fold (entries_at t entries).
  rewrite IH2. split; [|done]. destruct e as [[r a] t0]; simpl in *.
  destruct (decide (t0 = t)); simpl; by rewrite IH1.
Qed.

(** X14.  A plan written in the solver's format is read back: for every list
    of writable entries (robot, action, time), the document that lists their
    atoms gives, at each timestep, the entries of that timestep in the order
    of the document, and the largest time as [max_time]. *)
Theorem parse_plan_reads_back data entries :
  document_atoms data ((λ e, JStr (show_atom e)) <$> entries) →
  Forall writable_entry entries →
  ∃ plan max_time,
    parse_plan_text (PlanJson data) = Some (plan, max_time) ∧
    (∀ t, actions_at plan t = entries_at t entries) ∧
    max_time = foldr Z.max 0 entries.*2.
Proof.
  intros (fields & call & calls & witness & witnesses & -> & Hc & Hw & Hv) Hall.
  destruct (read_atoms_actions match_occurs parse_action_string
              ((λ e, JStr (show_atom e)) <$> entries) ∅ 0) as (plan & mt & Hrun & Hact & Hmax).
  { apply Forall_fmap. by apply Forall_true. }
  exists plan, mt. split_and!.
  - unfold parse_plan_text, parse_plan, parse_plan_log, parse_plan_data. simpl. rewrite Hc. simpl.
    rewrite Hw. simpl. rewrite Hv. simpl. by rewrite Hrun.
  - intros t. rewrite Hact. apply (entries_read_back t entries Hall).
  - rewrite Hmax. f_equal. apply (entries_read_back 0 entries Hall).
Qed.

(** ** The lines of the init file *)

Lemma first_down_None {A} (f : nat → option A) least n :
  (∀ m, (least ≤ m ≤ n)%nat → f m = None) → Re.first_down f least n = None.
Proof.
  induction n as [|n IH]; intros H; simpl; case_decide as Hd; try done.
  - by rewrite H by lia.
  - rewrite H by lia. apply IH. intros m Hm. apply H. lia.
Qed.

(** A group [k+] before a literal that starts outside of [k] takes the
    whole run: there is nothing to backtrack to. *)
Lemma run_group_eq k lit p w s' cur g :
  run_of k w → stops k s' →
  match chars_of lit with c :: _ => Re.in_cls k c = false | [] => False end →
  Re.run (Re.Open :: Re.Plus k :: Re.Close :: Re.Lit lit :: p) (w ++ s') cur g
  = Re.run (Re.Lit lit :: p) s' [] (g ++ [w]).
Proof.
  intros Hw Hs Hlit. destruct (Re.run (Re.Lit lit :: p) s' [] (g ++ [w])) as [r|] eqn:E.
  { by apply run_group. }
  rewrite run_Open, run_Plus_eq. apply first_down_None. intros m Hm.
  destruct Hw as [Hne Hw]. rewrite span_app, (span_stops k s' Hs), Nat.add_0_r in Hm by done.
  destruct (decide (m = length w)) as [->|Hlt].
  { by rewrite take_app_length, drop_app_length, run_Close. }
  rewrite run_Close. apply run_Lit_fail.
  rewrite drop_app_le by lia.
  destruct (drop m w) as [|c rest] eqn:Ed.
  { apply (f_equal length) in Ed. rewrite length_drop in Ed. simpl in Ed. lia. }
  assert (Re.in_cls k c = true) as Hc.
  { assert (c ∈ w) as Hin by (apply (subseteq_drop m w); rewrite Ed; left).
    by apply (proj1 (Forall_forall _ _) Hw). }
  destruct (chars_of lit) as [|c0 l0]; [done|]. simpl. intros [= -> _]. congruence.
Qed.

Lemma at_shape_inv head s r :
  Re.re_match (at_shape head) s = Some r →
  ∃ id x y, r = [id; x; y] ∧ run_of Re.Word id ∧ run_of Re.Digit x ∧ run_of Re.Digit y.
Proof.
  unfold Re.re_match, at_shape. intros H.
  apply run_Lit_inv in H as (s1 & -> & H).
  apply run_Star_inv in H as (w1 & s2 & -> & _ & H).
  apply run_group_inv in H as (id & s3 & -> & Hid & H).
  apply run_Lit_inv in H as (s4 & -> & H).
  apply run_Star_inv in H as (w2 & s5 & -> & _ & H).
  apply run_Lit_inv in H as (s6 & -> & H).
  apply run_Star_inv in H as (w3 & s7 & -> & _ & H).
  apply run_Lit_inv in H as (s8 & -> & H).
  apply run_group_inv in H as (x & s9 & -> & Hx & H).
  apply run_Lit_inv in H as (s10 & -> & H).
  apply run_group_inv in H as (y & s11 & -> & Hy & H).
  apply run_Lit_inv in H as (s12 & -> & H).
  rewrite run_nil in H. injection H as <-. exists id, x, y. done.
Qed.

Lemma count_shape_inv head value s r :
  Re.re_match (count_shape head value) s = Some r →
  ∃ a b qty, r = [a; b; qty] ∧ run_of Re.Word a ∧ run_of Re.Word b ∧ run_of Re.Digit qty.
Proof.
  unfold Re.re_match, count_shape. intros H.
  apply run_Lit_inv in H as (s1 & -> & H).
  apply run_Star_inv in H as (w1 & s2 & -> & _ & H).
  apply run_group_inv in H as (a & s3 & -> & Ha & H).
  apply run_Lit_inv in H as (s4 & -> & H).
  apply run_Star_inv in H as (w2 & s5 & -> & _ & H).
  apply run_Lit_inv in H as (s6 & -> & H).
  apply run_Star_inv in H as (w3 & s7 & -> & _ & H).
  apply run_Lit_inv in H as (s8 & -> & H).
  apply run_group_inv in H as (b & s9 & -> & Hb & H).
  apply run_Lit_inv in H as (s10 & -> & H).
  apply run_group_inv in H as (qty & s11 & -> & Hq & H).
  apply run_Lit_inv in H as (s12 & -> & H).
  rewrite run_nil in H. injection H as <-. exists a, b, qty. done.
Qed.

Lemma order_station_re_inv s r :
  Re.re_match order_station_re s = Some r →
  ∃ a b, r = [a; b] ∧ run_of Re.Word a ∧ run_of Re.Word b.
Proof.
  unfold Re.re_match, order_station_re. intros H.
  apply run_Lit_inv in H as (s1 & -> & H).
  apply run_Star_inv in H as (w1 & s2 & -> & _ & H).
  apply run_group_inv in H as (a & s3 & -> & Ha & H).
  apply run_Lit_inv in H as (s4 & -> & H).
  apply run_Star_inv in H as (w2 & s5 & -> & _ & H).
  apply run_Lit_inv in H as (s6 & -> & H).
  apply run_Star_inv in H as (w3 & s7 & -> & _ & H).
  apply run_group_inv in H as (b & s9 & -> & Hb & H).
  apply run_Lit_inv in H as (s10 & -> & H).
  rewrite run_nil in H. injection H as <-. exists a, b. done.
Qed.

Lemma at_groups_ok mk head s f :
  (∀ id x y, token id → 0 ≤ x → 0 ≤ y → fact_ok (mk id x y)) →
  at_groups mk (Re.re_match (at_shape head) s) = Some f → fact_ok f.
Proof.
  intros Hmk. destruct (Re.re_match _ s) as [r|] eqn:E; [|done].
  apply at_shape_inv in E as (id & x & y & -> & Hid & Hx & Hy).
  intros [= <-]. apply Hmk; [by unfold token; rewrite chars_of_text_of|by apply int_digits_nonneg..].
Qed.

Lemma count_groups_ok mk head value s f :
  (∀ a b qty, token a → token b → 0 ≤ qty → fact_ok (mk a b qty)) →
  count_groups mk (Re.re_match (count_shape head value) s) = Some f → fact_ok f.
Proof.
  intros Hmk. destruct (Re.re_match _ s) as [r|] eqn:E; [|done].
  apply count_shape_inv in E as (a & b & qty & -> & Ha & Hb & Hq).
  intros [= <-]. apply Hmk; [by unfold token; rewrite chars_of_text_of..|by apply int_digits_nonneg].
Qed.

Lemma read_line_ok line f : read_line line = Some f → fact_ok f.
Proof.
  unfold read_line. cbv zeta. destruct (Re.strip (chars_of line)) as [|c s]; [done|].
  case_decide; [done|]. intros [= <-]. set (l := c :: s). clearbody l.
  destruct (at_groups FNode _) as [f|] eqn:E1.
  { by apply (at_groups_ok FNode "init(object(node," l). }
  destruct (at_groups FHighway _) as [f|] eqn:E2.
  { by apply (at_groups_ok FHighway "init(object(highway," l). }
  destruct (at_groups FStation _) as [f|] eqn:E3.
  { by apply (at_groups_ok FStation "init(object(pickingStation," l). }
  destruct (at_groups FRobot _) as [f|] eqn:E4.
  { by apply (at_groups_ok FRobot "init(object(robot," l). }
  destruct (at_groups FShelf _) as [f|] eqn:E5.
  { by apply (at_groups_ok FShelf "init(object(shelf," l). }
  destruct (count_groups FProduct _) as [f|] eqn:E6.
  { by apply (count_groups_ok FProduct "init(object(product," "value(on," l). }
  destruct (pair_groups FOrderStation _) as [f|] eqn:E7.
  { simpl. destruct (Re.re_match order_station_re l) as [r|] eqn:E; [|done].
    apply order_station_re_inv in E as (a & b & -> & Ha & Hb). injection E7 as <-.
    split; unfold token; by rewrite chars_of_text_of. }
  destruct (count_groups FOrderLine _) as [f|] eqn:E8; [|done].
  by apply (count_groups_ok FOrderLine "init(object(order," "value(line," l).
Qed.

(** X15.  Whatever the line, the fact read from it has identifiers that are
    tokens (never empty) and coordinates and counts that are not negative; a
    line that fits no pattern is kept as unmatched. *)
Theorem read_line_gives_well_formed_facts line f :
  read_line line = Some f → fact_ok f.
Proof. apply read_line_ok. Qed.

Ltac lit := erewrite run_Lit_eq by reflexivity.
Ltac spaces :=
  rewrite run_Star_none
    by first [ done
             | apply (run_of_stops Re.Word); [done|apply word_not_space]
             | apply (run_of_stops Re.Digit); [done|apply digit_not_space] ].

Lemma at_text_match head idc xs ys :
  run_of Re.Word idc → run_of Re.Digit xs → run_of Re.Digit ys →
  Re.re_match (at_shape head)
    (chars_of head ++ idc ++ chars_of "),value(at,pair(" ++ xs ++ ","%char :: ys ++ chars_of "))).")
  = Some [idc; xs; ys].
Proof.
  intros Hid Hx Hy. unfold Re.re_match, at_shape.
  rewrite run_Lit_app. spaces. apply run_group; [done|done|].
  lit. spaces. lit. spaces. lit. apply run_group; [done|done|].
  lit. apply run_group; [done|done|]. lit. done.
Qed.

Lemma count_text_match head value ac bc qs :
  run_of Re.Word ac → run_of Re.Word bc → run_of Re.Digit qs →
  stops Re.Space (chars_of value) → chars_of value ≠ [] →
  Re.re_match (count_shape head value)
    (chars_of head ++ ac ++ chars_of ")," ++ chars_of value ++ chars_of "pair(" ++ bc
       ++ ","%char :: qs ++ chars_of "))).")
  = Some [ac; bc; qs].
Proof.
  intros Ha Hb Hq Hv Hne. unfold Re.re_match, count_shape.
  rewrite run_Lit_app. spaces. apply run_group; [done|done|].
  rewrite run_Lit_app. rewrite run_Star_none.
  2: { destruct (chars_of value); done. }
  rewrite run_Lit_app. spaces. rewrite run_Lit_app. apply run_group; [done|done|].
  lit. apply run_group; [done|done|]. lit. done.
Qed.

Lemma order_station_text_match ac bc :
  run_of Re.Word ac → run_of Re.Word bc →
  Re.re_match order_station_re
    (chars_of "init(object(order," ++ ac ++ chars_of "),value(pickingStation," ++ bc ++ chars_of ")).")
  = Some [ac; bc].
Proof.
  intros Ha Hb. unfold Re.re_match, order_station_re.
  rewrite run_Lit_app. spaces. apply run_group; [done|done|].
  lit. spaces. lit. spaces. apply run_group; [done|done|]. lit. done.
Qed.

(** An order line is not taken for a station binding. *)
Lemma order_station_no_line ac rest :
  run_of Re.Word ac →
  Re.re_match order_station_re
    (chars_of "init(object(order," ++ ac ++ chars_of "),value(line," ++ rest) = None.
Proof.
  intros Ha. unfold Re.re_match, order_station_re.
  rewrite run_Lit_app. spaces. rewrite run_group_eq; [|done|done|done].
  lit. spaces. by apply run_Lit_fail.
Qed.

Lemma re_match_head_fail h p s :
  take (length (chars_of h)) s ≠ chars_of h → Re.re_match (Re.Lit h :: p) s = None.
Proof. apply run_Lit_fail. Qed.

Ltac wrong_head p :=
  match goal with
  | |- context [Re.re_match p ?s] =>
      replace (Re.re_match p s) with (@None (list (list ascii)))
        by (symmetry; apply re_match_head_fail; cbn; congruence)
  end.

Lemma show_fact_ends f :
  ¬ is_unmatched f → head (show_fact f) = Some "i"%char ∧ last (show_fact f) = Some "."%char.
Proof.
  intros Hf. destruct f; try (by destruct Hf); (split; [done|]);
    unfold show_fact, show_at, show_count;
    repeat (rewrite last_app || rewrite last_cons); done.
Qed.

(** X16.  Every fact is read back from its line: the eight patterns capture
    the identifiers and the numbers of a line written without spaces, and no
    line is taken for a fact of another kind. *)
Theorem read_line_reads_back f :
  fact_ok f → ¬ is_unmatched f → read_line (text_of (show_fact f)) = Some f.
Proof.
  intros Hok Hun. unfold read_line. cbv zeta. rewrite chars_of_text_of.
  destruct (show_fact_ends f Hun) as [Hh Hl].
  rewrite (strip_ends _ "i" ".") by done.
  destruct (show_fact f) as [|c rest] eqn:Heq; [done|]. injection Hh as ->.
  rewrite decide_False by done. rewrite <- Heq. clear Heq Hl rest. f_equal.
  destruct f as [id x y|id x y|id x y|id x y|id x y|a b q|a b|a b q|line];
    try (by destruct Hun); cbn [show_fact].
  - destruct Hok as (Hid & Hx & Hy).
    destruct (py_str_nonneg x Hx) as [Hdx Hvx], (py_str_nonneg y Hy) as [Hdy Hvy].
    assert (Re.re_match node_re (show_at "node" id x y) = Some [chars_of id; py_str x; py_str y]) as ->
      by exact (at_text_match "init(object(node," _ _ _ Hid Hdx Hdy).
    cbn [at_groups first_match default]. by rewrite text_of_chars_of, Hvx, Hvy.
  - destruct Hok as (Hid & Hx & Hy).
    destruct (py_str_nonneg x Hx) as [Hdx Hvx], (py_str_nonneg y Hy) as [Hdy Hvy].
    wrong_head node_re.
    assert (Re.re_match highway_re (show_at "highway" id x y) = Some [chars_of id; py_str x; py_str y]) as ->
      by exact (at_text_match "init(object(highway," _ _ _ Hid Hdx Hdy).
    cbn [at_groups first_match default]. by rewrite text_of_chars_of, Hvx, Hvy.
  - destruct Hok as (Hid & Hx & Hy).
    destruct (py_str_nonneg x Hx) as [Hdx Hvx], (py_str_nonneg y Hy) as [Hdy Hvy].
    wrong_head node_re. wrong_head highway_re.
    assert (Re.re_match station_re (show_at "pickingStation" id x y) = Some [chars_of id; py_str x; py_str y]) as ->
      by exact (at_text_match "init(object(pickingStation," _ _ _ Hid Hdx Hdy).
    cbn [at_groups first_match default]. by rewrite text_of_chars_of, Hvx, Hvy.
  - destruct Hok as (Hid & Hx & Hy).
    destruct (py_str_nonneg x Hx) as [Hdx Hvx], (py_str_nonneg y Hy) as [Hdy Hvy].
    wrong_head node_re. wrong_head highway_re. wrong_head station_re.
    assert (Re.re_match robot_re (show_at "robot" id x y) = Some [chars_of id; py_str x; py_str y]) as ->
      by exact (at_text_match "init(object(robot," _ _ _ Hid Hdx Hdy).
    cbn [at_groups first_match default]. by rewrite text_of_chars_of, Hvx, Hvy.
  - destruct Hok as (Hid & Hx & Hy).
    destruct (py_str_nonneg x Hx) as [Hdx Hvx], (py_str_nonneg y Hy) as [Hdy Hvy].
    wrong_head node_re. wrong_head highway_re. wrong_head station_re. wrong_head robot_re.
    assert (Re.re_match shelf_loc_re (show_at "shelf" id x y) = Some [chars_of id; py_str x; py_str y]) as ->
      by exact (at_text_match "init(object(shelf," _ _ _ Hid Hdx Hdy).
    cbn [at_groups first_match default]. by rewrite text_of_chars_of, Hvx, Hvy.
  - destruct Hok as (Ha & Hb & Hq). destruct (py_str_nonneg q Hq) as [Hdq Hvq].
    wrong_head node_re. wrong_head highway_re. wrong_head station_re. wrong_head robot_re.
    wrong_head shelf_loc_re.
    assert (Re.re_match product_re (show_count "product" "on" a b q)
            = Some [chars_of a; chars_of b; py_str q]) as ->
      by exact (count_text_match "init(object(product," "value(on," _ _ _ Ha Hb Hdq eq_refl ltac:(done)).
    cbn [at_groups count_groups first_match default]. by rewrite !text_of_chars_of, Hvq.
  - destruct Hok as (Ha & Hb).
    wrong_head node_re. wrong_head highway_re. wrong_head station_re. wrong_head robot_re.
    wrong_head shelf_loc_re. wrong_head product_re.
    rewrite (order_station_text_match (chars_of a) (chars_of b)) by done.
    cbn [at_groups count_groups pair_groups first_match default]. by rewrite !text_of_chars_of.
  - destruct Hok as (Ha & Hb & Hq). destruct (py_str_nonneg q Hq) as [Hdq Hvq].
    wrong_head node_re. wrong_head highway_re. wrong_head station_re. wrong_head robot_re.
    wrong_head shelf_loc_re. wrong_head product_re.
    assert (Re.re_match order_station_re (show_count "order" "line" a b q) = None) as ->
      by exact (order_station_no_line _ _ Ha).
    assert (Re.re_match order_line_re (show_count "order" "line" a b q)
            = Some [chars_of a; chars_of b; py_str q]) as ->
      by exact (count_text_match "init(object(order," "value(line," _ _ _ Ha Hb Hdq eq_refl ltac:(done)).
    cbn [at_groups count_groups pair_groups first_match default]. by rewrite !text_of_chars_of, Hvq.
Qed.

(** ** What [parse_init] makes of the facts *)

Lemma last_of_snoc {A} (pick : fact → option A) facts f :
  last_of pick (facts ++ [f]) = match pick f with Some v => Some v | None => last_of pick facts end.
Proof.
  unfold last_of. rewrite omap_app. simpl. destruct (pick f); simpl.
  - by rewrite last_snoc.
  - by rewrite app_nil_r.
Qed.

Lemma elem_of_omap_snoc {A} (pick : fact → option A) facts f c :
  c ∈ omap pick (facts ++ [f]) ↔ c ∈ omap pick facts ∨ pick f = Some c.
Proof.
  rewrite omap_app, elem_of_app. simpl. destruct (pick f) as [v|]; simpl.
  - rewrite list_elem_of_singleton. naive_solver.
  - rewrite elem_of_nil. naive_solver.
Qed.

Lemma foldr_max_snoc (l : list Z) x : foldr Z.max 0 (l ++ [x]) = Z.max (foldr Z.max 0 l) x.
Proof. induction l as [|y l IH]; simpl; [lia|]. rewrite IH. lia. Qed.

Lemma get_record_count key p q temp k :
  Dict.get k (record_count key p q temp) =
  if decide (k = key) then Some (<[p := q]> (default ∅ (Dict.get key temp))) else Dict.get k temp.
Proof.
  induction temp as [|[k' m] temp IH]; simpl.
  - repeat case_decide; simplify_eq; done.
  - destruct (decide (key = k')) as [->|Hne]; simpl.
    + repeat case_decide; simplify_eq; done.
    + rewrite IH. repeat case_decide; simplify_eq; done.
Qed.

Lemma keys_record_count key p q temp :
  NoDup (Dict.keys temp) → NoDup (Dict.keys (record_count key p q temp)).
Proof.
  unfold Dict.keys. induction temp as [|[k' m] temp IH]; simpl; intros Hnd.
  - apply NoDup_singleton.
  - apply NoDup_cons in Hnd as [Hk Hnd]. destruct (decide (key = k')) as [->|Hne]; simpl.
    + by apply NoDup_cons.
    + apply NoDup_cons. split; [|by apply IH].
      intros Hin. apply Hk. clear -Hin Hne.
      induction temp as [|[k'' m'] temp IH]; simpl in *.
      * apply list_elem_of_singleton in Hin. congruence.
      * destruct (decide (key = k'')) as [->|Hne']; simpl in *; [done|].
        apply elem_of_cons in Hin as [->|Hin]; [left|right; by apply IH].
Qed.

(** The count maps while reading: one map per key, its entries the last
    declared counts. *)
Lemma temp_step (pick : string → string → fact → option Z) facts f
    (temp temp' : list (string * gmap string Z)) :
  (∀ k, match Dict.get k temp with
        | Some m => (∀ p, m !! p = last_of (pick k p) facts) ∧ m ≠ ∅
        | None => ∀ p, last_of (pick k p) facts = None
        end) →
  (∀ k, Dict.get k temp' = Dict.get k temp ∧ (∀ p, pick k p f = None)
        ∨ ∃ p q, Dict.get k temp' = Some (<[p := q]> (default ∅ (Dict.get k temp))) ∧
                 pick k p f = Some q ∧ ∀ p', p' ≠ p → pick k p' f = None) →
  ∀ k, match Dict.get k temp' with
       | Some m => (∀ p, m !! p = last_of (pick k p) (facts ++ [f])) ∧ m ≠ ∅
       | None => ∀ p, last_of (pick k p) (facts ++ [f]) = None
       end.
Proof.
  intros Hinv Hstep k. specialize (Hinv k).
  destruct (Hstep k) as [[-> Hno]|(p & q & -> & Hp & Hother)].
  - destruct (Dict.get k temp) as [m|].
    + destruct Hinv as [Hm Hne]. split; [|done]. intros p. by rewrite last_of_snoc, Hno.
    + intros p. by rewrite last_of_snoc, Hno.
  - split.
    + intros p'. rewrite last_of_snoc. destruct (decide (p' = p)) as [->|Hne].
      * by rewrite Hp, lookup_insert_eq.
      * rewrite Hother, lookup_insert_ne by done.
        destruct (Dict.get k temp) as [m|]; simpl; [apply Hinv|by rewrite lookup_empty].
    + intros He. apply (f_equal (λ m : gmap string Z, m !! p)) in He.
      by rewrite lookup_insert_eq, lookup_empty in He.
Qed.

Lemma has_read_start : has_read [] parse_start.
Proof.
  unfold has_read. simpl. split_and!; try done; try (intros; set_solver).
  all: constructor.
Qed.

Lemma has_read_step facts e f : has_read facts e → has_read (facts ++ [f]) (read_fact e f).
Proof.
  intros (Hn & Hh & Hst & Hr & Hs & Hq & Hl & Hos & Nq & Nl & Ho & Hx & Hy & Hw).
  unfold has_read. split_and!.
  - intros c. rewrite elem_of_omap_snoc, <- Hn. destruct f; simpl; set_solver.
  - intros c. rewrite elem_of_omap_snoc, <- Hh. destruct f; simpl; set_solver.
  - intros s. rewrite last_of_snoc, <- Hst. destruct f; simpl; try done.
    rewrite lookup_insert. repeat case_decide; simplify_eq; done.
  - intros r. rewrite last_of_snoc. destruct f; simpl; try apply Hr.
    rewrite DictFacts.get_set. repeat case_decide; simplify_eq; done.
  - intros s. rewrite last_of_snoc. destruct f; simpl; try apply Hs.
    pose proof (Hs shelf_id) as Hsid. pose proof (Hs s) as Hss.
    destruct (Dict.get shelf_id (shelves (pe_state e))) as [sh|] eqn:E.
    + rewrite DictFacts.get_alter. repeat case_decide; simplify_eq; try done.
      destruct (Dict.get s (shelves (pe_state e))) as [sh'|]; [|done]. simpl.
      destruct (last_of (shelf_placed_at s) facts); simpl in *; by simplify_eq.
    + rewrite DictFacts.get_set. repeat case_decide; simplify_eq; done.
  - apply (temp_step quantity_of facts f (shelf_quantities_temp e)); [done|].
    intros k. destruct f; simpl; try (left; done).
    rewrite get_record_count. case_decide as Hk; [subst; right|left].
    + exists product_id, qty. split; [done|]. split; [by rewrite decide_True|].
      intros p' Hne. rewrite decide_False; [done|]. by intros [_ ?].
    + split; [done|]. intros p. rewrite decide_False; [done|]. intros [? _]. congruence.
  - apply (temp_step line_of facts f (order_reqs_temp e)); [done|].
    intros k. destruct f; simpl; try (left; done).
    rewrite get_record_count. case_decide as Hk; [subst; right|left].
    + exists product_id, qty. split; [done|]. split; [by rewrite decide_True|].
      intros p' Hne. rewrite decide_False; [done|]. by intros [_ ?].
    + split; [done|]. intros p. rewrite decide_False; [done|]. intros [? _]. congruence.
  - intros o. rewrite last_of_snoc, <- Hos. destruct f; simpl; try done.
    rewrite lookup_insert. repeat case_decide; simplify_eq; done.
  - destruct f; simpl; try done. by apply keys_record_count.
  - destruct f; simpl; try done. by apply keys_record_count.
  - destruct f; simpl; done.
  - rewrite omap_app, fmap_app. destruct f; simpl; rewrite ?app_nil_r; try done.
    rewrite foldr_max_snoc. by rewrite Hx.
  - rewrite omap_app, fmap_app. destruct f; simpl; rewrite ?app_nil_r; try done.
    rewrite foldr_max_snoc. by rewrite Hy.
  - rewrite omap_app. destruct f; simpl; rewrite ?app_nil_r; try done. by rewrite Hw.
Qed.

Lemma read_facts_has_read facts : has_read facts (fold_left read_fact facts parse_start).
Proof.
  induction facts as [|f facts IH] using rev_ind; [apply has_read_start|].
  rewrite fold_left_app. simpl. by apply has_read_step.
Qed.

Lemma link_shelves_get items : ∀ acc s,
  NoDup (Dict.keys items) →
  Dict.get s (fold_left link_shelf items acc).1 =
  (λ sh, Shelf (s_pos sh) (default (s_quantities sh) (Dict.get s items))) <$> Dict.get s acc.1.
Proof.
  induction items as [|[k m] items IH]; intros acc s Hnd; simpl.
  - destruct (Dict.get s acc.1) as [[]|]; done.
  - apply NoDup_cons in Hnd as [Hk Hnd]. rewrite IH by done.
    destruct (Dict.get k acc.1) as [sh0|] eqn:E; simpl.
    + rewrite DictFacts.get_alter. destruct (decide (s = k)) as [->|Hne].
      * rewrite decide_True by done. rewrite E. simpl.
        by rewrite (proj2 (DictFacts.get_None_keys k items) Hk).
      * by rewrite decide_False by done.
    + destruct (decide (s = k)) as [->|Hne]; [by rewrite E|done].
Qed.

Lemma link_orders_get stations items : ∀ acc o,
  NoDup (Dict.keys items) →
  Dict.get o (fold_left (link_order stations) items acc).1 =
  match Dict.get o items, stations !! o with
  | Some reqs, Some station_id => Some (Order station_id reqs)
  | _, _ => Dict.get o acc.1
  end.
Proof.
  induction items as [|[k m] items IH]; intros acc o Hnd; simpl; [done|].
  apply NoDup_cons in Hnd as [Hk Hnd]. rewrite IH by done.
  destruct (decide (o = k)) as [->|Hne].
  - rewrite (proj2 (DictFacts.get_None_keys k items) Hk).
    destruct (stations !! k) as [sid|]; simpl; [|done]. by rewrite DictFacts.get_set_eq.
  - destruct (Dict.get o items) as [reqs|]; [destruct (stations !! o); [done|]|];
      (destruct (stations !! k) as [sid|]; simpl; [|done]); by rewrite DictFacts.get_set_ne.
Qed.

Lemma get_fmap_values {A B} (g : A → B) (d : list (string * A)) k :
  Dict.get k ((λ kv : string * A, (kv.1, g kv.2)) <$> d) = g <$> Dict.get k d.
Proof.
  induction d as [|[k' v] d IH]; simpl; [done|]. by destruct (decide (k = k')).
Qed.

Lemma finish_parse_eq e :
  finish_parse e =
  (MkState (nodes (pe_state e)) (highways (pe_state e)) (picking_stations (pe_state e))
     (robots (pe_state e))
     ((λ kv : string * shelf,
         (kv.1, Shelf (s_pos kv.2) (fill_counts (products (pe_state e)) (s_quantities kv.2))))
        <$> (fold_left link_shelf (shelf_quantities_temp e) (shelves (pe_state e), pe_warnings e)).1)
     (products (pe_state e))
     ((λ kv : string * order,
         (kv.1, Order (o_station_id kv.2) (fill_counts (products (pe_state e)) (o_requirements kv.2))))
        <$> (fold_left (link_order (order_station_temp e)) (order_reqs_temp e)
               (orders (pe_state e),
                (fold_left link_shelf (shelf_quantities_temp e) (shelves (pe_state e), pe_warnings e)).2)).1),
   (pe_max_x e, pe_max_y e),
   (fold_left (link_order (order_station_temp e)) (order_reqs_temp e)
      (orders (pe_state e),
       (fold_left link_shelf (shelf_quantities_temp e) (shelves (pe_state e), pe_warnings e)).2)).2).
Proof.
  unfold finish_parse. cbv zeta.
  destruct (fold_left link_shelf _ _) as [shs w1]. simpl.
  by destruct (fold_left (link_order _) _ _) as [ods w2].
Qed.

Lemma init_places facts st dims :
  parse_init (Some facts) = Some (st, dims) →
  (∀ c, c ∈ nodes st ↔ c ∈ omap node_of facts) ∧
  (∀ c, c ∈ highways st ↔ c ∈ omap highway_of facts) ∧
  (∀ s, picking_stations st !! s = last_of (station_at s) facts) ∧
  (∀ r, Dict.get r (robots st) = (λ p, Robot p None) <$> last_of (robot_at r) facts) ∧
  (∀ s, s_pos <$> Dict.get s (shelves st) = Some <$> last_of (shelf_placed_at s) facts).
Proof.
  unfold parse_init, parse_init_log. simpl. rewrite finish_parse_eq. intros [= <- <-].
  destruct (read_facts_has_read facts)
    as (Hn & Hh & Hst & Hr & Hs & Hq & Hl & Hos & Nq & Nl & Ho & Hx & Hy & Hw).
  split_and!; try done. intros s. cbn [shelves].
  rewrite (get_fmap_values (λ sh, Shelf (s_pos sh) (fill_counts _ (s_quantities sh)))).
  rewrite link_shelves_get by done. cbn [fst]. rewrite Hs.
  by destruct (last_of (shelf_placed_at s) facts).
Qed.

Lemma init_counts_spec facts st dims :
  parse_init (Some facts) = Some (st, dims) →
  (∀ s sh p, Dict.get s (shelves st) = Some sh →
             s_quantities sh !! p = declared_count (last_of (quantity_of s p) facts) p facts) ∧
  (∀ o, is_Some (Dict.get o (orders st)) ↔
        is_Some (last_of (order_station_of o) facts) ∧
        ∃ p, is_Some (last_of (line_of o p) facts)) ∧
  (∀ o od p, Dict.get o (orders st) = Some od →
             last_of (order_station_of o) facts = Some (o_station_id od) ∧
             o_requirements od !! p = declared_count (last_of (line_of o p) facts) p facts).
Proof.
  unfold parse_init, parse_init_log. simpl. rewrite finish_parse_eq. intros [= <- <-].
  destruct (read_facts_has_read facts)
    as (Hn & Hh & Hst & Hr & Hs & Hq & Hl & Hos & Nq & Nl & Ho & Hx & Hy & Hw).
  pose proof (read_facts_products facts parse_start) as Hp. simpl in Hp.
  rewrite union_empty_r_L in Hp.
  assert (∀ o, Dict.get o
     ((λ kv : string * order,
         (kv.1, Order (o_station_id kv.2)
                  (fill_counts (products (pe_state (fold_left read_fact facts parse_start)))
                     (o_requirements kv.2))))
        <$> (fold_left (link_order (order_station_temp (fold_left read_fact facts parse_start)))
               (order_reqs_temp (fold_left read_fact facts parse_start))
               (orders (pe_state (fold_left read_fact facts parse_start)),
                (fold_left link_shelf (shelf_quantities_temp (fold_left read_fact facts parse_start))
                   (shelves (pe_state (fold_left read_fact facts parse_start)),
                    pe_warnings (fold_left read_fact facts parse_start))).2)).1)
     = match Dict.get o (order_reqs_temp (fold_left read_fact facts parse_start)),
             last_of (order_station_of o) facts with
       | Some reqs, Some sid => Some (Order sid (fill_counts (mentioned_products facts) reqs))
       | _, _ => None
       end) as Hod.
  { intros o.
    rewrite (get_fmap_values (λ od, Order (o_station_id od) (fill_counts _ (o_requirements od)))).
    rewrite link_orders_get by done. cbn [fst]. rewrite Ho, Hos, Hp. simpl.
    destruct (Dict.get o _) as [reqs|]; [|done]. by destruct (last_of (order_station_of o) facts). }
  cbn [shelves orders]. split_and!.
  - intros s sh p.
    rewrite (get_fmap_values (λ sh, Shelf (s_pos sh) (fill_counts _ (s_quantities sh)))).
    rewrite link_shelves_get by done. cbn [fst]. rewrite Hs, Hp.
    destruct (last_of (shelf_placed_at s) facts) as [c|]; [|done]. simpl. intros [= <-]. simpl.
    rewrite fill_counts_lookup. unfold declared_count. specialize (Hq s).
    destruct (Dict.get s _) as [m|]; simpl.
    + destruct Hq as [Hq _]. by rewrite Hq.
    + by rewrite Hq, lookup_empty.
  - intros o. rewrite Hod. specialize (Hl o).
    destruct (Dict.get o _) as [reqs|].
    + destruct Hl as [Hl Hne]. destruct (last_of (order_station_of o) facts) as [sid|].
      * split; [intros _|by eauto]. split; [by eauto|].
        destruct (map_choose reqs Hne) as (p & q & Hpq). exists p. rewrite <- Hl. eauto.
      * split; [by intros [? ?]|]. by intros [[? ?] _].
    + split; [by intros [? ?]|]. intros [_ (p & Hp')]. rewrite Hl in Hp'. by destruct Hp'.
  - intros o od p. rewrite Hod. specialize (Hl o).
    destruct (Dict.get o _) as [reqs|]; [|done]. destruct Hl as [Hl _].
    destruct (last_of (order_station_of o) facts) as [sid|]; [|done].
    intros [= <-]. simpl. split; [done|].
    rewrite fill_counts_lookup. unfold declared_count. by rewrite Hl.
Qed.

(** X17.  Every entity stands where its last declaration puts it: the nodes
    and highways are the declared cells, a picking station, a robot or a
    shelf that is declared several times is at the position of its last
    declaration, robots carry nothing, and nothing else is in the state. *)
Theorem parse_init_places facts st dims :
  parse_init (Some facts) = Some (st, dims) →
  (∀ c, c ∈ nodes st ↔ c ∈ omap node_of facts) ∧
  (∀ c, c ∈ highways st ↔ c ∈ omap highway_of facts) ∧
  (∀ s, picking_stations st !! s = last_of (station_at s) facts) ∧
  (∀ r, Dict.get r (robots st) = (λ p, Robot p None) <$> last_of (robot_at r) facts) ∧
  (∀ s, s_pos <$> Dict.get s (shelves st) = Some <$> last_of (shelf_placed_at s) facts).
Proof. apply init_places. Qed.

(** X18.  The counts after normalization: a shelf holds, of each product,
    the quantity last declared for it, and zero of a product of the universe
    that was not declared for it.  An order is in the state exactly when it
    has a station binding and at least one line; its station is the last one
    bound, and its requirements are the last declared ones, zero for the
    other products of the universe. *)
Theorem parse_init_counts facts st dims :
  parse_init (Some facts) = Some (st, dims) →
  (∀ s sh p, Dict.get s (shelves st) = Some sh →
             s_quantities sh !! p = declared_count (last_of (quantity_of s p) facts) p facts) ∧
  (∀ o, is_Some (Dict.get o (orders st)) ↔
        is_Some (last_of (order_station_of o) facts) ∧
        ∃ p, is_Some (last_of (line_of o p) facts)) ∧
  (∀ o od p, Dict.get o (orders st) = Some od →
             last_of (order_station_of o) facts = Some (o_station_id od) ∧
             o_requirements od !! p = declared_count (last_of (line_of o p) facts) p facts).
Proof. apply init_counts_spec. Qed.

Lemma foldr_max_bounds (l : list Z) :
  0 ≤ foldr Z.max 0 l ∧ (∀ x, x ∈ l → x ≤ foldr Z.max 0 l) ∧
  (foldr Z.max 0 l = 0 ∨ foldr Z.max 0 l ∈ l).
Proof.
  induction l as [|y l (H0 & Hle & Hin)]; simpl.
  - split_and!; [done|intros x Hx; by apply elem_of_nil in Hx|by left].
  - split_and!; [lia| |].
    + intros x Hx. apply elem_of_cons in Hx as [->|Hx]; [lia|]. specialize (Hle x Hx). lia.
    + destruct (Z.max_spec y (foldr Z.max 0 l)) as [[_ ->]|[_ ->]].
      * destruct Hin as [->|Hin]; [by left|right; by right].
      * right. left.
Qed.

(** X19.  The grid dimensions are the largest coordinates of the nodes, and
    zero without nodes: every node lies within them, and each of them is
    reached by a node unless it is zero.  Highways, stations, robots and
    shelves do not widen the grid. *)
Theorem parse_init_grid_dims facts st dims :
  parse_init (Some facts) = Some (st, dims) →
  0 ≤ dims.1 ∧ 0 ≤ dims.2 ∧
  (∀ x y, (x, y) ∈ nodes st → x ≤ dims.1 ∧ y ≤ dims.2) ∧
  (dims.1 = 0 ∨ ∃ y, (dims.1, y) ∈ nodes st) ∧
  (dims.2 = 0 ∨ ∃ x, (x, dims.2) ∈ nodes st).
Proof.
  unfold parse_init, parse_init_log. simpl. rewrite finish_parse_eq. intros [= <- <-].
  destruct (read_facts_has_read facts)
    as (Hn & Hh & Hst & Hr & Hs & Hq & Hl & Hos & Nq & Nl & Ho & Hx & Hy & Hw).
  cbn [fst snd nodes]. rewrite Hx, Hy.
  destruct (foldr_max_bounds (omap node_of facts).*1) as (Hx0 & Hxle & Hxin).
  destruct (foldr_max_bounds (omap node_of facts).*2) as (Hy0 & Hyle & Hyin).
  split_and!; [done|done| | |].
  - intros x y Hin. apply Hn in Hin. split.
    + apply Hxle. apply list_elem_of_fmap. by exists (x, y).
    + apply Hyle. apply list_elem_of_fmap. by exists (x, y).
  - destruct Hxin as [?|Hin]; [by left|right].
    apply list_elem_of_fmap in Hin as ([x y] & Hxy & Hin). exists y. apply Hn. simpl in Hxy. by subst.
  - destruct Hyin as [?|Hin]; [by left|right].
    apply list_elem_of_fmap in Hin as ([x y] & Hxy & Hin). exists x. apply Hn. simpl in Hxy. by subst.
Qed.

Lemma last_of_None {A} (pick : fact → option A) facts :
  last_of pick facts = None ↔ ∀ f, f ∈ facts → pick f = None.
Proof.
  unfold last_of. rewrite last_None. split.
  - intros Hnil f Hin. destruct (pick f) as [v|] eqn:E; [|done].
    assert (v ∈ omap pick facts) as Hv by (apply list_elem_of_omap; eauto).
    rewrite Hnil in Hv. by apply elem_of_nil in Hv.
  - intros Hall. destruct (omap pick facts) as [|v l] eqn:E; [done|].
    assert (v ∈ omap pick facts) as Hv by (rewrite E; left).
    apply list_elem_of_omap in Hv as (f & Hin & Hf). rewrite (Hall f Hin) in Hf. done.
Qed.

Lemma last_of_is_Some {A} (pick : fact → option A) facts :
  is_Some (last_of pick facts) ↔ ∃ f, f ∈ facts ∧ is_Some (pick f).
Proof.
  rewrite <- not_eq_None_Some, last_of_None. split.
  - intros Hn. destruct (decide (Exists (λ f, is_Some (pick f)) facts)) as [He|He].
    + apply Exists_exists in He. naive_solver.
    + destruct Hn. intros f Hin. destruct (pick f) eqn:E; [|done].
      destruct He. apply Exists_exists. exists f. rewrite E. eauto.
  - intros (f & Hin & [v Hv]) Hall. rewrite (Hall f Hin) in Hv. done.
Qed.

Lemma get_is_Some_elem_keys {V} k (d : list (string * V)) :
  is_Some (Dict.get k d) ↔ k ∈ Dict.keys d.
Proof.
  rewrite <- not_eq_None_Some, DictFacts.get_None_keys.
  split; [apply dec_stable|by intros ? ?].
Qed.

Lemma link_shelves_log items : ∀ acc,
  (fold_left link_shelf items acc).2 =
  acc.2 ++ (POrphanQuantity <$> filter (λ k, Dict.get k acc.1 = None) (Dict.keys items)).
Proof.
  induction items as [|[k m] items IH]; intros acc; simpl.
  - by rewrite app_nil_r.
  - rewrite IH. unfold Dict.keys. cbn [fmap list_fmap fst]. rewrite filter_cons.
    destruct (Dict.get k acc.1) as [sh|] eqn:E.
    + rewrite decide_False by done. simpl. f_equal. f_equal.
      apply list_filter_iff. intros x. rewrite DictFacts.get_alter.
      case_decide; subst; [rewrite E|]; done.
    + rewrite decide_True by done. simpl. by rewrite <- app_assoc.
Qed.

Lemma link_orders_log stations items : ∀ acc,
  (fold_left (link_order stations) items acc).2 =
  acc.2 ++ (POrphanOrderLine <$> filter (λ k, stations !! k = None) (Dict.keys items)).
Proof.
  induction items as [|[k m] items IH]; intros acc; simpl.
  - by rewrite app_nil_r.
  - rewrite IH. unfold Dict.keys. cbn [fmap list_fmap fst]. rewrite filter_cons.
    destruct (stations !! k) as [sid|] eqn:E.
    + by rewrite decide_False by done.
    + rewrite decide_True by done. simpl. by rewrite <- app_assoc.
Qed.

(** X20.  The diagnostics of [parse_init]: one for every line that fits no
    pattern, one for every shelf that has a product quantity but no
    location, one for every order that has a line but no station, and no
    other.  An order with a station and no line is dropped without a
    diagnostic. *)
Theorem parse_init_diagnostics facts st dims ws :
  parse_init_log (Some facts) = Some (st, dims, ws) →
  (∀ line, PUnmatchedLine line ∈ ws ↔ FUnmatched line ∈ facts) ∧
  (∀ s, POrphanQuantity s ∈ ws ↔
        (∃ p q, FProduct p s q ∈ facts) ∧ ∀ x y, FShelf s x y ∉ facts) ∧
  (∀ o, POrphanOrderLine o ∈ ws ↔
        (∃ p q, FOrderLine o p q ∈ facts) ∧ ∀ sid, FOrderStation o sid ∉ facts).
Proof.
  unfold parse_init_log. rewrite finish_parse_eq. intros [= <- <- <-].
  destruct (read_facts_has_read facts)
    as (Hn & Hh & Hst & Hr & Hs & Hq & Hl & Hos & Nq & Nl & Ho & Hx & Hy & Hw).
  rewrite link_orders_log, link_shelves_log. cbn [fst snd]. rewrite Hw.
  set (e := fold_left read_fact facts parse_start) in *.
  assert (∀ s, s ∈ Dict.keys (shelf_quantities_temp e) ↔ ∃ p q, FProduct p s q ∈ facts) as Kq.
  { intros s. rewrite <- get_is_Some_elem_keys. specialize (Hq s).
    destruct (Dict.get s _) as [m|].
    - destruct Hq as [Hq Hne]. split; [intros _|by eauto].
      destruct (map_choose m Hne) as (p & q & Hpq). rewrite Hq in Hpq.
      destruct (proj1 (last_of_is_Some _ _) (mk_is_Some _ _ Hpq)) as (f & Hin & [v Hv]).
      destruct f; simpl in Hv; try done. case_decide as Hd; [|done]. destruct Hd as [-> ->]. eauto.
    - split; [by intros [? ?]|]. intros (p & q & Hin).
      pose proof (proj1 (last_of_None _ _) (Hq p) _ Hin) as Hf. simpl in Hf.
      by rewrite decide_True in Hf. }
  assert (∀ o, o ∈ Dict.keys (order_reqs_temp e) ↔ ∃ p q, FOrderLine o p q ∈ facts) as Kl.
  { intros o. rewrite <- get_is_Some_elem_keys. specialize (Hl o).
    destruct (Dict.get o _) as [m|].
    - destruct Hl as [Hl Hne]. split; [intros _|by eauto].
      destruct (map_choose m Hne) as (p & q & Hpq). rewrite Hl in Hpq.
      destruct (proj1 (last_of_is_Some _ _) (mk_is_Some _ _ Hpq)) as (f & Hin & [v Hv]).
      destruct f; simpl in Hv; try done. case_decide as Hd; [|done]. destruct Hd as [-> ->]. eauto.
    - split; [by intros [? ?]|]. intros (p & q & Hin).
      pose proof (proj1 (last_of_None _ _) (Hl p) _ Hin) as Hf. simpl in Hf.
      by rewrite decide_True in Hf. }
  split_and!.
  - intros line. rewrite !elem_of_app, !list_elem_of_fmap, list_elem_of_omap. split.
    + intros [[(f & Hin & Hf)|(? & ? & _)]|(? & ? & _)]; try done.
      destruct f; try done. by injection Hf as ->.
    + intros Hin. left. left. by exists (FUnmatched line).
  - intros s. rewrite !elem_of_app, !list_elem_of_fmap, list_elem_of_omap. split.
    + intros [[(f & Hin & Hf)|(k & [= <-] & Hk)]|(? & ? & _)]; try done.
      { by destruct f. }
      apply list_elem_of_filter in Hk as [Hnone Hk]. split; [by apply Kq|].
      intros x y Hin. rewrite Hs in Hnone.
      destruct (last_of (shelf_placed_at s) facts) eqn:E; [done|].
      pose proof (proj1 (last_of_None _ _) E _ Hin) as Hf. simpl in Hf. by rewrite decide_True in Hf.
    + intros [Hp Hno]. left. right. exists s. split; [done|].
      apply list_elem_of_filter. split; [|by apply Kq].
      rewrite Hs. assert (last_of (shelf_placed_at s) facts = None) as ->; [|done].
      apply last_of_None. intros f Hin. destruct f; simpl; try done.
      case_decide; [subst|done]. by destruct (Hno x y).
  - intros o. rewrite !elem_of_app, !list_elem_of_fmap, list_elem_of_omap. split.
    + intros [[(f & Hin & Hf)|(? & ? & _)]|(k & [= <-] & Hk)]; try done.
      { by destruct f. }
      apply list_elem_of_filter in Hk as [Hnone Hk]. split; [by apply Kl|].
      intros sid Hin. rewrite Hos in Hnone.
      pose proof (proj1 (last_of_None _ _) Hnone _ Hin) as Hf. simpl in Hf. by rewrite decide_True in Hf.
    + intros [Hp Hno]. right. exists o. split; [done|].
      apply list_elem_of_filter. split; [|by apply Kl].
      rewrite Hos. apply last_of_None. intros f Hin. destruct f; simpl; try done.
      case_decide; [subst|done]. by destruct (Hno station_id).
Qed.

(** ** The parsers on text, end to end *)

Lemma occurs_re_inv s r :
  Re.re_match occurs_re s = Some r →
  ∃ R A T, r = [R; A; T] ∧ run_of Re.Word R ∧ run_of Re.Dot A ∧ run_of Re.Digit T.
Proof.
  unfold Re.re_match, occurs_re. intros H.
  apply run_Lit_inv in H as (s1 & -> & H).
  apply run_Star_inv in H as (w1 & s2 & -> & _ & H).
  apply run_group_inv in H as (R & s3 & -> & HR & H).
  apply run_Lit_inv in H as (s4 & -> & H).
  apply run_Star_inv in H as (w2 & s5 & -> & _ & H).
  apply run_group_inv in H as (A & s6 & -> & HA & H).
  apply run_Star_inv in H as (w3 & s7 & -> & _ & H).
  apply run_Lit_inv in H as (s8 & -> & H).
  apply run_Star_inv in H as (w4 & s9 & -> & _ & H).
  apply run_group_inv in H as (T & s10 & -> & HT & H).
  apply run_Lit_inv in H as (s11 & -> & H).
  rewrite run_nil in H. injection H as <-. exists R, A, T. done.
Qed.

Lemma match_occurs_ok s r a t :
  match_occurs s = Some (r, a, t) → token r ∧ a ≠ EmptyString ∧ 0 ≤ t.
Proof.
  unfold match_occurs. destruct (Re.re_match occurs_re _) as [g|] eqn:E; [|done].
  apply occurs_re_inv in E as (R & A & T & -> & HR & HA & HT). intros [= <- <- <-].
  split_and!.
  - unfold token. by rewrite chars_of_text_of.
  - apply text_of_nonempty. by destruct HA.
  - by apply int_digits_nonneg.
Qed.

Lemma parse_action_string_ok s :
  is_unknown (parse_action_string s) = false → writable (parse_action_string s).
Proof.
  unfold parse_action_string. cbv zeta.
  destruct (Re.re_match move_re _) as [g|] eqn:Em.
  { apply move_re_inv in Em as (a & b & rest & _ & _ & _ & ->). done. }
  case_bool_decide; [done|]. case_bool_decide; [done|].
  destruct (Re.re_match deliver_re _) as [g|] eqn:Ed; [|done].
  apply deliver_re_inv in Ed as (o & p & d & rest & _ & Ho & Hp & Hd & ->).
  intros _. simpl. unfold token. rewrite !chars_of_text_of.
  split_and!; [done..|]. by apply int_digits_nonneg.
Qed.

Lemma read_atoms_writable atoms : ∀ plan max_time plan' max_time',
  (∀ t acts, plan !! t = Some acts → 0 ≤ t ∧ Forall (λ ai : action_info, token ai.1 ∧ writable ai.2) acts) →
  read_atoms match_occurs parse_action_string atoms plan max_time = Some (plan', max_time') →
  ∀ t acts, plan' !! t = Some acts → 0 ≤ t ∧ Forall (λ ai : action_info, token ai.1 ∧ writable ai.2) acts.
Proof.
  induction atoms as [|atom atoms IH]; intros plan mt plan' mt' Hok Hrun.
  - by injection Hrun as <- <-.
  - destruct atom; try discriminate Hrun. cbn [read_atoms] in Hrun.
    destruct (match_occurs s) as [[[r a] t]|] eqn:Em; [|by eapply IH].
    eapply IH; [|exact Hrun]. apply match_occurs_ok in Em as (Hr & _ & Ht).
    intros t' acts. destruct (is_unknown (parse_action_string a)) eqn:Eu; [apply Hok|].
    rewrite lookup_insert. case_decide as Heq; [|apply Hok].
    intros [= <-]. subst t'. split; [done|]. apply Forall_app. split.
    + unfold actions_at. destruct (plan !! t) as [acts0|] eqn:El; simpl; [|constructor].
      by destruct (Hok _ _ El).
    + constructor; [|constructor]. split; [done|]. by apply parse_action_string_ok.
Qed.

Lemma plan_text_writable file plan max_time :
  parse_plan_text file = Some (plan, max_time) →
  ∀ t acts, plan !! t = Some acts →
    0 ≤ t ∧ Forall (λ ai : action_info, token ai.1 ∧ writable ai.2) acts.
Proof.
  assert (∀ t acts, (∅ : gmap Z (list action_info)) !! t = Some acts →
            0 ≤ t ∧ Forall (λ ai : action_info, token ai.1 ∧ writable ai.2) acts) as Hempty.
  { intros t acts Hl. by rewrite lookup_empty in Hl. }
  unfold parse_plan_text, parse_plan, parse_plan_log. destruct file as [| |data]; try done.
  unfold parse_plan_data. intros H.
  destruct (json_get "Call" data) as [call|]; [|done]. cbn [mbind option_bind] in H.
  destruct (json_truthy call); cbn [negb] in H.
  2: { by injection H as <- <-. }
  destruct (json_first call) as [first_call|]; [|done]. cbn [mbind option_bind] in H.
  destruct (json_get "Witnesses" first_call) as [witnesses|]; [|done]. cbn [mbind option_bind] in H.
  destruct (json_truthy witnesses); cbn [negb] in H.
  2: { by injection H as <- <-. }
  destruct (json_first witnesses) as [witness|]; [|done]. cbn [mbind option_bind] in H.
  destruct witness; try done. cbn [mbind option_bind] in H.
  destruct (json_iter _) as [atoms|]; [|done]. cbn [mbind option_bind] in H.
  destruct (read_atoms _ _ atoms ∅ 0) as [[plan' mt']|] eqn:Erun; [|done].
  injection H as <- <-. by eapply read_atoms_writable.
Qed.

(** X21.  Whatever the plan document, what [parse_plan] keeps of it is well
    formed: times are not negative, robots and the identifiers of a Deliver
    are tokens, units are not negative, and no action is of the unknown
    type. *)
Theorem parse_plan_text_gives_writable_actions file plan max_time :
  parse_plan_text file = Some (plan, max_time) →
  ∀ t acts, plan !! t = Some acts →
    0 ≤ t ∧ Forall (λ ai : action_info, token ai.1 ∧ writable ai.2) acts.
Proof. apply plan_text_writable. Qed.

Lemma writable_units ai : writable ai.2 → units_nonneg ai.
Proof. destruct ai as [r []]; simpl; unfold units_nonneg; simpl; try done. by intros (_ & _ & ?). Qed.

Lemma plan_text_units file plan max_time t :
  parse_plan_text file = Some (plan, max_time) → Forall units_nonneg (actions_at plan t).
Proof.
  intros H. unfold actions_at. destruct (plan !! t) as [acts|] eqn:E; [|constructor].
  destruct (plan_text_writable _ _ _ H _ _ E) as [_ Hall].
  eapply Forall_impl; [exact Hall|]. intros ai [_ Hw]. by apply writable_units.
Qed.

Lemma token_nonempty s : token s → s ≠ EmptyString.
Proof. intros [Hne _] ->. done. Qed.

Lemma lines_facts_ok lines : Forall fact_ok (omap read_line lines).
Proof.
  apply Forall_forall. intros f Hin. apply list_elem_of_omap in Hin as (line & _ & Hl).
  by apply read_line_ok in Hl.
Qed.

Lemma fact_ok_ids f : fact_ok f → fact_ids_nonempty f.
Proof.
  destruct f; simpl; try done.
  - intros (Ht & _). by apply token_nonempty.
  - intros (_ & Ht). by apply token_nonempty.
Qed.

Lemma last_of_Some_elem {A} (pick : fact → option A) facts v :
  last_of pick facts = Some v → ∃ f, f ∈ facts ∧ pick f = Some v.
Proof.
  unfold last_of. intros H.
  assert (v ∈ omap pick facts) as Hv.
  { destruct (omap pick facts) as [|x l] using rev_ind; [done|].
    rewrite last_snoc in H. injection H as ->. apply elem_of_app. right. left. }
  by apply list_elem_of_omap in Hv.
Qed.

Lemma declared_count_nonneg (pick : fact → option Z) p facts q :
  (∀ f v, f ∈ facts → pick f = Some v → 0 ≤ v) →
  declared_count (last_of pick facts) p facts = Some q → 0 ≤ q.
Proof.
  intros Hpick. unfold declared_count. destruct (last_of pick facts) as [v|] eqn:E.
  - intros [= <-]. apply last_of_Some_elem in E as (f & Hin & Hf). eauto.
  - case_decide; [|done]. by intros [= <-].
Qed.

Lemma init_counts facts st dims :
  parse_init (Some facts) = Some (st, dims) →
  (∀ s sh p, Dict.get s (shelves st) = Some sh →
             s_quantities sh !! p = declared_count (last_of (quantity_of s p) facts) p facts) ∧
  (∀ o od p, Dict.get o (orders st) = Some od →
             o_requirements od !! p = declared_count (last_of (line_of o p) facts) p facts).
Proof.
  intros H. destruct (init_counts_spec facts st dims H) as (H1 & _ & H3).
  split; [done|]. intros o od p Ho. by destruct (H3 o od p Ho).
Qed.

Lemma parsed_counts_nonneg facts st dims :
  Forall fact_ok facts → parse_init (Some facts) = Some (st, dims) → counts_nonneg st.
Proof.
  intros Hok H. destruct (init_counts facts st dims H) as [Hs Ho].
  rewrite Forall_forall in Hok. split.
  - intros s sh p Hg. unfold stock_count. rewrite (Hs s sh p Hg).
    destruct (declared_count _ p facts) as [q|] eqn:E; [|done]. simpl.
    apply (declared_count_nonneg _ _ _ _) in E; [done|].
    intros f v Hin Hf. specialize (Hok f Hin). destruct f; simpl in *; try done.
    case_decide; [|done]. injection Hf as <-. by destruct Hok as (_ & _ & ?).
  - intros o od p Hg. unfold req_count. rewrite (Ho o od p Hg).
    destruct (declared_count _ p facts) as [q|] eqn:E; [|done]. simpl.
    apply (declared_count_nonneg _ _ _ _) in E; [done|].
    intros f v Hin Hf. specialize (Hok f Hin). destruct f; simpl in *; try done.
    case_decide; [|done]. injection Hf as <-. by destruct Hok as (_ & _ & ?).
Qed.

Lemma update_state_counts st acts :
  Forall units_nonneg acts → counts_nonneg st →
  counts_fall st (update_state st acts) ∧ counts_nonneg (update_state st acts).
Proof.
  intros Hu [Hs Ho]. rewrite update_state_fold. split; [split|split].
  - intros s sh p Hg.
    destruct (fold_stock st s p acts st sh Hu Hg (Hs s sh p Hg)) as (sh' & ? & _ & ?). eauto.
  - intros o od p Hg.
    destruct (fold_requirement st o p acts st od Hu Hg (Ho o od p Hg)) as (od' & ? & _ & _ & ?). eauto.
  - intros s sh' p Hg'.
    destruct (get_is_Some_keys s (shelves (fold_left (step st) acts st)) (shelves st)) as [sh Hg];
      [apply fold_keys|by eauto|].
    destruct (fold_stock st s p acts st sh Hu Hg (Hs s sh p Hg)) as (sh2 & Hg2 & _ & ?).
    rewrite Hg' in Hg2. injection Hg2 as <-. lia.
  - intros o od' p Hg'.
    destruct (get_is_Some_keys o (orders (fold_left (step st) acts st)) (orders st)) as [od Hg];
      [apply fold_keys|by eauto|].
    destruct (fold_requirement st o p acts st od Hu Hg (Ho o od p Hg)) as (od2 & Hg2 & _ & _ & ?).
    rewrite Hg' in Hg2. injection Hg2 as <-. lia.
Qed.

Lemma frames_counts plan n : ∀ t st0 i st st',
  (∀ t, Forall units_nonneg (actions_at plan t)) →
  counts_nonneg st0 →
  (st0 :: frames_from plan t n st0) !! i = Some st →
  (st0 :: frames_from plan t n st0) !! S i = Some st' →
  counts_fall st st'.
Proof.
  induction n as [|n IH]; intros t st0 i st st' Hu H0 Hi Hi'.
  - destruct i; done.
  - cbn [frames_from] in *.
    destruct (update_state_counts st0 (actions_at plan t) (Hu t) H0) as [Hfall Hnn].
    destruct i as [|i].
    + simpl in Hi, Hi'. by simplify_eq.
    + apply (IH (t + 1) (update_state st0 (actions_at plan t)) i st st' Hu Hnn); done.
Qed.

(** X22.  Along a whole run of the program, whatever the two files contain,
    no shelf quantity and no order requirement ever rises or becomes
    negative from one frame to the next, and no shelf or order disappears. *)
Theorem counts_never_rise_in_a_run init_file plan_path frames i st st' :
  main_text init_file plan_path = Completed frames →
  frames !! i = Some st → frames !! S i = Some st' →
  counts_fall st st'.
Proof.
  unfold main_text, main. intros Hrun Hi Hi'.
  destruct init_file as [lines|]; [|done]. cbn [fmap option_fmap option_map] in Hrun.
  destruct (parse_init (Some (omap read_line lines))) as [[st0 dims]|] eqn:Ei; [|done].
  destruct (parse_plan match_occurs parse_action_string plan_path) as [[plan mt]|] eqn:Ep; [|done].
  injection Hrun as <-.
  apply (frames_counts plan (Z.to_nat mt) 1 st0 i st st'); try done.
  - intros t. by apply (plan_text_units plan_path plan mt).
  - apply (parsed_counts_nonneg _ _ _ (lines_facts_ok lines) Ei).
Qed.

(** ** The grid of [visualize_step] *)

Lemma in_grid_spec dims pos :
  in_grid dims pos = true ↔ 1 ≤ pos.1 ≤ dims.1 ∧ 1 ≤ pos.2 ≤ dims.2.
Proof.
  unfold in_grid. rewrite andb_true_iff, !bool_decide_eq_true. naive_solver.
Qed.

Lemma elem_of_cells dims pos : pos ∈ cells dims ↔ in_grid dims pos = true.
Proof.
  rewrite in_grid_spec. unfold cells. rewrite list_elem_of_bind. split.
  - intros (r & Hc & Hr). apply list_elem_of_bind in Hc as (c & Hp & Hc).
    apply list_elem_of_singleton in Hp as ->. apply elem_of_seqZ in Hr. apply elem_of_seqZ in Hc.
    simpl. lia.
  - intros [Hx Hy]. exists pos.2. split; [|apply elem_of_seqZ; lia].
    apply list_elem_of_bind. exists pos.1. split; [|apply elem_of_seqZ; lia].
    destruct pos. simpl. left.
Qed.

Lemma blank_shaped dims : shaped dims (blank_grid dims).
Proof.
  unfold shaped, blank_grid. rewrite length_replicate. split; [done|].
  apply Forall_replicate. by rewrite length_replicate.
Qed.

Lemma set_cell_shaped dims pos v g : shaped dims g → shaped dims (set_cell pos v g).
Proof.
  intros [Hl Hr]. unfold shaped, set_cell. rewrite length_alter. split; [done|].
  apply Forall_alter; [done|]. intros row _ Hrow. by rewrite length_insert.
Qed.

Lemma get_blank dims q : get_cell q (blank_grid dims) = chars_of " ".
Proof.
  unfold get_cell, blank_grid.
  destruct (replicate _ _ !! Z.to_nat q.2) as [row|] eqn:E; [|done]. simpl.
  apply lookup_replicate in E as [-> _].
  destruct (replicate _ _ !! Z.to_nat q.1) as [cell|] eqn:E'; [|done]. simpl.
  by apply lookup_replicate in E' as [-> _].
Qed.

Lemma get_set_cell dims g p q v :
  shaped dims g → in_grid dims p = true →
  get_cell q (set_cell p v g) = if decide (p = q) then v else get_cell q g.
Proof.
  intros [Hl Hr] Hp. apply in_grid_spec in Hp as [Hx Hy]. unfold get_cell, set_cell.
  rewrite list_lookup_alter. case_decide as Hy2.
  - rewrite Hy2. destruct (g !! Z.to_nat q.2) as [row|] eqn:Erow.
    2: { apply lookup_ge_None in Erow. lia. }
    assert (length row = Z.to_nat (dims.1 + 1)) as Hrow.
    { by apply (proj1 (Forall_forall _ _) Hr), (list_elem_of_lookup_2 _ _ _ Erow). }
    simpl. destruct (decide (Z.to_nat p.1 = Z.to_nat q.1)) as [Hx2|Hx2].
    + rewrite Hx2, list_lookup_insert_eq by lia. simpl.
      rewrite decide_True; [done|]. destruct p, q. simpl in *. f_equal; lia.
    + rewrite list_lookup_insert_ne by done. rewrite decide_False; [done|congruence].
  - rewrite decide_False; [done|]. intros ->. done.
Qed.

(** A loop of guarded writes leaves, in each cell, what the last write to
    that cell put there. *)
Lemma fold_writes {A} (step : list (list (list ascii)) → A → list (list (list ascii)))
    (target : A → option (coord * list ascii)) dims l :
  (∀ g a, step g a = match target a with Some (p, v) => set_cell p v g | None => g end) →
  (∀ a p v, a ∈ l → target a = Some (p, v) → in_grid dims p = true) →
  ∀ g q, shaped dims g →
    shaped dims (fold_left step l g) ∧
    get_cell q (fold_left step l g) =
    default (get_cell q g)
      (last (omap (λ a, match target a with
                        | Some (p, v) => if decide (p = q) then Some v else None
                        | None => None
                        end) l)).
Proof.
  intros Hstep. induction l as [|a l IH] using rev_ind; intros Hin g q Hg; [done|].
  rewrite fold_left_app, omap_app. simpl.
  assert (∀ a p v, a ∈ l → target a = Some (p, v) → in_grid dims p = true) as Hin'.
  { intros a' p v Ha. apply Hin. apply elem_of_app. by left. }
  destruct (IH Hin' g q Hg) as [Hsh Hget].
  rewrite Hstep. destruct (target a) as [[p v]|] eqn:Et.
  - assert (in_grid dims p = true) as Hp.
    { apply (Hin a p v); [|done]. apply elem_of_app. right. left. }
    split; [by apply set_cell_shaped|].
    rewrite (get_set_cell dims) by done.
    case_decide; simpl; [by rewrite last_snoc|by rewrite app_nil_r].
  - simpl. by rewrite app_nil_r.
Qed.

Lemma omap_when_filter {A B} (P : A → Prop) `{∀ x, Decision (P x)} (f : A → B) (l : list A) :
  omap (λ a, if decide (P a) then Some (f a) else None) l = f <$> filter P l.
Proof.
  induction l as [|a l IH]; [done|]. cbn [omap list_omap]. rewrite filter_cons.
  case_decide; cbn [fmap list_fmap]; by rewrite IH.
Qed.

Lemma terrain_write st dims g p q :
  shaped dims g → in_grid dims p = true →
  let g1 := if bool_decide (p ∈ nodes st) then set_cell p (chars_of ".") g else g in
  let g2 := if bool_decide (p ∈ highways st) then set_cell p (chars_of "#") g1 else g1 in
  shaped dims g2 ∧
  get_cell q g2 =
  if decide (p = q) then
    if bool_decide (p ∈ highways st) then chars_of "#"
    else if bool_decide (p ∈ nodes st) then chars_of "."
    else get_cell q g
  else get_cell q g.
Proof.
  intros Hg Hp. cbv zeta.
  destruct (bool_decide (p ∈ nodes st)), (bool_decide (p ∈ highways st));
    (split; [repeat apply set_cell_shaped; done|]);
    rewrite ?(get_set_cell dims) by (done || by apply set_cell_shaped);
    destruct (decide (p = q)); subst; done.
Qed.

Lemma terrain_cells st dims l : ∀ g q,
  shaped dims g → (∀ p, p ∈ l → in_grid dims p = true) →
  shaped dims (fold_left (λ grid pos,
      let grid := if bool_decide (pos ∈ nodes st) then set_cell pos (chars_of ".") grid else grid in
      if bool_decide (pos ∈ highways st) then set_cell pos (chars_of "#") grid else grid) l g) ∧
  get_cell q (fold_left (λ grid pos,
      let grid := if bool_decide (pos ∈ nodes st) then set_cell pos (chars_of ".") grid else grid in
      if bool_decide (pos ∈ highways st) then set_cell pos (chars_of "#") grid else grid) l g)
  = if decide (q ∈ l) then
      if bool_decide (q ∈ highways st) then chars_of "#"
      else if bool_decide (q ∈ nodes st) then chars_of "."
      else get_cell q g
    else get_cell q g.
Proof.
  induction l as [|p l IH] using rev_ind; intros g q Hg Hin.
  { split; [done|]. rewrite decide_False; [done|apply not_elem_of_nil]. }
  rewrite fold_left_app. cbn [fold_left].
  destruct (IH g q Hg) as [Hsh Hget].
  { intros p' Hp'. apply Hin, elem_of_app. by left. }
  assert (in_grid dims p = true) as Hp by (apply Hin, elem_of_app; right; left).
  destruct (terrain_write st dims _ p q Hsh Hp) as [Hsh' Hget'].
  split; [exact Hsh'|]. etrans; [exact Hget'|]. rewrite Hget. clear.
  destruct (decide (p = q)) as [->|Hne].
  - rewrite (decide_True (P := q ∈ l ++ [q])) by (apply elem_of_app; right; left).
    destruct (bool_decide (q ∈ highways st)); [done|].
    destruct (bool_decide (q ∈ nodes st)); [done|]. by destruct (decide (q ∈ l)).
  - destruct (decide (q ∈ l)) as [Hl|Hl].
    + rewrite decide_True; [done|]. apply elem_of_app. by left.
    + rewrite decide_False; [done|]. rewrite elem_of_app, list_elem_of_singleton. naive_solver.
Qed.

Lemma robot_content_not_blank r c : robot_content r c ≠ chars_of " ".
Proof. unfold robot_content. simpl. discriminate. Qed.

Lemma default_last_fmap {A B} (f : A → B) (d : B) (l : list A) :
  default d (last (f <$> l)) = default d (f <$> last l).
Proof. by rewrite fmap_last. Qed.

Lemma omap_pointwise {A B} (f g : A → option B) (l : list A) :
  (∀ a, f a = g a) → omap f l = omap g l.
Proof. intros H. induction l as [|a l IH]; [done|]. cbn [omap list_omap]. by rewrite H, IH. Qed.

Lemma last_filter_eq (q : coord) l : q ∈ l → last (filter (λ pos, pos = q) l) = Some q.
Proof.
  intros Hin. destruct (last (filter (λ pos, pos = q) l)) as [x|] eqn:E.
  - apply last_Some_elem_of, list_elem_of_filter in E as [-> _]. done.
  - apply last_None in E.
    assert (q ∈ filter (λ pos, pos = q) l) as Hq by (by apply list_elem_of_filter).
    rewrite E in Hq. by apply elem_of_nil in Hq.
Qed.

Lemma draw_terrain_cell st dims q :
  in_grid dims q = true →
  shaped dims (draw_terrain st dims (blank_grid dims)) ∧
  get_cell q (draw_terrain st dims (blank_grid dims)) =
  if bool_decide (q ∈ highways st) then chars_of "#"
  else if bool_decide (q ∈ nodes st) then chars_of "."
  else chars_of " ".
Proof.
  intros Hq. unfold draw_terrain.
  destruct (terrain_cells st dims (cells dims) (blank_grid dims) q (blank_shaped dims))
    as [Ht1 Ht2]; [by intros p Hp; apply elem_of_cells|].
  split; [exact Ht1|]. etrans; [exact Ht2|].
  rewrite decide_True by (by apply elem_of_cells). by rewrite get_blank.
Qed.

Lemma draw_stations_cell stations dims g q :
  shaped dims g → in_grid dims q = true →
  get_cell q (draw_stations stations dims g) =
  match last_station_on q stations with
  | Some (station_id, _) => chars_of "P" ++ chars_of station_id
  | None => get_cell q g
  end.
Proof.
  intros Hg Hq. unfold draw_stations.
  destruct (fold_writes
              (λ grid (e : string * coord),
                 if in_grid dims e.2 then set_cell e.2 (chars_of "P" ++ chars_of e.1) grid else grid)
              (λ e, if in_grid dims e.2 then Some (e.2, chars_of "P" ++ chars_of e.1) else None)
              dims stations) with (g := g) (q := q)
    as [_ ->].
  { intros g' a. by destruct (in_grid dims a.2). }
  { intros a p v _ Ha. destruct (in_grid dims a.2) eqn:E; by simplify_eq. }
  { done. }
  rewrite (omap_pointwise _ (λ e : string * coord,
             if decide (e.2 = q) then Some (chars_of "P" ++ chars_of e.1) else None)).
  2: { intros a. destruct (in_grid dims a.2) eqn:E; [done|].
       rewrite decide_False; [done|]. intros Ha. by rewrite Ha, Hq in E. }
  rewrite (omap_when_filter (λ e : string * coord, e.2 = q)), fmap_last.
  unfold last_station_on. by destruct (last (filter _ stations)) as [[sid pos]|].
Qed.

Lemma draw_shelves_cell st dims g q :
  shaped dims g → in_grid dims q = true →
  shaped dims (draw_shelves st dims g) ∧
  get_cell q (draw_shelves st dims g) =
  match last_shelf_on q st with
  | Some (sid, _) => chars_of "S" ++ chars_of sid
  | None => get_cell q g
  end.
Proof.
  intros Hg Hq. unfold draw_shelves.
  destruct (fold_writes
              (λ layer (e : string * shelf),
                 match s_pos e.2 with
                 | Some pos => if in_grid dims pos
                               then set_cell pos (chars_of "S" ++ chars_of e.1) layer else layer
                 | None => layer
                 end)
              (λ e, match s_pos e.2 with
                    | Some pos => if in_grid dims pos
                                  then Some (pos, chars_of "S" ++ chars_of e.1) else None
                    | None => None
                    end)
              dims (shelves st)) with (g := g) (q := q)
    as [Hd1 ->].
  { intros g' a. destruct (s_pos a.2) as [pos|]; [|done]. by destruct (in_grid dims pos). }
  { intros a p v _ Ha. destruct (s_pos a.2) as [pos|]; [|done].
    destruct (in_grid dims pos) eqn:E; by simplify_eq. }
  { done. }
  split; [done|].
  rewrite (omap_pointwise _
             (λ e : string * shelf,
                if decide (s_pos e.2 = Some q) then Some (chars_of "S" ++ chars_of e.1) else None)).
  2: { intros a. destruct (s_pos a.2) as [pos|]; [|done].
       destruct (in_grid dims pos) eqn:E.
       - repeat case_decide; simplify_eq; done.
       - rewrite decide_False; [done|]. intros [= ->]. by rewrite Hq in E. }
  rewrite (omap_when_filter (λ e : string * shelf, s_pos e.2 = Some q)), fmap_last.
  unfold last_shelf_on. by destruct (last (filter _ (shelves st))) as [[sid sh]|].
Qed.

Lemma draw_robots_cell st dims g q :
  shaped dims g → in_grid dims q = true →
  get_cell q (draw_robots st dims g) =
  match last_robot_on q st with
  | Some (rid, rb) => robot_content rid (r_carries rb)
  | None => get_cell q g
  end.
Proof.
  intros Hg Hq. unfold draw_robots.
  destruct (fold_writes
              (λ layer (e : string * robot),
                 if in_grid dims (r_pos e.2)
                 then set_cell (r_pos e.2) (robot_content e.1 (r_carries e.2)) layer else layer)
              (λ e, if in_grid dims (r_pos e.2)
                    then Some (r_pos e.2, robot_content e.1 (r_carries e.2)) else None)
              dims (robots st)) with (g := g) (q := q)
    as [_ ->].
  { intros g' a. by destruct (in_grid dims (r_pos a.2)). }
  { intros a p v _ Ha. destruct (in_grid dims (r_pos a.2)) eqn:E; by simplify_eq. }
  { done. }
  rewrite (omap_pointwise _ (λ e : string * robot,
             if decide (r_pos e.2 = q) then Some (robot_content e.1 (r_carries e.2)) else None)).
  2: { intros a. destruct (in_grid dims (r_pos a.2)) eqn:E; [done|].
       rewrite decide_False; [done|]. intros Ha. by rewrite Ha, Hq in E. }
  rewrite (omap_when_filter (λ e : string * robot, r_pos e.2 = q)), fmap_last.
  unfold last_robot_on. by destruct (last (filter _ (robots st))) as [[rid rb]|].
Qed.

(** What [final_grid] holds in a cell of the grid. *)
Lemma final_grid_cell st stations dims q :
  in_grid dims q = true → get_cell q (final_grid st stations dims) = shown st stations q.
Proof.
  intros Hq. unfold final_grid. cbv zeta.
  set (grid := draw_stations stations dims (draw_terrain st dims (blank_grid dims))).
  set (layer := draw_robots st dims (draw_shelves st dims (blank_grid dims))).
  destruct (fold_writes
              (λ final pos,
                 if bool_decide (get_cell pos layer ≠ chars_of " ")
                 then set_cell pos (get_cell pos layer) final
                 else set_cell pos (get_cell pos grid) final)
              (λ pos, Some (pos, if bool_decide (get_cell pos layer ≠ chars_of " ")
                                 then get_cell pos layer else get_cell pos grid))
              dims (cells dims)) with (g := blank_grid dims) (q := q)
    as [_ Hc2].
  { intros g a. by case_bool_decide. }
  { intros a p v Ha [= <- _]. by apply elem_of_cells. }
  { apply blank_shaped. }
  fold (combine_layers dims grid layer (blank_grid dims)) in Hc2. rewrite Hc2. clear Hc2.
  rewrite (omap_when_filter (λ pos, pos = q)
             (λ pos, if bool_decide (get_cell pos layer ≠ chars_of " ")
                     then get_cell pos layer else get_cell pos grid)).
  rewrite fmap_last, last_filter_eq by (by apply elem_of_cells). simpl.
  subst grid layer.
  destruct (draw_terrain_cell st dims q Hq) as [Ht1 Ht2].
  destruct (draw_shelves_cell st dims (blank_grid dims) q (blank_shaped dims) Hq) as [Hs1 Hs2].
  rewrite draw_robots_cell, Hs2, get_blank, draw_stations_cell, Ht2 by done. unfold shown.
  destruct (last_robot_on q st) as [[rid rb]|].
  { rewrite bool_decide_eq_true_2; [done|apply robot_content_not_blank]. }
  destruct (last_shelf_on q st) as [[sid sh]|].
  { by rewrite bool_decide_eq_true_2. }
  by rewrite bool_decide_eq_false_2 by (intros H; by apply H).
Qed.

(** X23.  The layers of a frame: in a cell of the grid [visualize_step]
    shows the robot that stands there, with the shelf it carries; failing
    that the shelf that stands there; failing that the picking station;
    failing that the highway mark, the node mark, or a blank.  Of several
    robots, shelves or stations on one cell the last one of the dictionary
    is shown. *)
Theorem visualize_step_layers st stations dims q :
  in_grid dims q = true → get_cell q (final_grid st stations dims) = shown st stations q.
Proof. apply final_grid_cell. Qed.

(** ** The width of the cells *)

Lemma find_is_last {A B} (g : A → option B) (P : A → bool) (Q : A → Prop)
    `{∀ x, Decision (Q x)} (q : B) (l : list A) :
  (∀ e, P e = true ↔ g e = Some q) → (∀ e, Q e ↔ g e = Some q) →
  NoDup (omap g l) → List.find P l = last (filter Q l).
Proof.
  intros HP HQ. induction l as [|x l IH]; intros Hnd; [done|].
  cbn [omap list_omap] in Hnd. simpl. rewrite filter_cons.
  destruct (P x) eqn:Ex.
  - apply HP in Ex. rewrite decide_True by (by apply HQ). rewrite Ex in Hnd.
    apply NoDup_cons in Hnd as [Hq _].
    assert (filter Q l = []) as ->; [|done].
    destruct (filter Q l) as [|y l'] eqn:Ef; [done|].
    assert (y ∈ filter Q l) as Hy by (rewrite Ef; left).
    apply list_elem_of_filter in Hy as [Hy Hin]. destruct Hq.
    apply list_elem_of_omap. exists y. split; [done|]. by apply HQ.
  - rewrite decide_False.
    2: { intros Hx. apply HQ, HP in Hx. congruence. }
    apply IH. destruct (g x); [by apply NoDup_cons in Hnd as [_ ?]|done].
Qed.

Lemma omap_Some_fmap {A B} (f : A → B) (l : list A) : omap (λ a, Some (f a)) l = f <$> l.
Proof. induction l as [|a l IH]; [done|]. cbn [omap list_omap fmap list_fmap]. by rewrite IH. Qed.

Lemma robot_here_last st stations q :
  one_per_cell st stations → robot_here q (robots st) = fst <$> last_robot_on q st.
Proof.
  intros (Hr & _ & _). unfold robot_here, last_robot_on. f_equal.
  apply (find_is_last (λ e : string * robot, Some (r_pos e.2)) _ _ q).
  - intros e. rewrite bool_decide_eq_true. naive_solver.
  - intros e. naive_solver.
  - by rewrite omap_Some_fmap.
Qed.

Lemma shelf_at_last st stations q :
  one_per_cell st stations → shelf_at q (shelves st) = fst <$> last_shelf_on q st.
Proof.
  intros (_ & Hs & _). unfold shelf_at, last_shelf_on. f_equal.
  apply (find_is_last (λ e : string * shelf, s_pos e.2) _ _ q).
  - intros e. by rewrite bool_decide_eq_true.
  - done.
  - done.
Qed.

Lemma station_here_last st stations q :
  one_per_cell st stations → station_here q stations = fst <$> last_station_on q stations.
Proof.
  intros (_ & _ & Hs). unfold station_here, last_station_on. f_equal.
  apply (find_is_last (λ e : string * coord, Some e.2) _ _ q).
  - intros e. rewrite bool_decide_eq_true. naive_solver.
  - intros e. naive_solver.
  - by rewrite omap_Some_fmap.
Qed.

Lemma cell_content_shown st stations q :
  keys_unique st → one_per_cell st stations → labels_are_tokens st stations →
  cell_content st stations q = shown st stations q.
Proof.
  intros (Hk & _ & _) Hone (Tr & Ts & Tp). unfold cell_content, shown. cbv zeta.
  rewrite (robot_here_last st stations q Hone), (shelf_at_last st stations q Hone),
          (station_here_last st stations q Hone).
  destruct (last_robot_on q st) as [[rid rb]|] eqn:Er; cbn [fmap option_fmap option_map fst].
  { assert ((rid, rb) ∈ robots st) as Hin.
    { unfold last_robot_on in Er. by apply last_Some_elem_of, list_elem_of_filter in Er as [_ ?]. }
    destruct (Tr rid rb Hin) as [Hrid _].
    rewrite truthy_Some by (by apply token_nonempty).
    by rewrite (DictFacts.elem_get_NoDup _ _ _ Hk Hin). }
  cbn [truthy].
  destruct (last_shelf_on q st) as [[sid sh]|] eqn:Es; cbn [fmap option_fmap option_map fst].
  { assert ((sid, sh) ∈ shelves st) as Hin.
    { unfold last_shelf_on in Es. by apply last_Some_elem_of, list_elem_of_filter in Es as [_ ?]. }
    by rewrite truthy_Some by (by apply token_nonempty, (Ts sid sh)). }
  cbn [truthy].
  by destruct (last_station_on q stations) as [[sid pos]|].
Qed.

Lemma token_last s : token s → ∃ c, last (chars_of s) = Some c ∧ Re.is_space c = false.
Proof.
  intros [Hne Hall]. destruct (chars_of s) as [|x l _] using rev_ind; [done|].
  exists x. rewrite last_snoc. split; [done|]. apply word_not_space.
  apply Forall_app in Hall as [_ Hx]. by inversion Hx.
Qed.

Lemma label_strip (c : ascii) s :
  Re.is_space c = false → token s → Re.strip (c :: chars_of s) = c :: chars_of s.
Proof.
  intros Hc Hs. destruct (token_last s Hs) as (c' & Hl & Hc').
  apply (strip_ends _ c c'); [done| |done..]. rewrite last_cons, Hl. done.
Qed.

Lemma robot_content_strip r carried :
  token r → (∀ c, carried = Some c → token c) →
  Re.strip (robot_content r carried) = robot_content r carried.
Proof.
  intros Hr Hc. unfold robot_content. destruct carried as [c|].
  - rewrite truthy_Some by (by apply token_nonempty, Hc).
    apply (strip_ends _ "R" "]"); try done.
    cbn [chars_of String.list_ascii_of_string app].
    rewrite last_cons, last_app, last_cons, last_cons, last_app. done.
  - rewrite app_nil_r. by apply label_strip.
Qed.

Lemma shown_strip st stations q :
  labels_are_tokens st stations →
  (length (shown st stations q) ≤ Nat.max (length (Re.strip (shown st stations q))) 1)%nat.
Proof.
  intros (Tr & Ts & Tp). unfold shown.
  destruct (last_robot_on q st) as [[rid rb]|] eqn:Er.
  { assert ((rid, rb) ∈ robots st) as Hin.
    { unfold last_robot_on in Er. by apply last_Some_elem_of, list_elem_of_filter in Er as [_ ?]. }
    destruct (Tr rid rb Hin) as [Hrid Hc]. rewrite robot_content_strip by done. lia. }
  destruct (last_shelf_on q st) as [[sid sh]|] eqn:Es.
  { assert ((sid, sh) ∈ shelves st) as Hin.
    { unfold last_shelf_on in Es. by apply last_Some_elem_of, list_elem_of_filter in Es as [_ ?]. }
    change (chars_of "S" ++ chars_of sid) with ("S"%char :: chars_of sid).
    rewrite label_strip by (done || by apply (Ts sid sh)). lia. }
  destruct (last_station_on q stations) as [[sid pos]|] eqn:Ep.
  { assert ((sid, pos) ∈ stations) as Hin.
    { unfold last_station_on in Ep. by apply last_Some_elem_of, list_elem_of_filter in Ep as [_ ?]. }
    change (chars_of "P" ++ chars_of sid) with ("P"%char :: chars_of sid).
    rewrite label_strip by (done || by apply (Tp sid pos)). lia. }
  repeat case_bool_decide; simpl; lia.
Qed.

Lemma fold_max_ge {A} (f : A → nat) (l : list A) : ∀ m x,
  (m ≤ fold_left (λ m a, Nat.max m (f a)) l m)%nat ∧
  (x ∈ l → f x ≤ fold_left (λ m a, Nat.max m (f a)) l m)%nat.
Proof.
  induction l as [|a l IH]; intros m x; simpl.
  - split; [done|]. intros Hx. by apply elem_of_nil in Hx.
  - destruct (IH (Nat.max m (f a)) x) as [H1 H2]. split; [lia|].
    intros Hx. apply elem_of_cons in Hx as [->|Hx]; [lia|by apply H2].
Qed.

Lemma cells_fit st stations dims q :
  keys_unique st → one_per_cell st stations → labels_are_tokens st stations →
  in_grid dims q = true →
  (length (get_cell q (final_grid st stations dims))
   ≤ calculate_max_width_for_state st stations dims)%nat.
Proof.
  intros Hk Hone Htok Hq. rewrite final_grid_cell by done.
  unfold calculate_max_width_for_state. cbv zeta.
  pose proof (shown_strip st stations q Htok) as Hs.
  destruct (fold_max_ge (λ pos, length (Re.strip (cell_content st stations pos))) (cells dims) O q)
    as [_ Hf].
  specialize (Hf (proj2 (elem_of_cells dims q) Hq)). simpl in Hf.
  rewrite cell_content_shown in Hf by done. lia.
Qed.

(** X24.  Where no two robots, no two shelves and no two stations share a
    cell (and keys are unique, identifiers tokens), the width that
    [calculate_max_width_for_state] returns is enough for every cell that
    [visualize_step] draws.  [stations] lists the items of the
    picking-station dictionary, in any order. *)
Theorem grid_cells_fit st stations dims q :
  keys_unique st → one_per_cell st stations → labels_are_tokens st stations →
  in_grid dims q = true →
  (length (get_cell q (final_grid st stations dims))
   ≤ calculate_max_width_for_state st stations dims)%nat.
Proof. apply cells_fit. Qed.

Lemma length_ljust w s : (length s ≤ w)%nat → length (ljust w s) = w.
Proof. intros H. unfold ljust. rewrite length_app, length_replicate. lia. Qed.

Lemma rows_aligned st stations dims w row cell :
  keys_unique st → one_per_cell st stations → labels_are_tokens st stations →
  (calculate_max_width_for_state st stations dims ≤ w)%nat →
  row ∈ rows_to_print st stations dims w → cell ∈ row → length cell = w.
Proof.
  intros Hk Hone Htok Hw Hrow Hcell. unfold rows_to_print in Hrow.
  apply list_elem_of_fmap in Hrow as (r & -> & Hr).
  apply list_elem_of_fmap in Hcell as (c & -> & Hc).
  apply elem_of_seqZ in Hr. apply elem_of_seqZ in Hc.
  apply length_ljust. etrans; [|exact Hw]. apply cells_fit; try done.
  apply in_grid_spec. simpl. lia.
Qed.

Lemma widen_ge plan stations dims n : ∀ t st w,
  (w ≤ widen plan stations dims t n st w)%nat ∧
  ∀ st', st' ∈ frames_from plan t n st →
         (calculate_max_width_for_state st' stations dims ≤ widen plan stations dims t n st w)%nat.
Proof.
  induction n as [|n IH]; intros t st w; simpl.
  - split; [done|]. intros st' H. by apply elem_of_nil in H.
  - set (st1 := update_state st (actions_at plan t)).
    destruct (IH (t + 1) st1 (Nat.max w (calculate_max_width_for_state st1 stations dims)))
      as [H1 H2].
    split; [lia|]. intros st' Hin. apply elem_of_cons in Hin as [->|Hin]; [lia|by apply H2].
Qed.

(** X25.  The frames of a run are aligned: the width that the pre-simulation
    pass computes is the length of every cell that is printed for a frame,
    as long as the frame has no two robots, two shelves or two stations on
    one cell (and keys are unique, identifiers tokens). *)
Theorem frames_are_aligned plan max_time initial_state stations dims st row cell :
  st ∈ initial_state :: frames_from plan 1 (Z.to_nat max_time) initial_state →
  keys_unique st → one_per_cell st stations → labels_are_tokens st stations →
  row ∈ rows_to_print st stations dims (overall_width plan max_time initial_state stations dims) →
  cell ∈ row →
  length cell = overall_width plan max_time initial_state stations dims.
Proof.
  intros Hin Hk Hone Htok. apply rows_aligned; try done.
  unfold overall_width.
  destruct (widen_ge plan stations dims (Z.to_nat max_time) 1 initial_state
              (Nat.max 0 (calculate_max_width_for_state initial_state stations dims))) as [H1 H2].
  apply elem_of_cons in Hin as [->|Hin]; [lia|by apply H2].
Qed.

(** Two robots on one cell: the width is computed from the first one, the
    cell shows the last one. *)
Example crowded_cell_overflows :
  calculate_max_width_for_state crowded_state [] (1, 1) = 2%nat ∧
  length (get_cell (1, 1) (final_grid crowded_state [] (1, 1))) = 4%nat.
Proof. split; vm_compute; reflexivity. Qed.

Lemma fact_of_last {A} (pick : fact → option A) facts v :
  Forall fact_ok facts → last_of pick facts = Some v →
  ∃ f, f ∈ facts ∧ fact_ok f ∧ pick f = Some v.
Proof.
  intros Hok H. apply last_of_Some_elem in H as (f & Hin & Hf).
  exists f. split_and!; [done| |done]. by apply (proj1 (Forall_forall _ _) Hok).
Qed.

(** X26.  Whatever the text of the init file, the state that [parse_init]
    builds from it is well formed: keys are unique, identifiers are tokens
    (never empty), no count and no coordinate is negative, robots carry
    nothing, and every shelf has a position. *)
Theorem parsed_state_is_well_formed lines st dims :
  parse_init_lines (Some lines) = Some (st, dims) → parsed_ok st.
Proof.
  unfold parse_init_lines. cbn [fmap option_fmap option_map]. intros H.
  pose proof (lines_facts_ok lines) as Hok. set (facts := omap read_line lines) in *.
  destruct (parse_init_well_formed facts st dims H) as [Hk Hc].
  destruct (init_places facts st dims H) as (_ & _ & Hst & Hr & Hs).
  destruct (init_counts_spec facts st dims H) as (_ & _ & Ho).
  split_and!.
  - done.
  - apply (parse_init_ids_nonempty facts st dims); [|done].
    eapply Forall_impl; [exact Hok|]. apply fact_ok_ids.
  - by apply (parsed_counts_nonneg facts st dims).
  - intros r rb Hg. rewrite Hr in Hg.
    destruct (last_of (robot_at r) facts) as [pos|] eqn:E; [|done]. injection Hg as <-.
    apply (fact_of_last _ _ _ Hok) in E as (f & _ & Hf & Hp).
    destruct f; simpl in *; try done. case_decide; [|done]. simplify_eq. simpl. naive_solver.
  - intros s sh Hg. specialize (Hs s). rewrite Hg in Hs. simpl in Hs.
    destruct (last_of (shelf_placed_at s) facts) as [pos|] eqn:E; [|done]. injection Hs as Hs.
    apply (fact_of_last _ _ _ Hok) in E as (f & _ & Hf & Hp).
    destruct f; simpl in *; try done. case_decide; [|done]. simplify_eq.
    split; [naive_solver|]. eexists. split; [done|]. simpl. naive_solver.
  - intros s pos Hg. rewrite Hst in Hg.
    apply (fact_of_last _ _ _ Hok) in Hg as (f & _ & Hf & Hp).
    destruct f; simpl in *; try done. case_decide; [|done]. simplify_eq. simpl. naive_solver.
  - intros o od Hg. destruct (Ho o od EmptyString Hg) as [Hsid _].
    apply (fact_of_last _ _ _ Hok) in Hsid as (f & _ & Hf & Hp).
    destruct f; simpl in *; try done. case_decide; [|done]. by simplify_eq.
Qed.

(** ** The scenario, from the text of its two files *)

Example scenario_atoms_text :
  scenario_atoms = [ JStr "occurs(object(robot,r1),pickup,1)";
                     JStr "occurs(object(robot,r1),move(1,1),2)";
                     JStr "occurs(object(robot,r1),deliver(o1,p1,3),3)" ].
Proof. reflexivity. Qed.

Example parse_scenario_document :
  parse_plan_text (PlanJson (scenario_document scenario_atoms)) = Some (scenario_plan, 3).
Proof. vm_compute. reflexivity. Qed.

Example parse_scenario_lines :
  parse_init_lines (Some scenario_lines) = Some (scenario_state {[ (1, 1); (2, 2) ]} ∅, (2, 2)).
Proof. vm_compute. reflexivity. Qed.

Lemma scenario_document_atoms : document_atoms (scenario_document scenario_atoms) scenario_atoms.
Proof. unfold document_atoms, scenario_document. eexists _, _, _, _, _. split_and!; reflexivity. Qed.

Lemma token_r1 : token "r1".
Proof. split; [done|]. by repeat constructor. Qed.

Lemma token_o1 : token "o1".
Proof. split; [done|]. by repeat constructor. Qed.

Lemma token_p1 : token "p1".
Proof. split; [done|]. by repeat constructor. Qed.

Lemma scenario_entries_writable : Forall writable_entry scenario_entries.
Proof.
  pose proof token_r1. pose proof token_o1. pose proof token_p1.
  repeat constructor; simpl; done.
Qed.

Lemma parse_plan_within_max_time_witness :
  0 ≤ 3 ∧
  ∀ t acts, scenario_plan !! t = Some acts →
    t ≤ 3 ∧ acts ≠ [] ∧ Forall (λ ai : action_info, is_unknown ai.2 = false) acts.
Proof.
  exact (parse_plan_within_max_time match_occurs parse_action_string
           (PlanJson (scenario_document scenario_atoms)) scenario_plan 3 parse_scenario_document).
Defined.

Lemma parse_plan_reads_atoms_in_order_witness :
  ∃ plan max_time,
    parse_plan match_occurs parse_action_string (PlanJson (scenario_document scenario_atoms))
      = Some (plan, max_time) ∧
    (∀ t, actions_at plan t = omap (atom_action match_occurs parse_action_string t) scenario_atoms) ∧
    max_time = foldr Z.max 0 (omap (atom_time match_occurs) scenario_atoms).
Proof.
  apply (parse_plan_reads_atoms_in_order match_occurs parse_action_string
           (scenario_document scenario_atoms) scenario_atoms).
  - exact scenario_document_atoms.
  - repeat constructor.
Defined.

Lemma parse_plan_reads_back_witness :
  ∃ plan max_time,
    parse_plan_text (PlanJson (scenario_document scenario_atoms)) = Some (plan, max_time) ∧
    (∀ t, actions_at plan t = entries_at t scenario_entries) ∧
    max_time = foldr Z.max 0 scenario_entries.*2.
Proof.
  apply (parse_plan_reads_back (scenario_document scenario_atoms) scenario_entries).
  - exact scenario_document_atoms.
  - exact scenario_entries_writable.
Defined.

Lemma read_line_gives_well_formed_facts_witness : fact_ok (FNode "1" 3 4).
Proof.
  apply (read_line_gives_well_formed_facts "  init(object(node, 1), value(at, pair(3,4))). ").
  reflexivity.
Defined.

Lemma read_line_reads_back_witness :
  read_line "init(object(order,o1),value(line,pair(p1,3)))." = Some (FOrderLine "o1" "p1" 3).
Proof.
  apply (read_line_reads_back (FOrderLine "o1" "p1" 3)).
  - split_and!; [exact token_o1|exact token_p1|lia].
  - intros [].
Defined.

Lemma parse_plan_text_gives_writable_actions_witness :
  0 ≤ 3 ∧ Forall (λ ai : action_info, token ai.1 ∧ writable ai.2) [("r1", Deliver "o1" "p1" 3)].
Proof.
  apply (parse_plan_text_gives_writable_actions (PlanJson (scenario_document scenario_atoms))
           scenario_plan 3 parse_scenario_document 3 [("r1", Deliver "o1" "p1" 3)]).
  reflexivity.
Defined.

Lemma parsed_state_is_well_formed_witness : parsed_ok (scenario_state {[ (1, 1); (2, 2) ]} ∅).
Proof.
  exact (parsed_state_is_well_formed scenario_lines _ (2, 2) parse_scenario_lines).
Defined.

(** The run of the scenario, from the text of its two files. *)
Example scenario_run :
  main_text (Some scenario_lines) (PlanJson (scenario_document scenario_atoms))
  = Completed (scenario_state {[ (1, 1); (2, 2) ]} ∅
                 :: frames_from scenario_plan 1 (Z.to_nat 3) (scenario_state {[ (1, 1); (2, 2) ]} ∅)).
Proof. vm_compute. reflexivity. Qed.

(** The last timestep of the scenario: three units are delivered. *)
Lemma counts_never_rise_in_a_run_witness :
  counts_fall
    (simulate scenario_plan 2 (scenario_state {[ (1, 1); (2, 2) ]} ∅))
    (simulate scenario_plan 3 (scenario_state {[ (1, 1); (2, 2) ]} ∅)).
Proof.
  apply (counts_never_rise_in_a_run (Some scenario_lines) (PlanJson (scenario_document scenario_atoms))
           (scenario_state {[ (1, 1); (2, 2) ]} ∅
              :: frames_from scenario_plan 1 (Z.to_nat 3) (scenario_state {[ (1, 1); (2, 2) ]} ∅)) 2
           _ _ scenario_run).
  - reflexivity.
  - reflexivity.
Defined.

Lemma parse_init_places_witness :
  (∀ c, c ∈ nodes twin_state ↔ c ∈ omap node_of twin_facts) ∧
  (∀ c, c ∈ highways twin_state ↔ c ∈ omap highway_of twin_facts) ∧
  (∀ s, picking_stations twin_state !! s = last_of (station_at s) twin_facts) ∧
  (∀ r, Dict.get r (robots twin_state) = (λ p, Robot p None) <$> last_of (robot_at r) twin_facts) ∧
  (∀ s, s_pos <$> Dict.get s (shelves twin_state) = Some <$> last_of (shelf_placed_at s) twin_facts).
Proof. exact (parse_init_places twin_facts twin_state (1, 1) parse_twin). Defined.

Lemma parse_init_counts_witness :
  (∀ s sh p, Dict.get s (shelves (scenario_state ∅ ∅)) = Some sh →
             s_quantities sh !! p
             = declared_count (last_of (quantity_of s p) scenario_facts) p scenario_facts) ∧
  (∀ o, is_Some (Dict.get o (orders (scenario_state ∅ ∅))) ↔
        is_Some (last_of (order_station_of o) scenario_facts) ∧
        ∃ p, is_Some (last_of (line_of o p) scenario_facts)) ∧
  (∀ o od p, Dict.get o (orders (scenario_state ∅ ∅)) = Some od →
             last_of (order_station_of o) scenario_facts = Some (o_station_id od) ∧
             o_requirements od !! p
             = declared_count (last_of (line_of o p) scenario_facts) p scenario_facts).
Proof. exact (parse_init_counts scenario_facts (scenario_state ∅ ∅) (0, 0) parse_scenario). Defined.

Lemma parse_init_grid_dims_witness :
  0 ≤ 1 ∧ 0 ≤ 1 ∧
  (∀ x y, (x, y) ∈ nodes twin_state → x ≤ 1 ∧ y ≤ 1) ∧
  (1 = 0 ∨ ∃ y, (1, y) ∈ nodes twin_state) ∧
  (1 = 0 ∨ ∃ x, (x, 1) ∈ nodes twin_state).
Proof. exact (parse_init_grid_dims twin_facts twin_state (1, 1) parse_twin). Defined.

Example parse_untidy :
  parse_init_log (Some untidy_facts)
  = Some (MkState ∅ ∅ ∅ [] [] {[ "p1" ]} [], (0, 0),
          [PUnmatchedLine "junk"; POrphanQuantity "s9"; POrphanOrderLine "o9"]).
Proof. vm_compute. reflexivity. Qed.

Lemma parse_init_diagnostics_witness :
  (∀ line, PUnmatchedLine line ∈ [PUnmatchedLine "junk"; POrphanQuantity "s9"; POrphanOrderLine "o9"]
           ↔ FUnmatched line ∈ untidy_facts) ∧
  (∀ s, POrphanQuantity s ∈ [PUnmatchedLine "junk"; POrphanQuantity "s9"; POrphanOrderLine "o9"] ↔
        (∃ p q, FProduct p s q ∈ untidy_facts) ∧ ∀ x y, FShelf s x y ∉ untidy_facts) ∧
  (∀ o, POrphanOrderLine o ∈ [PUnmatchedLine "junk"; POrphanQuantity "s9"; POrphanOrderLine "o9"] ↔
        (∃ p q, FOrderLine o p q ∈ untidy_facts) ∧ ∀ sid, FOrderStation o sid ∉ untidy_facts).
Proof. exact (parse_init_diagnostics untidy_facts _ _ _ parse_untidy). Defined.

(** ** The frames of the scenario *)

Lemma scenario_grid_keys : keys_unique scenario_grid.
Proof. split_and!; apply NoDup_singleton. Qed.

Lemma scenario_grid_one_per_cell : one_per_cell scenario_grid scenario_stations.
Proof. split_and!; apply NoDup_singleton. Qed.

Lemma token_s1 : token "s1".
Proof. split; [done|]. by repeat constructor. Qed.

Lemma token_st1 : token "st1".
Proof. split; [done|]. by repeat constructor. Qed.

Lemma scenario_grid_tokens : labels_are_tokens scenario_grid scenario_stations.
Proof.
  split_and!.
  - intros r rb H. apply list_elem_of_singleton in H. injection H as -> ->.
    split; [exact token_r1|done].
  - intros s sh H. apply list_elem_of_singleton in H. injection H as -> _. exact token_s1.
  - intros s pos H. apply list_elem_of_singleton in H. injection H as -> _. exact token_st1.
Qed.

(** The robot of the scenario stands on the shelf: the cell shows the
    robot. *)
Lemma visualize_step_layers_witness :
  get_cell (1, 1) (final_grid scenario_grid scenario_stations (2, 2))
  = shown scenario_grid scenario_stations (1, 1).
Proof.
  apply (visualize_step_layers scenario_grid scenario_stations (2, 2) (1, 1)). reflexivity.
Defined.

Lemma grid_cells_fit_witness :
  (length (get_cell (2, 2)%Z (final_grid scenario_grid scenario_stations (2, 2)%Z))
   ≤ calculate_max_width_for_state scenario_grid scenario_stations (2, 2)%Z)%nat.
Proof.
  apply (grid_cells_fit scenario_grid scenario_stations (2, 2) (2, 2)).
  - exact scenario_grid_keys.
  - exact scenario_grid_one_per_cell.
  - exact scenario_grid_tokens.
  - reflexivity.
Defined.

Example scenario_first_frame :
  rows_to_print scenario_grid scenario_stations (2, 2)
    (overall_width scenario_plan 3 scenario_grid scenario_stations (2, 2))
  = [ [chars_of "Rr1     "; chars_of ".       "];
      [chars_of ".       "; chars_of "Pst1    "] ].
Proof. vm_compute. reflexivity. Qed.

Lemma frames_are_aligned_witness :
  length (chars_of "Pst1    ") = overall_width scenario_plan 3 scenario_grid scenario_stations (2, 2).
Proof.
  apply (frames_are_aligned scenario_plan 3 scenario_grid scenario_stations (2, 2) scenario_grid
           [chars_of ".       "; chars_of "Pst1    "] (chars_of "Pst1    ")).
  - left.
  - exact scenario_grid_keys.
  - exact scenario_grid_one_per_cell.
  - exact scenario_grid_tokens.
  - rewrite scenario_first_frame. right. left.
  - right. left.
Defined.

(** ** The store: [update_state_ref] refines [update_state] *)

Import Heap.

Lemma extends_nil h : extends h h [].
Proof. split_and!; [done|constructor|constructor]. Qed.

Lemma extends_trans h h1 h2 fp1 fp2 :
  extends h h1 fp1 → extends h1 h2 fp2 → extends h h2 (fp1 ++ fp2).
Proof.
  intros (S1 & N1 & F1) (S2 & N2 & F2). split_and!.
  - by etrans.
  - apply NoDup_app. split_and!; [done| |done].
    intros l Hl1 Hl2.
    rewrite Forall_forall in F1, F2.
    destruct (F1 l Hl1) as [_ [o Ho]]. destruct (F2 l Hl2) as [Hn _]. congruence.
  - apply Forall_app. split.
    + eapply Forall_impl; [exact F1|]. intros l [Hn [o Ho]]. split; [done|].
      exists o. by eapply lookup_weaken.
    + eapply Forall_impl; [exact F2|]. intros l [Hn Hs]. split; [|done].
      destruct (h !! l) eqn:E; [|done]. eapply lookup_weaken in E; [|exact S1]. congruence.
Qed.

Lemma extends_alloc h o :
  extends h (alloc o h).2 [(alloc o h).1].
Proof.
  unfold alloc. simpl.
  assert (h !! fresh (dom h) = None) as Hf.
  { apply not_elem_of_dom. apply is_fresh. }
  split_and!.
  - by apply insert_subseteq.
  - apply NoDup_singleton.
  - constructor; [|constructor]. split; [done|]. rewrite lookup_insert_eq. eauto.
Qed.

Lemma alloc_lookup h o : (alloc o h).2 !! (alloc o h).1 = Some o.
Proof. unfold alloc. simpl. apply lookup_insert_eq. Qed.

Lemma robot_cell_mono h h' l r : h ⊆ h' → robot_cell h l r → robot_cell h' l r.
Proof. unfold robot_cell. intros Hs H. by eapply lookup_weaken. Qed.

Lemma shelf_cell_mono h h' lq s : h ⊆ h' → shelf_cell h lq s → shelf_cell h' lq s.
Proof. unfold shelf_cell. intros Hs [H1 H2]. split; by eapply lookup_weaken. Qed.

Lemma order_cell_mono h h' lq o : h ⊆ h' → order_cell h lq o → order_cell h' lq o.
Proof. unfold order_cell. intros Hs [H1 H2]. split; by eapply lookup_weaken. Qed.

Lemma indexed_impl {L V} (cell cell' : L → V → Prop) idx d :
  (∀ x v, cell x v → cell' x v) → indexed cell idx d → indexed cell' idx d.
Proof.
  intros H Hf. unfold indexed in *. eapply Forall2_impl; [exact Hf|].
  intros e v [? ?]. split; [done|]. by apply H.
Qed.

Lemma repr_mono h h' root k st : h ⊆ h' → repr h root k st → repr h' root k st.
Proof.
  intros Hs (H0 & H1 & H2 & H3 & H4 & H5 & H6 & H7 & HR & HS & HO).
  split_and!; try (by eapply lookup_weaken).
  - eapply indexed_impl; [|exact HR]. intros; by eapply robot_cell_mono.
  - eapply indexed_impl; [|exact HS]. intros; by eapply shelf_cell_mono.
  - eapply indexed_impl; [|exact HO]. intros; by eapply order_cell_mono.
Qed.

Lemma untouched_trans m m1 m2 s1 s2 :
  untouched m m1 s1 → untouched m1 m2 s2 → untouched m m2 (s1 ++ s2).
Proof.
  intros H1 H2 x Hx. rewrite not_elem_of_app in Hx. destruct Hx as [Hx1 Hx2].
  by rewrite H2, H1.
Qed.

Lemma untouched_insert m l l' : untouched m (<[ l := l' ]> m) [l].
Proof.
  intros x Hx. apply lookup_insert_ne. intros ->. apply Hx. by apply list_elem_of_singleton.
Qed.

(** Objects that are listed once and are not in the memo: the first ones
    are copied, the others are still not in the memo afterwards. *)
Lemma pending_split (m : memo) (s rest : list loc) :
  NoDup (s ++ rest) → Forall (λ x, m !! x = None) (s ++ rest) →
  NoDup s ∧ Forall (λ x, m !! x = None) s ∧
  ∀ m', untouched m m' s → NoDup rest ∧ Forall (λ x, m' !! x = None) rest.
Proof.
  intros (Hs & Hdisj & Hrest)%NoDup_app (Hms & Hmrest)%Forall_app.
  split_and!; try done. intros m' Hm'. split; [done|].
  rewrite Forall_forall in Hmrest. apply Forall_forall. intros x Hx.
  rewrite Hm'; [by apply Hmrest|]. intros Hxs. by apply (Hdisj x).
Qed.

Lemma pending_last (m : memo) (l : loc) :
  Forall (λ x, m !! x = None) [l] → m !! l = None.
Proof. by intros [H _]%Forall_cons. Qed.

Lemma deepcopy_leaf n l m h o :
  m !! l = None → h !! l = Some o → leaf o →
  deepcopy (S n) l m h = Some (remember l m (alloc o h)).
Proof. intros Hm Hl Ho. simpl. rewrite Hm, Hl. simpl. by destruct o. Qed.

Lemma deepcopy_shelf n l m h p q :
  m !! l = None → h !! l = Some (OShelf p q) →
  deepcopy (S n) l m h =
  '(q', m1, h1) ← deepcopy n q m h; Some (remember l m1 (alloc (OShelf p q') h1)).
Proof. intros Hm Hl. simpl. by rewrite Hm, Hl. Qed.

Lemma deepcopy_order n l m h s q :
  m !! l = None → h !! l = Some (OOrder s q) →
  deepcopy (S n) l m h =
  '(q', m1, h1) ← deepcopy n q m h; Some (remember l m1 (alloc (OOrder s q') h1)).
Proof. intros Hm Hl. simpl. by rewrite Hm, Hl. Qed.

Lemma deepcopy_index n l m h entries :
  m !! l = None → h !! l = Some (OIndex entries) →
  deepcopy (S n) l m h =
  '(entries', m1, h1) ← copy_entries (deepcopy n) entries m h;
  Some (remember l m1 (alloc (OIndex entries') h1)).
Proof. intros Hm Hl. simpl. by rewrite Hm, Hl. Qed.

Lemma deepcopy_state n l m h a b c d e f g :
  m !! l = None → h !! l = Some (OState a b c d e f g) →
  deepcopy (S n) l m h =
  '(a', m1, h1) ← deepcopy n a m h;
  '(b', m2, h2) ← deepcopy n b m1 h1;
  '(c', m3, h3) ← deepcopy n c m2 h2;
  '(d', m4, h4) ← deepcopy n d m3 h3;
  '(e', m5, h5) ← deepcopy n e m4 h4;
  '(f', m6, h6) ← deepcopy n f m5 h5;
  '(g', m7, h7) ← deepcopy n g m6 h6;
  Some (remember l m7 (alloc (OState a' b' c' d' e' f' g') h7)).
Proof. intros Hm Hl. simpl. by rewrite Hm, Hl. Qed.

Arguments deepcopy : simpl never.

(** An object that is copied without descending. *)
Lemma copy_leaf_step n l m h o :
  m !! l = None → h !! l = Some o → leaf o →
  ∃ l' m' h', deepcopy (S n) l m h = Some (l', m', h') ∧
              extends h h' [l'] ∧ h' !! l' = Some o ∧ untouched m m' [l].
Proof.
  intros Hm Hl Ho. rewrite (deepcopy_leaf _ _ _ _ _ Hm Hl Ho).
  pose proof (extends_alloc h o) as He. pose proof (alloc_lookup h o) as Ha.
  unfold remember. destruct (alloc o h) as [l' h']. simpl in *.
  exists l', (<[l := l']> m), h'. split_and!; try done. apply untouched_insert.
Qed.

Lemma copy_robots n idx : ∀ d m h,
  indexed (robot_cell h) idx d →
  NoDup idx.*2 → Forall (λ x, m !! x = None) idx.*2 →
  ∃ idx' m' h', copy_entries (deepcopy (S n)) idx m h = Some (idx', m', h') ∧
                extends h h' idx'.*2 ∧ indexed (robot_cell h') idx' d ∧
                untouched m m' idx.*2.
Proof.
  induction idx as [|[k l] idx IH]; intros d m h H Hnd Hm.
  - apply Forall2_nil_inv_l in H as ->. exists [], m, h.
    split_and!; [done|apply extends_nil|constructor|done].
  - apply Forall2_cons_inv_l in H as ([k' r] & d' & [Hk Hc] & H & ->). simpl in Hk, Hc. subst k'.
    destruct (pending_split m [l] idx.*2 Hnd Hm) as (_ & Hml%pending_last & Hrest).
    cbn [copy_entries].
    destruct (copy_leaf_step n l m h _ Hml Hc I) as (l' & m1 & h1 & -> & He & Hl & Hu).
    cbn [mbind option_bind].
    destruct (Hrest m1 Hu) as [Hnd1 Hm1].
    destruct (IH d' m1 h1) as (idx' & m2 & h2 & Hcp & He2 & Hi2 & Hu2); try done.
    { eapply indexed_impl; [|exact H]. intros. eapply robot_cell_mono; [apply He|done]. }
    rewrite Hcp. cbn [mbind option_bind]. exists ((k, l') :: idx'), m2, h2. split_and!; [done| | |].
    + apply (extends_trans _ _ _ [l'] _ He He2).
    + constructor; [|done]. split; [done|]. simpl.
      eapply robot_cell_mono; [apply He2|done].
    + apply (untouched_trans _ _ _ [l] _ Hu Hu2).
Qed.

(** A shelf or an order: its counts, then the object itself. *)
Lemma copy_shelf_step n l q m h (s : shelf) :
  shelf_cell h (l, q) s →
  NoDup (pair_locs (l, q)) → Forall (λ x, m !! x = None) (pair_locs (l, q)) →
  ∃ l' q' m' h', deepcopy (S (S n)) l m h = Some (l', m', h') ∧
                 extends h h' (pair_locs (l', q')) ∧ shelf_cell h' (l', q') s ∧
                 untouched m m' (pair_locs (l, q)).
Proof.
  intros [Hl Hq] Hnd Hm. simpl in Hl, Hq.
  destruct (pending_split m [q] [l] Hnd Hm) as (_ & Hmq%pending_last & Hrest).
  assert (m !! l = None) as Hml.
  { apply Forall_cons in Hm as [_ Hm]. by apply pending_last. }
  rewrite (deepcopy_shelf _ _ _ _ _ _ Hml Hl).
  destruct (copy_leaf_step n q m h _ Hmq Hq I) as (q' & m1 & h1 & -> & He & Hq' & Hu).
  cbn [mbind option_bind].
  pose proof (extends_alloc h1 (OShelf (s_pos s) q')) as He1.
  pose proof (alloc_lookup h1 (OShelf (s_pos s) q')) as Hll.
  unfold remember. destruct (alloc _ h1) as [l' h2]. simpl in He1, Hll |- *.
  exists l', q', (<[l := l']> m1), h2. split_and!; [done| | |].
  - apply (extends_trans _ _ _ [q'] [l'] He He1).
  - split; simpl; [done|]. eapply lookup_weaken; [done|apply He1].
  - apply (untouched_trans _ _ _ [q] [l] Hu). apply untouched_insert.
Qed.

Lemma copy_order_step n l q m h (o : order) :
  order_cell h (l, q) o →
  NoDup (pair_locs (l, q)) → Forall (λ x, m !! x = None) (pair_locs (l, q)) →
  ∃ l' q' m' h', deepcopy (S (S n)) l m h = Some (l', m', h') ∧
                 extends h h' (pair_locs (l', q')) ∧ order_cell h' (l', q') o ∧
                 untouched m m' (pair_locs (l, q)).
Proof.
  intros [Hl Hq] Hnd Hm. simpl in Hl, Hq.
  destruct (pending_split m [q] [l] Hnd Hm) as (_ & Hmq%pending_last & Hrest).
  assert (m !! l = None) as Hml.
  { apply Forall_cons in Hm as [_ Hm]. by apply pending_last. }
  rewrite (deepcopy_order _ _ _ _ _ _ Hml Hl).
  destruct (copy_leaf_step n q m h _ Hmq Hq I) as (q' & m1 & h1 & -> & He & Hq' & Hu).
  cbn [mbind option_bind].
  pose proof (extends_alloc h1 (OOrder (o_station_id o) q')) as He1.
  pose proof (alloc_lookup h1 (OOrder (o_station_id o) q')) as Hll.
  unfold remember. destruct (alloc _ h1) as [l' h2]. simpl in He1, Hll |- *.
  exists l', q', (<[l := l']> m1), h2. split_and!; [done| | |].
  - apply (extends_trans _ _ _ [q'] [l'] He He1).
  - split; simpl; [done|]. eapply lookup_weaken; [done|apply He1].
  - apply (untouched_trans _ _ _ [q] [l] Hu). apply untouched_insert.
Qed.

Lemma copy_shelves n kk : ∀ d m h,
  indexed (shelf_cell h) kk d →
  NoDup (concat (pair_locs <$> kk.*2)) →
  Forall (λ x, m !! x = None) (concat (pair_locs <$> kk.*2)) →
  ∃ kk' m' h', copy_entries (deepcopy (S (S n))) (entries_of kk) m h
               = Some (entries_of kk', m', h') ∧
               extends h h' (concat (pair_locs <$> kk'.*2)) ∧
               indexed (shelf_cell h') kk' d ∧
               untouched m m' (concat (pair_locs <$> kk.*2)).
Proof.
  induction kk as [|[k [l q]] kk IH]; intros d m h H Hnd Hm.
  - apply Forall2_nil_inv_l in H as ->. exists [], m, h.
    split_and!; [done|apply extends_nil|constructor|done].
  - apply Forall2_cons_inv_l in H as ([k' s] & d' & [Hk Hc] & H & ->). simpl in Hk, Hc. subst k'.
    change (concat (pair_locs <$> ((k, (l, q)) :: kk).*2))
      with (pair_locs (l, q) ++ concat (pair_locs <$> kk.*2)) in *.
    destruct (pending_split _ _ _ Hnd Hm) as (Hnd0 & Hm0 & Hrest).
    change (entries_of ((k, (l, q)) :: kk)) with ((k, l) :: entries_of kk).
    cbn [copy_entries].
    destruct (copy_shelf_step n l q m h s Hc Hnd0 Hm0) as (l' & q' & m1 & h1 & -> & He & Hc' & Hu).
    cbn [mbind option_bind].
    destruct (Hrest m1 Hu) as [Hnd1 Hm1].
    destruct (IH d' m1 h1) as (kk' & m2 & h2 & Hcp & He2 & Hi2 & Hu2); try done.
    { eapply indexed_impl; [|exact H]. intros. eapply shelf_cell_mono; [apply He|done]. }
    rewrite Hcp. cbn [mbind option_bind].
    exists ((k, (l', q')) :: kk'), m2, h2. split_and!; [done| | |].
    + apply (extends_trans _ _ _ (pair_locs (l', q')) _ He He2).
    + constructor; [|done]. split; [done|]. eapply shelf_cell_mono; [apply He2|done].
    + apply (untouched_trans _ _ _ (pair_locs (l, q)) _ Hu Hu2).
Qed.

Lemma copy_orders n kk : ∀ d m h,
  indexed (order_cell h) kk d →
  NoDup (concat (pair_locs <$> kk.*2)) →
  Forall (λ x, m !! x = None) (concat (pair_locs <$> kk.*2)) →
  ∃ kk' m' h', copy_entries (deepcopy (S (S n))) (entries_of kk) m h
               = Some (entries_of kk', m', h') ∧
               extends h h' (concat (pair_locs <$> kk'.*2)) ∧
               indexed (order_cell h') kk' d ∧
               untouched m m' (concat (pair_locs <$> kk.*2)).
Proof.
  induction kk as [|[k [l q]] kk IH]; intros d m h H Hnd Hm.
  - apply Forall2_nil_inv_l in H as ->. exists [], m, h.
    split_and!; [done|apply extends_nil|constructor|done].
  - apply Forall2_cons_inv_l in H as ([k' s] & d' & [Hk Hc] & H & ->). simpl in Hk, Hc. subst k'.
    change (concat (pair_locs <$> ((k, (l, q)) :: kk).*2))
      with (pair_locs (l, q) ++ concat (pair_locs <$> kk.*2)) in *.
    destruct (pending_split _ _ _ Hnd Hm) as (Hnd0 & Hm0 & Hrest).
    change (entries_of ((k, (l, q)) :: kk)) with ((k, l) :: entries_of kk).
    cbn [copy_entries].
    destruct (copy_order_step n l q m h s Hc Hnd0 Hm0) as (l' & q' & m1 & h1 & -> & He & Hc' & Hu).
    cbn [mbind option_bind].
    destruct (Hrest m1 Hu) as [Hnd1 Hm1].
    destruct (IH d' m1 h1) as (kk' & m2 & h2 & Hcp & He2 & Hi2 & Hu2); try done.
    { eapply indexed_impl; [|exact H]. intros. eapply order_cell_mono; [apply He|done]. }
    rewrite Hcp. cbn [mbind option_bind].
    exists ((k, (l', q')) :: kk'), m2, h2. split_and!; [done| | |].
    + apply (extends_trans _ _ _ (pair_locs (l', q')) _ He He2).
    + constructor; [|done]. split; [done|]. eapply order_cell_mono; [apply He2|done].
    + apply (untouched_trans _ _ _ (pair_locs (l, q)) _ Hu Hu2).
Qed.

(** An index: its values, then the index itself. *)
Lemma copy_robot_index n l m h idx d :
  h !! l = Some (OIndex idx) → indexed (robot_cell h) idx d →
  NoDup (idx.*2 ++ [l]) → Forall (λ x, m !! x = None) (idx.*2 ++ [l]) →
  ∃ l' idx' m' h', deepcopy (S (S n)) l m h = Some (l', m', h') ∧
                   extends h h' (idx'.*2 ++ [l']) ∧
                   h' !! l' = Some (OIndex idx') ∧ indexed (robot_cell h') idx' d ∧
                   untouched m m' (idx.*2 ++ [l]).
Proof.
  intros Hl Hi Hnd Hm.
  destruct (pending_split _ _ _ Hnd Hm) as (Hnd0 & Hm0 & Hrest).
  assert (m !! l = None) as Hml.
  { apply Forall_app in Hm as [_ Hm]. by apply pending_last. }
  rewrite (deepcopy_index _ _ _ _ _ Hml Hl).
  destruct (copy_robots n idx d m h Hi Hnd0 Hm0) as (idx' & m1 & h1 & -> & He & Hi1 & Hu).
  cbn [mbind option_bind].
  pose proof (extends_alloc h1 (OIndex idx')) as Ha. pose proof (alloc_lookup h1 (OIndex idx')) as Hl'.
  unfold remember. destruct (alloc _ h1) as [l' h']. simpl in Ha, Hl' |- *.
  exists l', idx', (<[l := l']> m1), h'. split_and!; [done|by eapply extends_trans|done| |].
  - eapply indexed_impl; [|exact Hi1]. intros. eapply robot_cell_mono; [apply Ha|done].
  - apply (untouched_trans _ _ _ _ [l] Hu). apply untouched_insert.
Qed.

Lemma copy_shelf_index n l m h kk d :
  h !! l = Some (OIndex (entries_of kk)) → indexed (shelf_cell h) kk d →
  NoDup (concat (pair_locs <$> kk.*2) ++ [l]) →
  Forall (λ x, m !! x = None) (concat (pair_locs <$> kk.*2) ++ [l]) →
  ∃ l' kk' m' h', deepcopy (S (S (S n))) l m h = Some (l', m', h') ∧
                  extends h h' (concat (pair_locs <$> kk'.*2) ++ [l']) ∧
                  h' !! l' = Some (OIndex (entries_of kk')) ∧ indexed (shelf_cell h') kk' d ∧
                  untouched m m' (concat (pair_locs <$> kk.*2) ++ [l]).
Proof.
  intros Hl Hi Hnd Hm.
  destruct (pending_split _ _ _ Hnd Hm) as (Hnd0 & Hm0 & Hrest).
  assert (m !! l = None) as Hml.
  { apply Forall_app in Hm as [_ Hm]. by apply pending_last. }
  rewrite (deepcopy_index _ _ _ _ _ Hml Hl).
  destruct (copy_shelves n kk d m h Hi Hnd0 Hm0) as (kk' & m1 & h1 & -> & He & Hi1 & Hu).
  cbn [mbind option_bind].
  pose proof (extends_alloc h1 (OIndex (entries_of kk'))) as Ha.
  pose proof (alloc_lookup h1 (OIndex (entries_of kk'))) as Hl'.
  unfold remember. destruct (alloc _ h1) as [l' h']. simpl in Ha, Hl' |- *.
  exists l', kk', (<[l := l']> m1), h'. split_and!; [done|by eapply extends_trans|done| |].
  - eapply indexed_impl; [|exact Hi1]. intros. eapply shelf_cell_mono; [apply Ha|done].
  - apply (untouched_trans _ _ _ _ [l] Hu). apply untouched_insert.
Qed.

Lemma copy_order_index n l m h kk d :
  h !! l = Some (OIndex (entries_of kk)) → indexed (order_cell h) kk d →
  NoDup (concat (pair_locs <$> kk.*2) ++ [l]) →
  Forall (λ x, m !! x = None) (concat (pair_locs <$> kk.*2) ++ [l]) →
  ∃ l' kk' m' h', deepcopy (S (S (S n))) l m h = Some (l', m', h') ∧
                  extends h h' (concat (pair_locs <$> kk'.*2) ++ [l']) ∧
                  h' !! l' = Some (OIndex (entries_of kk')) ∧ indexed (order_cell h') kk' d ∧
                  untouched m m' (concat (pair_locs <$> kk.*2) ++ [l]).
Proof.
  intros Hl Hi Hnd Hm.
  destruct (pending_split _ _ _ Hnd Hm) as (Hnd0 & Hm0 & Hrest).
  assert (m !! l = None) as Hml.
  { apply Forall_app in Hm as [_ Hm]. by apply pending_last. }
  rewrite (deepcopy_index _ _ _ _ _ Hml Hl).
  destruct (copy_orders n kk d m h Hi Hnd0 Hm0) as (kk' & m1 & h1 & -> & He & Hi1 & Hu).
  cbn [mbind option_bind].
  pose proof (extends_alloc h1 (OIndex (entries_of kk'))) as Ha.
  pose proof (alloc_lookup h1 (OIndex (entries_of kk'))) as Hl'.
  unfold remember. destruct (alloc _ h1) as [l' h']. simpl in Ha, Hl' |- *.
  exists l', kk', (<[l := l']> m1), h'. split_and!; [done|by eapply extends_trans|done| |].
  - eapply indexed_impl; [|exact Hi1]. intros. eapply order_cell_mono; [apply Ha|done].
  - apply (untouched_trans _ _ _ _ [l] Hu). apply untouched_insert.
Qed.

Lemma extends_sub h h' fp : extends h h' fp → h ⊆ h'.
Proof. by intros (? & _). Qed.

(** The copy of a state without sharing holds the same state, in new
    objects, again without sharing. *)
Lemma deepcopy_repr n m h root k st :
  repr h root k st → separated root k →
  Forall (λ x, m !! x = None) (skeleton_locs root k) →
  ∃ root' k' m' h', deepcopy (4 + n) root m h = Some (root', m', h') ∧
                    extends h h' (skeleton_locs root' k') ∧
                    repr h' root' k' st.
Proof.
  intros (H0 & H1 & H2 & H3 & H4 & H5 & H6 & H7 & HR & HS & HO) Hsep Hm.
  unfold separated, skeleton_locs in Hsep, Hm.
  assert (m !! root = None) as Hmroot.
  { do 7 apply Forall_app in Hm as [_ Hm]. by apply pending_last. }
  change (4 + n)%nat with (S (S (S (S n)))).
  rewrite (deepcopy_state _ _ _ _ _ _ _ _ _ _ _ Hmroot H0).
  destruct (pending_split _ _ _ Hsep Hm) as (_ & Hma%pending_last & Hrest).
  destruct (copy_leaf_step (S (S n)) _ m _ _ Hma H1 I) as (a' & m1 & h1 & -> & E1 & L1 & U1).
  cbn [mbind option_bind]. clear Hsep Hm. destruct (Hrest m1 U1) as [Hsep Hm]. clear Hrest.
  pose proof (extends_sub _ _ _ E1) as S1.
  destruct (pending_split _ _ _ Hsep Hm) as (_ & Hmb%pending_last & Hrest).
  destruct (copy_leaf_step (S (S n)) (k_highways k) m1 h1 _ Hmb (lookup_weaken _ _ _ _ H2 S1) I)
    as (b' & m2 & h2 & -> & E2 & L2 & U2).
  cbn [mbind option_bind]. clear Hsep Hm. destruct (Hrest m2 U2) as [Hsep Hm]. clear Hrest.
  pose proof (extends_sub _ _ _ E2) as S2.
  assert (h ⊆ h2) as S02 by (etrans; [exact S1|exact S2]).
  destruct (pending_split _ _ _ Hsep Hm) as (_ & Hmc%pending_last & Hrest).
  destruct (copy_leaf_step (S (S n)) (k_stations k) m2 h2 _ Hmc (lookup_weaken _ _ _ _ H3 S02) I)
    as (c' & m3 & h3 & -> & E3 & L3 & U3).
  cbn [mbind option_bind]. clear Hsep Hm. destruct (Hrest m3 U3) as [Hsep Hm]. clear Hrest.
  pose proof (extends_sub _ _ _ E3) as S3.
  assert (h ⊆ h3) as S03 by (etrans; [exact S02|exact S3]).
  destruct (pending_split _ _ _ Hsep Hm) as (Hndd & Hmd & Hrest).
  destruct (copy_robot_index (S n) (k_robots k) m3 h3 (k_robot k) (robots st))
    as (d' & ridx & m4 & h4 & -> & E4 & L4 & R4 & U4); try done.
  { by eapply lookup_weaken. }
  { eapply indexed_impl; [|exact HR]. intros. by eapply robot_cell_mono. }
  cbn [mbind option_bind]. clear Hsep Hm. destruct (Hrest m4 U4) as [Hsep Hm]. clear Hrest.
  pose proof (extends_sub _ _ _ E4) as S4.
  assert (h ⊆ h4) as S04 by (etrans; [exact S03|exact S4]).
  destruct (pending_split _ _ _ Hsep Hm) as (Hnde & Hme & Hrest).
  destruct (copy_shelf_index n (k_shelves k) m4 h4 (k_shelf k) (shelves st))
    as (e' & sidx & m5 & h5 & -> & E5 & L5 & R5 & U5); try done.
  { by eapply lookup_weaken. }
  { eapply indexed_impl; [|exact HS]. intros. by eapply shelf_cell_mono. }
  cbn [mbind option_bind]. clear Hsep Hm. destruct (Hrest m5 U5) as [Hsep Hm]. clear Hrest.
  pose proof (extends_sub _ _ _ E5) as S5.
  assert (h ⊆ h5) as S05 by (etrans; [exact S04|exact S5]).
  destruct (pending_split _ _ _ Hsep Hm) as (_ & Hmf%pending_last & Hrest).
  destruct (copy_leaf_step (S (S n)) (k_products k) m5 h5 _ Hmf (lookup_weaken _ _ _ _ H4 S05) I)
    as (f' & m6 & h6 & -> & E6 & L6 & U6).
  cbn [mbind option_bind]. clear Hsep Hm. destruct (Hrest m6 U6) as [Hsep Hm]. clear Hrest.
  pose proof (extends_sub _ _ _ E6) as S6.
  assert (h ⊆ h6) as S06 by (etrans; [exact S05|exact S6]).
  destruct (pending_split _ _ _ Hsep Hm) as (Hndg & Hmg & Hrest).
  destruct (copy_order_index n (k_orders k) m6 h6 (k_order k) (orders st))
    as (g' & oidx & m7 & h7 & -> & E7 & L7 & R7 & U7); try done.
  { by eapply lookup_weaken. }
  { eapply indexed_impl; [|exact HO]. intros. by eapply order_cell_mono. }
  cbn [mbind option_bind].
  pose proof (extends_sub _ _ _ E7) as S7.
  pose proof (extends_alloc h7 (OState a' b' c' d' e' f' g')) as E8.
  pose proof (alloc_lookup h7 (OState a' b' c' d' e' f' g')) as L8.
  unfold remember. destruct (alloc _ h7) as [root' h8]. simpl in E8, L8 |- *.
  pose proof (extends_sub _ _ _ E8) as S8.
  exists root', (Skeleton a' b' c' d' e' f' g' ridx sidx oidx), (<[root := root']> m7), h8.
  split; [done|]. split.
  - unfold skeleton_locs.
    cbn [k_nodes k_highways k_stations k_robots k_shelves k_products k_orders
         k_robot k_shelf k_order].
    eapply extends_trans; [exact E1|].
    eapply extends_trans; [exact E2|].
    eapply extends_trans; [exact E3|].
    eapply extends_trans; [exact E4|].
    eapply extends_trans; [exact E5|].
    eapply extends_trans; [exact E6|].
    eapply extends_trans; [exact E7|]. exact E8.
  - assert (h6 ⊆ h8) as T6 by (etrans; [exact S7|exact S8]).
    assert (h5 ⊆ h8) as T5 by (etrans; [exact S6|exact T6]).
    assert (h4 ⊆ h8) as T4 by (etrans; [exact S5|exact T5]).
    assert (h3 ⊆ h8) as T3 by (etrans; [exact S4|exact T4]).
    assert (h2 ⊆ h8) as T2 by (etrans; [exact S3|exact T3]).
    assert (h1 ⊆ h8) as T1 by (etrans; [exact S2|exact T2]).
    unfold repr.
    cbn [k_nodes k_highways k_stations k_robots k_shelves k_products k_orders
         k_robot k_shelf k_order].
    split_and!.
    + exact L8.
    + exact (lookup_weaken _ _ _ _ L1 T1).
    + exact (lookup_weaken _ _ _ _ L2 T2).
    + exact (lookup_weaken _ _ _ _ L3 T3).
    + exact (lookup_weaken _ _ _ _ L6 T6).
    + exact (lookup_weaken _ _ _ _ L4 T4).
    + exact (lookup_weaken _ _ _ _ L5 T5).
    + exact (lookup_weaken _ _ _ _ L7 S8).
    + eapply indexed_impl; [|exact R4]. intros. eapply robot_cell_mono; [exact T4|done].
    + eapply indexed_impl; [|exact R5]. intros. eapply shelf_cell_mono; [exact T5|done].
    + eapply indexed_impl; [|exact R7]. intros. eapply order_cell_mono; [exact S8|done].
Qed.

Lemma indexed_get {L V} (cell : L → V → Prop) idx d k :
  indexed cell idx d →
  match Dict.get k idx, Dict.get k d with
  | Some x, Some v => cell x v
  | None, None => True
  | _, _ => False
  end.
Proof.
  induction 1 as [|[k1 x] [k2 v] idx d [Hk Hc] _ IH]; simpl in *; [done|]. subst k2.
  destruct (decide (k = k1)); done.
Qed.

Lemma indexed_keys {L V} (cell : L → V → Prop) idx d :
  indexed cell idx d → Dict.keys idx = Dict.keys d.
Proof.
  unfold Dict.keys. induction 1 as [|[k1 x] [k2 v] idx d [Hk Hc] _ IH]; simpl in *; [done|].
  by f_equal.
Qed.

Lemma get_entries_of k kk : Dict.get k (entries_of kk) = fst <$> Dict.get k kk.
Proof.
  induction kk as [|[k' [l q]] kk IH]; simpl; [done|].
  destruct (decide (k = k')); done.
Qed.

Lemma get_elem_2 {L} k (x : L) idx : Dict.get k idx = Some x → x ∈ idx.*2.
Proof.
  intros H. apply DictFacts.get_Some_elem in H. apply list_elem_of_fmap. by exists (k, x).
Qed.

Lemma find_shelf_spec h kk shs p :
  indexed (shelf_cell h) kk shs → find_shelf h (entries_of kk) p = Some (shelf_at p shs).
Proof.
  unfold shelf_at.
  induction 1 as [|[k1 [l q]] [k2 s] kk shs [Hk [Hl Hq]] _ IH]; simpl in *; [done|]. subst k2.
  unfold the_shelf. rewrite Hl. simpl. case_bool_decide; [done|]. apply IH.
Qed.

Lemma find_other_shelf_spec h kk shs p carried :
  indexed (shelf_cell h) kk shs →
  find_other_shelf h (entries_of kk) p carried = Some (other_shelf_at p carried shs).
Proof.
  unfold other_shelf_at.
  induction 1 as [|[k1 [l q]] [k2 s] kk shs [Hk [Hl Hq]] _ IH]; simpl in *; [done|]. subst k2.
  unfold the_shelf. rewrite Hl. simpl. destruct (_ && _); [done|]. apply IH.
Qed.

Lemma elem_of_concat_fmap {A B} (f : A → list B) (l : list A) x w :
  x ∈ l → w ∈ f x → w ∈ concat (f <$> l).
Proof.
  induction 1 as [x l|x y l _ IH]; intros Hw; simpl; apply elem_of_app; [by left|right; auto].
Qed.

(** Writing inside one entry of an index. *)
Lemma indexed_frame {L V} (fp : L → list loc) (cell cell' : L → V → Prop) (x : L) idx d :
  indexed cell idx d →
  (∀ x' v', (∀ w, w ∈ fp x' → w ∉ fp x) → cell x' v' → cell' x' v') →
  (∀ w, w ∈ concat (fp <$> idx.*2) → w ∉ fp x) →
  indexed cell' idx d.
Proof.
  intros Hi Hframe. induction Hi as [|[k1 x1] [k2 v] idx d [Hk Hc] _ IH]; intros Hdisj; [constructor|].
  simpl in *. constructor.
  - split; [done|]. apply Hframe; [|done]. intros w Hw. apply Hdisj. apply elem_of_app. by left.
  - apply IH. intros w Hw. apply Hdisj. apply elem_of_app. by right.
Qed.

Lemma indexed_alter {L V} (fp : L → list loc) (cell cell' : L → V → Prop) idx d k x f :
  indexed cell idx d →
  NoDup (concat (fp <$> idx.*2)) →
  Dict.get k idx = Some x →
  (∀ x' v', (∀ w, w ∈ fp x' → w ∉ fp x) → cell x' v' → cell' x' v') →
  (∀ v, cell x v → cell' x (f v)) →
  indexed cell' idx (Dict.alter f k d).
Proof.
  intros Hi Hnd Hget Hframe Hupd.
  induction Hi as [|[k1 x1] [k2 v] idx d [Hk Hc] Hi IH]; [done|].
  simpl in *. subst k2. apply NoDup_app in Hnd as (Hnd1 & Hdisj & Hnd2).
  destruct (decide (k = k1)) as [->|Hne].
  - injection Hget as ->. constructor; [split; [done|by apply Hupd]|].
    eapply (indexed_frame fp); [exact Hi|exact Hframe|].
    intros w Hw Hx. by apply (Hdisj w).
  - constructor; [|by apply IH]. split; [done|]. apply Hframe; [|done].
    intros w Hw Hx. apply (Hdisj w Hw).
    apply (elem_of_concat_fmap fp _ x); [|done]. by eapply get_elem_2.
Qed.

Lemma concat_singletons {A} (xs : list A) : concat ((λ x, [x]) <$> xs) = xs.
Proof. induction xs; simpl; by f_equal. Qed.

Lemma separated_parts root k :
  separated root k →
  NoDup (k_robot k).*2 ∧
  NoDup (concat (pair_locs <$> (k_shelf k).*2)) ∧
  NoDup (concat (pair_locs <$> (k_order k).*2)) ∧
  (∀ w, w ∈ concat (pair_locs <$> (k_shelf k).*2) →
        w ∉ concat (pair_locs <$> (k_order k).*2)).
Proof.
  unfold separated, skeleton_locs. rewrite !NoDup_app.
  intros (_ & _ & _ & _ & _ & _ & ((HR & _ & _) & _ & (HS & _ & _) & HSO & _ & _ & (HO & _ & _) & _)).
  split_and!; try done.
  intros w Hw Hw'. apply (HSO w); [apply elem_of_app; by left|].
  apply elem_of_app. right. apply elem_of_app. left. apply elem_of_app. by left.
Qed.

Lemma skeleton_locs_robot root k l : l ∈ (k_robot k).*2 → l ∈ skeleton_locs root k.
Proof. unfold skeleton_locs. rewrite !elem_of_app. tauto. Qed.

Lemma skeleton_locs_shelf root k l :
  l ∈ concat (pair_locs <$> (k_shelf k).*2) → l ∈ skeleton_locs root k.
Proof. unfold skeleton_locs. rewrite !elem_of_app. tauto. Qed.

Lemma skeleton_locs_order root k l :
  l ∈ concat (pair_locs <$> (k_order k).*2) → l ∈ skeleton_locs root k.
Proof. unfold skeleton_locs. rewrite !elem_of_app. tauto. Qed.

(** A write does not move an object of another kind. *)
Ltac other_kind :=
  rewrite lookup_insert_ne; [eassumption | intros ->; congruence].

Lemma robot_eta rb rb' :
  ORobot (r_pos rb) (r_carries rb) = ORobot (r_pos rb') (r_carries rb') → rb = rb'.
Proof. destruct rb, rb'; simpl. congruence. Qed.

Lemma write_robot_repr h root k st r l f o' :
  repr h root k st → NoDup (k_robot k).*2 →
  Dict.get r (k_robot k) = Some l →
  (∀ rb, robot_cell h l rb → o' = ORobot (r_pos (f rb)) (r_carries (f rb))) →
  repr (<[l := o']> h) root k (with_robots (Dict.alter f r) st).
Proof.
  intros (H0 & H1 & H2 & H3 & H4 & H5 & H6 & H7 & HR & HS & HO) Hnd Hget Ho'.
  pose proof (indexed_get _ _ _ r HR) as Hrb. rewrite Hget in Hrb.
  destruct (Dict.get r (robots st)) as [rb|] eqn:Erb; [|done].
  pose proof Hrb as Hl. unfold robot_cell in Hl.
  unfold repr. simpl. split_and!; try other_kind.
  - eapply (indexed_alter (λ x, [x])); [exact HR|by rewrite concat_singletons|exact Hget| |].
    + intros x' v' Hx' Hc. unfold robot_cell. rewrite lookup_insert_ne; [done|].
      intros ->. apply (Hx' x'); apply list_elem_of_singleton; done.
    + intros v Hv. unfold robot_cell in *. rewrite lookup_insert_eq. f_equal. by apply Ho'.
  - eapply indexed_impl; [|exact HS]. intros [l' q'] s [Hl' Hq']. split; simpl in *; other_kind.
  - eapply indexed_impl; [|exact HO]. intros [l' q'] s [Hl' Hq']. split; simpl in *; other_kind.
Qed.

Lemma pair_locs_disjoint (x x' : loc * loc) :
  (∀ w, w ∈ pair_locs x' → w ∉ pair_locs x) →
  x'.1 ≠ x.1 ∧ x'.1 ≠ x.2 ∧ x'.2 ≠ x.1 ∧ x'.2 ≠ x.2.
Proof.
  intros H. unfold pair_locs in H.
  assert (∀ a b c : loc, a = b ∨ a = c → a ∈ [b; c]) as Hin.
  { intros a b c [->| ->]; [left|right; left]. }
  split_and!; intros E.
  - apply (H x'.1); apply Hin; auto.
  - apply (H x'.1); apply Hin; auto.
  - apply (H x'.2); apply Hin; auto.
  - apply (H x'.2); apply Hin; auto.
Qed.

Lemma pair_locs_elem (l q : loc) : q ∈ pair_locs (l, q) ∧ l ∈ pair_locs (l, q).
Proof. unfold pair_locs. simpl. split; [left|right; left]. Qed.

(** [shelf['pos'] = ...] and [shelf.pop('pos')] *)
Lemma write_shelf_pos_repr h root k st s l q p' :
  repr h root k st → separated root k →
  Dict.get s (k_shelf k) = Some (l, q) →
  ∀ f, (∀ sh, f sh = Shelf p' (s_quantities sh)) →
  repr (<[l := OShelf p' q]> h) root k (with_shelves (Dict.alter f s) st).
Proof.
  intros (H0 & H1 & H2 & H3 & H4 & H5 & H6 & H7 & HR & HS & HO) Hsep Hget f Hf.
  destruct (separated_parts _ _ Hsep) as (_ & HndS & _ & _).
  pose proof (indexed_get _ _ _ s HS) as Hsh. rewrite Hget in Hsh.
  destruct (Dict.get s (shelves st)) as [sh|] eqn:Esh; [|done].
  destruct Hsh as [Hl Hq]. simpl in Hl, Hq.
  unfold repr. simpl. split_and!; try other_kind.
  - eapply indexed_impl; [|exact HR]. intros l' r'. unfold robot_cell. intros Hl'. other_kind.
  - eapply (indexed_alter pair_locs); [exact HS|exact HndS|exact Hget| |].
    + intros [l' q'] v' Hx' [Hc1 Hc2]. apply pair_locs_disjoint in Hx' as (? & ? & ? & ?).
      simpl in *. split; simpl; by rewrite lookup_insert_ne.
    + intros v [Hv1 Hv2]. simpl in *. rewrite (Hf v). split; simpl.
      * by rewrite lookup_insert_eq.
      * other_kind.
  - eapply indexed_impl; [|exact HO]. intros [l' q'] o [Hl' Hq']. split; simpl in *; other_kind.
Qed.

(** [shelf['quantities'][product_id] -= units] *)
Lemma write_shelf_counts_repr h root k st s l q m' :
  repr h root k st → separated root k →
  Dict.get s (k_shelf k) = Some (l, q) →
  ∀ f, (∀ sh, shelf_cell h (l, q) sh → f sh = Shelf (s_pos sh) m') →
  repr (<[q := OCounts m']> h) root k (with_shelves (Dict.alter f s) st).
Proof.
  intros (H0 & H1 & H2 & H3 & H4 & H5 & H6 & H7 & HR & HS & HO) Hsep Hget f Hf.
  destruct (separated_parts _ _ Hsep) as (_ & HndS & _ & HSO).
  pose proof (indexed_get _ _ _ s HS) as Hsh. rewrite Hget in Hsh.
  destruct (Dict.get s (shelves st)) as [sh|] eqn:Esh; [|done].
  destruct Hsh as [Hl Hq]. simpl in Hl, Hq.
  unfold repr. simpl. split_and!; try other_kind.
  - eapply indexed_impl; [|exact HR]. intros l' r'. unfold robot_cell. intros Hl'. other_kind.
  - eapply (indexed_alter pair_locs); [exact HS|exact HndS|exact Hget| |].
    + intros [l' q'] v' Hx' [Hc1 Hc2]. apply pair_locs_disjoint in Hx' as (? & ? & ? & ?).
      simpl in *. split; simpl; by rewrite lookup_insert_ne.
    + intros v Hv. rewrite (Hf v Hv). destruct Hv as [Hv1 Hv2]. split; simpl in *.
      * other_kind.
      * by rewrite lookup_insert_eq.
  - assert (q ∈ concat (pair_locs <$> (k_shelf k).*2)) as Hqin.
    { apply (elem_of_concat_fmap pair_locs _ (l, q)); [by eapply get_elem_2|].
      apply pair_locs_elem. }
    eapply (indexed_frame pair_locs _ _ (q, q)); [exact HO| |].
    + intros [l' q'] o Hx' [Hl' Hq']. apply pair_locs_disjoint in Hx' as (? & ? & ? & ?).
      simpl in *. split; simpl; by rewrite lookup_insert_ne.
    + intros w Hw Hin. unfold pair_locs in Hin. simpl in Hin.
      assert (w = q) as ->.
      { apply elem_of_cons in Hin as [->|Hin]; [done|].
        by apply list_elem_of_singleton in Hin. }
      by apply (HSO q).
Qed.

(** [order['requirements'][product_id] = ...] *)
Lemma write_order_counts_repr h root k st o l q m' :
  repr h root k st → separated root k →
  Dict.get o (k_order k) = Some (l, q) →
  ∀ f, (∀ od, order_cell h (l, q) od → f od = Order (o_station_id od) m') →
  repr (<[q := OCounts m']> h) root k (with_orders (Dict.alter f o) st).
Proof.
  intros (H0 & H1 & H2 & H3 & H4 & H5 & H6 & H7 & HR & HS & HO) Hsep Hget f Hf.
  destruct (separated_parts _ _ Hsep) as (_ & _ & HndO & HSO).
  pose proof (indexed_get _ _ _ o HO) as Hod. rewrite Hget in Hod.
  destruct (Dict.get o (orders st)) as [od|] eqn:Eod; [|done].
  destruct Hod as [Hl Hq]. simpl in Hl, Hq.
  unfold repr. simpl. split_and!; try other_kind.
  - eapply indexed_impl; [|exact HR]. intros l' r'. unfold robot_cell. intros Hl'. other_kind.
  - assert (q ∈ concat (pair_locs <$> (k_order k).*2)) as Hqin.
    { apply (elem_of_concat_fmap pair_locs _ (l, q)); [by eapply get_elem_2|].
      apply pair_locs_elem. }
    eapply (indexed_frame pair_locs _ _ (q, q)); [exact HS| |].
    + intros [l' q'] s Hx' [Hl' Hq']. apply pair_locs_disjoint in Hx' as (? & ? & ? & ?).
      simpl in *. split; simpl; by rewrite lookup_insert_ne.
    + intros w Hw Hin. unfold pair_locs in Hin. simpl in Hin.
      assert (w = q) as ->.
      { apply elem_of_cons in Hin as [->|Hin]; [done|].
        by apply list_elem_of_singleton in Hin. }
      by apply (HSO q).
  - eapply (indexed_alter pair_locs); [exact HO|exact HndO|exact Hget| |].
    + intros [l' q'] v' Hx' [Hc1 Hc2]. apply pair_locs_disjoint in Hx' as (? & ? & ? & ?).
      simpl in *. split; simpl; by rewrite lookup_insert_ne.
    + intros v Hv. rewrite (Hf v Hv). destruct Hv as [Hv1 Hv2]. split; simpl in *.
      * other_kind.
      * by rewrite lookup_insert_eq.
Qed.

Lemma repr_the_state h root k st :
  repr h root k st →
  the_state h root = Some (k_nodes k, k_highways k, k_stations k, k_robots k,
                           k_shelves k, k_products k, k_orders k).
Proof. intros (H0 & _). unfold the_state. by rewrite H0. Qed.

Lemma repr_robot_index h root k st :
  repr h root k st → the_index h (k_robots k) = Some (k_robot k).
Proof. intros (_ & _ & _ & _ & _ & H & _). unfold the_index. by rewrite H. Qed.

Lemma repr_shelf_index h root k st :
  repr h root k st → the_index h (k_shelves k) = Some (entries_of (k_shelf k)).
Proof. intros (_ & _ & _ & _ & _ & _ & H & _). unfold the_index. by rewrite H. Qed.

Lemma repr_order_index h root k st :
  repr h root k st → the_index h (k_orders k) = Some (entries_of (k_order k)).
Proof. intros (_ & _ & _ & _ & _ & _ & _ & H & _). unfold the_index. by rewrite H. Qed.

Lemma repr_highways h root k st :
  repr h root k st → the_coords h (k_highways k) = Some (highways st).
Proof. intros (_ & _ & H & _). unfold the_coords. by rewrite H. Qed.

Lemma repr_stations h root k st :
  repr h root k st → the_stations h (k_stations k) = Some (picking_stations st).
Proof. intros (_ & _ & _ & H & _). unfold the_stations. by rewrite H. Qed.

Lemma repr_get_robot h root k st r :
  repr h root k st →
  match Dict.get r (k_robot k), Dict.get r (robots st) with
  | Some l, Some rb => the_robot h l = Some (r_pos rb, r_carries rb)
  | None, None => True
  | _, _ => False
  end.
Proof.
  intros (_ & _ & _ & _ & _ & _ & _ & _ & HR & _).
  pose proof (indexed_get _ _ _ r HR) as H.
  destruct (Dict.get r (k_robot k)), (Dict.get r (robots st)); try done.
  unfold the_robot. by rewrite H.
Qed.

Lemma repr_get_shelf h root k st s :
  repr h root k st →
  match Dict.get s (k_shelf k), Dict.get s (shelves st) with
  | Some (l, q), Some sh =>
      the_shelf h l = Some (s_pos sh, q) ∧ the_counts h q = Some (s_quantities sh)
  | None, None => True
  | _, _ => False
  end.
Proof.
  intros (_ & _ & _ & _ & _ & _ & _ & _ & _ & HS & _).
  pose proof (indexed_get _ _ _ s HS) as H.
  destruct (Dict.get s (k_shelf k)) as [[l q]|], (Dict.get s (shelves st)); try done.
  destruct H as [H1 H2]. simpl in *. unfold the_shelf, the_counts. by rewrite H1, H2.
Qed.

Lemma repr_get_order h root k st o :
  repr h root k st →
  match Dict.get o (k_order k), Dict.get o (orders st) with
  | Some (l, q), Some od =>
      the_order h l = Some (o_station_id od, q) ∧ the_counts h q = Some (o_requirements od)
  | None, None => True
  | _, _ => False
  end.
Proof.
  intros (_ & _ & _ & _ & _ & _ & _ & _ & _ & _ & HO).
  pose proof (indexed_get _ _ _ o HO) as H.
  destruct (Dict.get o (k_order k)) as [[l q]|], (Dict.get o (orders st)); try done.
  destruct H as [H1 H2]. simpl in *. unfold the_order, the_counts. by rewrite H1, H2.
Qed.

Lemma with_shelves_id st : with_shelves (λ _, shelves st) st = st.
Proof. by destruct st. Qed.

Lemma alter_shelves_absent f s st :
  Dict.get s (shelves st) = None → with_shelves (Dict.alter f s) st = st.
Proof. intros H. unfold with_shelves. rewrite DictFacts.alter_absent by done. by destruct st. Qed.

(** The writes, as steps on represented states. *)
Lemma write_robot_step h0 h root k st r l rb f p' c' :
  repr h root k st → separated root k →
  Forall (λ l, h0 !! l = None) (skeleton_locs root k) → h0 ⊆ h →
  Dict.get r (k_robot k) = Some l → Dict.get r (robots st) = Some rb →
  f rb = Robot p' c' →
  let h' := <[l := ORobot p' c']> h in
  repr h' root k (with_robots (Dict.alter f r) st) ∧ h0 ⊆ h'.
Proof.
  intros Hrepr Hsep Hfresh Hsub Hl Hrb Hf h'. subst h'.
  destruct (separated_parts _ _ Hsep) as (HndR & _).
  pose proof Hrepr as (_ & _ & _ & _ & _ & _ & _ & _ & HR & _).
  pose proof (indexed_get _ _ _ r HR) as Hc. rewrite Hl, Hrb in Hc.
  split.
  - apply write_robot_repr; try done.
    intros rb' Hc'. unfold robot_cell in *. rewrite Hc in Hc'. injection Hc' as E1 E2.
    assert (rb' = rb) as -> by (destruct rb, rb'; simpl in *; congruence).
    by rewrite Hf.
  - apply insert_subseteq_r; [|done].
    rewrite Forall_forall in Hfresh. apply Hfresh, skeleton_locs_robot. by eapply get_elem_2.
Qed.

Lemma write_shelf_pos_step h0 h root k st s l q f p' :
  repr h root k st → separated root k →
  Forall (λ l, h0 !! l = None) (skeleton_locs root k) → h0 ⊆ h →
  Dict.get s (k_shelf k) = Some (l, q) →
  (∀ sh, f sh = Shelf p' (s_quantities sh)) →
  let h' := <[l := OShelf p' q]> h in
  repr h' root k (with_shelves (Dict.alter f s) st) ∧ h0 ⊆ h'.
Proof.
  intros Hrepr Hsep Hfresh Hsub Hl Hf h'. subst h'. split.
  - by apply write_shelf_pos_repr.
  - apply insert_subseteq_r; [|done].
    rewrite Forall_forall in Hfresh. apply Hfresh, skeleton_locs_shelf.
    apply (elem_of_concat_fmap pair_locs _ (l, q)); [by eapply get_elem_2|apply pair_locs_elem].
Qed.

Lemma write_shelf_counts_step h0 h root k st s l q sh f m' :
  repr h root k st → separated root k →
  Forall (λ l, h0 !! l = None) (skeleton_locs root k) → h0 ⊆ h →
  Dict.get s (k_shelf k) = Some (l, q) → Dict.get s (shelves st) = Some sh →
  f sh = Shelf (s_pos sh) m' →
  let h' := <[q := OCounts m']> h in
  repr h' root k (with_shelves (Dict.alter f s) st) ∧ h0 ⊆ h'.
Proof.
  intros Hrepr Hsep Hfresh Hsub Hl Hsh Hf h'. subst h'.
  pose proof Hrepr as (_ & _ & _ & _ & _ & _ & _ & _ & _ & HS & _).
  pose proof (indexed_get _ _ _ s HS) as Hc. rewrite Hl, Hsh in Hc. destruct Hc as [Hc1 Hc2].
  split.
  - apply (write_shelf_counts_repr _ _ _ _ _ l); try done.
    intros sh' [Hc1' Hc2']. simpl in *. rewrite Hc1 in Hc1'. rewrite Hc2 in Hc2'.
    assert (sh' = sh) as -> by (destruct sh, sh'; simpl in *; congruence). done.
  - apply insert_subseteq_r; [|done].
    rewrite Forall_forall in Hfresh. apply Hfresh, skeleton_locs_shelf.
    apply (elem_of_concat_fmap pair_locs _ (l, q)); [by eapply get_elem_2|apply pair_locs_elem].
Qed.

Lemma write_order_counts_step h0 h root k st o l q od f m' :
  repr h root k st → separated root k →
  Forall (λ l, h0 !! l = None) (skeleton_locs root k) → h0 ⊆ h →
  Dict.get o (k_order k) = Some (l, q) → Dict.get o (orders st) = Some od →
  f od = Order (o_station_id od) m' →
  let h' := <[q := OCounts m']> h in
  repr h' root k (with_orders (Dict.alter f o) st) ∧ h0 ⊆ h'.
Proof.
  intros Hrepr Hsep Hfresh Hsub Hl Hod Hf h'. subst h'.
  pose proof Hrepr as (_ & _ & _ & _ & _ & _ & _ & _ & _ & _ & HO).
  pose proof (indexed_get _ _ _ o HO) as Hc. rewrite Hl, Hod in Hc. destruct Hc as [Hc1 Hc2].
  split.
  - apply (write_order_counts_repr _ _ _ _ _ l); try done.
    intros od' [Hc1' Hc2']. simpl in *. rewrite Hc1 in Hc1'. rewrite Hc2 in Hc2'.
    assert (od' = od) as -> by (destruct od, od'; simpl in *; congruence). done.
  - apply insert_subseteq_r; [|done].
    rewrite Forall_forall in Hfresh. apply Hfresh, skeleton_locs_order.
    apply (elem_of_concat_fmap pair_locs _ (l, q)); [by eapply get_elem_2|apply pair_locs_elem].
Qed.

Ltac bind_step := cbn [mbind option_bind].

Lemma apply_action_refines h0 h cur kc st next kn nxt ai :
  repr h cur kc st → repr h next kn nxt → separated next kn →
  Dict.keys (robots nxt) = Dict.keys (robots st) →
  Forall (λ l, h0 !! l = None) (skeleton_locs next kn) → h0 ⊆ h →
  ∃ h', apply_action_ref cur next ai h = Some h' ∧
        repr h' next kn (step st nxt ai) ∧ h0 ⊆ h'.
Proof.
  intros Hc Hn Hsep Hkeys Hfresh Hsub. destruct ai as [r a].
  unfold apply_action_ref, step, apply_action.
  rewrite (repr_the_state _ _ _ _ Hc). bind_step.
  rewrite (repr_robot_index _ _ _ _ Hc). bind_step.
  pose proof (repr_get_robot _ _ _ _ r Hc) as Hrc.
  destruct (Dict.get r (k_robot kc)) as [rcl|], (Dict.get r (robots st)) as [rb|] eqn:Erb; try done.
  2: { exists h. done. }
  rewrite Hrc. bind_step.
  rewrite (repr_the_state _ _ _ _ Hn). bind_step.
  rewrite (repr_robot_index _ _ _ _ Hn). bind_step.
  pose proof (repr_get_robot _ _ _ _ r Hn) as Hrn.
  assert (is_Some (Dict.get r (robots nxt))) as [rnb Ernb].
  { eapply get_is_Some_keys; [symmetry; exact Hkeys|]. eauto. }
  rewrite Ernb in Hrn. destruct (Dict.get r (k_robot kn)) as [rn|] eqn:Ern; [|done].
  bind_step.
  destruct a as [dx dy| | |o p u|raw].
  - (* Move *)
    unfold write_pos. rewrite Hrn. bind_step.
    eexists. split; [done|]. cbn [fst].
    by apply (write_robot_step h0 h next kn nxt r rn rnb).
  - (* Pickup *)
    destruct (truthy (r_carries rb)); [by exists h|].
    rewrite (repr_shelf_index _ _ _ _ Hc). bind_step.
    rewrite (find_shelf_spec _ _ (shelves st)) by apply Hc. bind_step.
    destruct (shelf_at (r_pos rb) (shelves st)) as [sid|] eqn:Eat; [|by exists h].
    destruct (truthy (Some sid)); [|by exists h].
    unfold write_carries. rewrite Hrn. bind_step.
    destruct (write_robot_step h0 h next kn nxt r rn rnb (set_carries (Some sid))
                (r_pos rnb) (Some sid)) as [Hn1 Hsub1]; try done.
    set (h1 := <[rn:=ORobot (r_pos rnb) (Some sid)]> h) in *.
    rewrite (repr_shelf_index _ _ _ _ Hn1). bind_step.
    rewrite get_entries_of.
    pose proof (repr_get_shelf _ _ _ _ sid Hn1) as Hsh.
    destruct (Dict.get sid (k_shelf kn)) as [[sl ql]|] eqn:Esl; cbn [fmap option_fmap option_map fst].
    + destruct (Dict.get sid (shelves _)) as [sh|] eqn:Esh; [|done].
      destruct Hsh as [Hsh _]. unfold write_shelf_pos. rewrite Hsh. bind_step.
      eexists. split; [done|]. cbn [fst].
      by apply (write_shelf_pos_step h0 h1 next kn _ sid sl ql pop_pos None).
    + destruct (Dict.get sid (shelves _)) as [sh|] eqn:Esh; [done|].
      exists h1. split; [done|]. cbn [fst]. rewrite alter_shelves_absent; done.
  - (* Putdown *)
    destruct (r_carries rb) as [carried|] eqn:Ecar; [|by exists h].
    destruct (truthy (Some carried)); cbn [negb]; [|by exists h].
    rewrite (repr_highways _ _ _ _ Hn). bind_step.
    destruct (decide (r_pos rb ∈ highways nxt)) as [Hhw|Hhw];
      [rewrite !bool_decide_eq_true_2 by done; by exists h
      |rewrite !bool_decide_eq_false_2 by done].
    rewrite (repr_shelf_index _ _ _ _ Hn). bind_step.
    rewrite (find_other_shelf_spec _ _ (shelves nxt)) by apply Hn. bind_step.
    destruct (other_shelf_at (r_pos rb) carried (shelves nxt)) as [other|]; [by exists h|].
    unfold write_carries. rewrite Hrn. bind_step.
    destruct (write_robot_step h0 h next kn nxt r rn rnb (set_carries None)
                (r_pos rnb) None) as [Hn1 Hsub1]; try done.
    set (h1 := <[rn:=ORobot (r_pos rnb) None]> h) in *.
    rewrite (repr_shelf_index _ _ _ _ Hn1). bind_step.
    rewrite get_entries_of.
    pose proof (repr_get_shelf _ _ _ _ carried Hn1) as Hsh.
    destruct (Dict.get carried (k_shelf kn)) as [[sl ql]|] eqn:Esl; cbn [fmap option_fmap option_map fst].
    + destruct (Dict.get carried (shelves _)) as [sh|] eqn:Esh; [|done].
      destruct Hsh as [Hsh _]. unfold write_shelf_pos. rewrite Hsh. bind_step.
      eexists. split; [done|]. cbn [fst].
      by apply (write_shelf_pos_step h0 h1 next kn _ carried sl ql (put_pos (r_pos rb)) (Some (r_pos rb))).
    + destruct (Dict.get carried (shelves _)) as [sh|] eqn:Esh; [done|].
      exists h1. split; [done|]. cbn [fst]. rewrite alter_shelves_absent; done.
  - (* Deliver *)
    destruct (r_carries rb) as [sid|] eqn:Ecar; [|by exists h].
    destruct (truthy (Some sid)); cbn [negb]; [|by exists h].
    rewrite (repr_shelf_index _ _ _ _ Hn). bind_step.
    rewrite get_entries_of.
    pose proof (repr_get_shelf _ _ _ _ sid Hn) as Hsh.
    destruct (Dict.get sid (k_shelf kn)) as [[sl ql]|] eqn:Esl,
             (Dict.get sid (shelves nxt)) as [sh|] eqn:Esh; try done;
      cbn [fmap option_fmap option_map fst]; [|by exists h].
    destruct Hsh as [Hsh Hq].
    rewrite (repr_order_index _ _ _ _ Hn). bind_step.
    rewrite get_entries_of.
    pose proof (repr_get_order _ _ _ _ o Hn) as Hod.
    destruct (Dict.get o (k_order kn)) as [[ol rl]|] eqn:Eol,
             (Dict.get o (orders nxt)) as [od|] eqn:Eod; try done;
      cbn [fmap option_fmap option_map fst]; [|by exists h].
    destruct Hod as [Hod Hreq].
    rewrite Hsh. bind_step. rewrite Hq. bind_step.
    destruct (s_quantities sh !! p) as [qty|] eqn:Eqty; [|by exists h].
    rewrite Hod. bind_step. rewrite (repr_stations _ _ _ _ Hn). bind_step.
    destruct (negb (bool_decide _)); [by exists h|].
    destruct (decide (qty < u)); [by exists h|].
    unfold write_count. rewrite Hq. bind_step.
    destruct (write_shelf_counts_step h0 h next kn nxt sid sl ql sh (take_units p u)
                (alter (λ q, q - u) p (s_quantities sh))) as [Hn1 Hsub1]; try done.
    set (h1 := <[ql:=OCounts _]> h) in *.
    pose proof (repr_get_order _ _ _ _ o Hn1) as Hod1.
    rewrite Eol in Hod1. cbn [orders with_shelves] in Hod1. rewrite Eod in Hod1.
    destruct Hod1 as [Hod1 Hreq1]. rewrite Hreq1. bind_step.
    destruct (o_requirements od !! p) as [need|] eqn:Eneed.
    + eexists. split; [done|]. cbn [fst].
      by apply (write_order_counts_step h0 h1 next kn _ o ol rl od (lower_requirement p u)).
    + exists h1. done.
  - (* unknown action type *)
    by exists h.
Qed.

Lemma run_actions_refines h0 cur kc st next kn acts : ∀ h nxt,
  repr h0 cur kc st → h0 ⊆ h →
  repr h next kn nxt → separated next kn →
  Dict.keys (robots nxt) = Dict.keys (robots st) →
  Forall (λ l, h0 !! l = None) (skeleton_locs next kn) →
  ∃ h', run_actions_ref cur next acts h = Some h' ∧
        repr h' next kn (fold_left (step st) acts nxt) ∧ h0 ⊆ h'.
Proof.
  induction acts as [|ai acts IH]; intros h nxt Hc Hsub Hn Hsep Hkeys Hfresh; simpl.
  - by exists h.
  - destruct (apply_action_refines h0 h cur kc st next kn nxt ai) as (h1 & -> & Hn1 & Hsub1);
      try done.
    { by eapply repr_mono. }
    cbn [mbind option_bind]. apply IH; try done.
    destruct (step_keys st nxt ai) as (-> & _). done.
Qed.

Lemma extends_fresh h h' fp : extends h h' fp → Forall (λ l, h !! l = None) fp.
Proof. intros (_ & _ & H). eapply Forall_impl; [exact H|]. by intros l [? _]. Qed.

Lemma update_state_refines h root k st acts :
  repr h root k st → separated root k →
  ∃ next kn h',
    update_state_ref root acts h = Some (next, h') ∧
    h ⊆ h' ∧
    repr h' next kn (update_state st acts) ∧
    separated next kn ∧
    Forall (λ l, h !! l = None) (skeleton_locs next kn).
Proof.
  intros Hrepr Hsep0. unfold update_state_ref.
  destruct (deepcopy_repr 996 ∅ h root k st Hrepr Hsep0)
    as (next & kn & m' & h1 & Hcp & Hext & Hn).
  { apply Forall_forall. intros x _. apply lookup_empty. }
  change (4 + 996)%nat with recursion_limit in Hcp. rewrite Hcp. cbn [mbind option_bind].
  pose proof (extends_fresh _ _ _ Hext) as Hfresh.
  destruct Hext as (Hsub & Hnd & _).
  destruct (run_actions_refines h root k st next kn acts h1 st) as (h2 & -> & Hn2 & Hsub2);
    try done.
  cbn [mbind option_bind]. exists next, kn, h2.
  rewrite update_state_fold. done.
Qed.

(** The state held at a reference is unique. *)
Lemma robots_functional h idx d d' :
  indexed (robot_cell h) idx d → indexed (robot_cell h) idx d' → d = d'.
Proof.
  intros H. revert d'. induction H as [|[k1 l] [k2 v] idx d [Hk Hc] _ IH]; intros d' H'.
  - by apply Forall2_nil_inv_l in H'.
  - apply Forall2_cons_inv_l in H' as ([k3 v'] & d'' & [Hk' Hc'] & H' & ->).
    simpl in *. subst. unfold robot_cell in *. rewrite Hc in Hc'. injection Hc' as E1 E2.
    f_equal; [|by apply IH]. f_equal. destruct v, v'; simpl in *; congruence.
Qed.

Lemma shelves_functional h kk kk' d d' :
  entries_of kk = entries_of kk' →
  indexed (shelf_cell h) kk d → indexed (shelf_cell h) kk' d' → d = d'.
Proof.
  intros E H. revert kk' d' E.
  induction H as [|[k1 [l q]] [k2 v] kk d [Hk [Hc1 Hc2]] _ IH]; intros kk' d' E H'.
  - destruct kk'; [|done]. by apply Forall2_nil_inv_l in H'.
  - destruct kk' as [|[k1' [l' q']] kk']; [done|]. injection E as -> -> E.
    apply Forall2_cons_inv_l in H' as ([k3 v'] & d'' & [Hk' [Hc1' Hc2']] & H' & ->).
    simpl in *. subst. rewrite Hc1 in Hc1'. injection Hc1' as E1 ->.
    rewrite Hc2 in Hc2'. injection Hc2' as E2.
    f_equal; [|by eapply IH]. f_equal. destruct v, v'; simpl in *; congruence.
Qed.

Lemma orders_functional h kk kk' d d' :
  entries_of kk = entries_of kk' →
  indexed (order_cell h) kk d → indexed (order_cell h) kk' d' → d = d'.
Proof.
  intros E H. revert kk' d' E.
  induction H as [|[k1 [l q]] [k2 v] kk d [Hk [Hc1 Hc2]] _ IH]; intros kk' d' E H'.
  - destruct kk'; [|done]. by apply Forall2_nil_inv_l in H'.
  - destruct kk' as [|[k1' [l' q']] kk']; [done|]. injection E as -> -> E.
    apply Forall2_cons_inv_l in H' as ([k3 v'] & d'' & [Hk' [Hc1' Hc2']] & H' & ->).
    simpl in *. subst. rewrite Hc1 in Hc1'. injection Hc1' as E1 ->.
    rewrite Hc2 in Hc2'. injection Hc2' as E2.
    f_equal; [|by eapply IH]. f_equal. destruct v, v'; simpl in *; congruence.
Qed.

Lemma repr_functional h root k k' st st' :
  repr h root k st → repr h root k' st' → st = st'.
Proof.
  destruct k, k'. unfold repr. simpl.
  intros (H0 & H1 & H2 & H3 & H4 & H5 & H6 & H7 & HR & HS & HO)
         (H0' & H1' & H2' & H3' & H4' & H5' & H6' & H7' & HR' & HS' & HO').
  rewrite H0 in H0'. injection H0' as -> -> -> -> -> -> ->.
  rewrite H1 in H1'. rewrite H2 in H2'. rewrite H3 in H3'. rewrite H4 in H4'.
  rewrite H5 in H5'. rewrite H6 in H6'. rewrite H7 in H7'.
  injection H1' as E1. injection H2' as E2. injection H3' as E3. injection H4' as E4.
  injection H5' as ->. injection H6' as E6. injection H7' as E7.
  pose proof (robots_functional _ _ _ _ HR HR').
  pose proof (shelves_functional _ _ _ _ _ E6 HS HS').
  pose proof (orders_functional _ _ _ _ _ E7 HO HO').
  destruct st, st'; simpl in *; congruence.
Qed.

(** C3.  [update_state] is pure.  On a store that holds the state [st]
    at [root], with no object reached along two paths, the call returns a
    reference [next] and a store [h1] such that: every object of the store
    before the call is still there with the same content ([h ⊆ h1]), so
    the input still holds [st]; the result holds the value-level
    [update_state st acts]; and the result is made of objects that did not
    exist before the call.  A second call on the same input returns a
    reference that holds the same state as the first ([repr_functional]:
    the state held at a reference is unique), and the first result is
    still intact. *)
Theorem update_state_is_pure h root k st acts :
  repr h root k st → separated root k →
  ∃ next kn h1,
    update_state_ref root acts h = Some (next, h1) ∧
    h ⊆ h1 ∧
    repr h1 root k st ∧
    repr h1 next kn (update_state st acts) ∧
    separated next kn ∧
    Forall (λ l, h !! l = None) (skeleton_locs next kn) ∧
    ∃ next' kn' h2,
      update_state_ref root acts h1 = Some (next', h2) ∧
      h1 ⊆ h2 ∧
      repr h2 root k st ∧
      repr h2 next kn (update_state st acts) ∧
      repr h2 next' kn' (update_state st acts).
Proof.
  intros Hrepr Hsep0.
  destruct (update_state_refines h root k st acts Hrepr Hsep0)
    as (next & kn & h1 & Hrun & Hsub & Hn & Hsep & Hfresh).
  pose proof (repr_mono _ _ _ _ _ Hsub Hrepr) as Hrepr1.
  destruct (update_state_refines h1 root k st acts Hrepr1 Hsep0)
    as (next' & kn' & h2 & Hrun' & Hsub' & Hn' & _ & _).
  exists next, kn, h1. split_and!; try done.
  exists next', kn', h2. split_and!; try done; by eapply repr_mono.
Qed.

(** The store of the scenario holds the scenario state, each object once. *)
Lemma scenario_heap_repr : repr scenario_heap 13%positive scenario_skeleton (scenario_state ∅ ∅).
Proof.
  unfold repr. split_and!; try (vm_compute; reflexivity).
  - repeat constructor.
  - repeat constructor.
  - repeat constructor.
Qed.

Lemma scenario_heap_separated : separated 13%positive scenario_skeleton.
Proof. unfold separated. vm_compute. apply (bool_decide_unpack _). vm_compute. exact I. Qed.

(** The Pickup of the scenario, run twice on its store. *)
Lemma update_state_is_pure_witness :
  ∃ next kn h1,
    update_state_ref 13%positive [("r1", Pickup)] scenario_heap = Some (next, h1) ∧
    scenario_heap ⊆ h1 ∧
    repr h1 13%positive scenario_skeleton (scenario_state ∅ ∅) ∧
    repr h1 next kn (update_state (scenario_state ∅ ∅) [("r1", Pickup)]) ∧
    separated next kn ∧
    Forall (λ l, scenario_heap !! l = None) (skeleton_locs next kn) ∧
    ∃ next' kn' h2,
      update_state_ref 13%positive [("r1", Pickup)] h1 = Some (next', h2) ∧
      h1 ⊆ h2 ∧
      repr h2 13%positive scenario_skeleton (scenario_state ∅ ∅) ∧
      repr h2 next kn (update_state (scenario_state ∅ ∅) [("r1", Pickup)]) ∧
      repr h2 next' kn' (update_state (scenario_state ∅ ∅) [("r1", Pickup)]).
Proof.
  apply (update_state_is_pure scenario_heap 13%positive scenario_skeleton
           (scenario_state ∅ ∅) [("r1", Pickup)]).
  - exact scenario_heap_repr.
  - exact scenario_heap_separated.
Defined.
